(** * scruffy.config: key-path resolution and deep merge of [ConfigNode]

    A shallow embedding of [src/scruffy/config.py].  Python values live in
    a store of mutable objects (dicts and lists) addressed by references,
    so that the aliasing the source relies on -- a view re-reading the
    root's live tree, [update_dict] storing the source's own containers in
    the target -- is the model's as well.  Every method is a computation
    in a state-and-exception monad over that store. *)

From Stdlib Require Import ZArith String Ascii List Lia Bool.
From stdpp Require Import base list strings pretty.

Open Scope Z_scope.
Open Scope string_scope.
Open Scope list_scope.

(** ** Python strings: [str.split], [int(str)], [str(int)]

    A [string] stands for a Python [str] whose code points are all below
    256, one [ascii] per code point; text with other code points is not
    represented.  Integers are unbounded, and so are their conversions
    from and to text: the interpreter's limit on the digits of such a
    conversion, where it has one (4300 by default), is off. *)

(** [s.split(sep)] for a one-character separator: never an empty list. *)
Fixpoint split_on (sep : ascii) (s : string) : list string :=
  match s with
  | EmptyString => [EmptyString]
  | String c r =>
      if Ascii.eqb c sep then EmptyString :: split_on sep r
      else match split_on sep r with
           | h :: t => String c h :: t
           | [] => [String c EmptyString]
           end
  end.

(** The characters [int()] strips from both ends: tab to carriage
    return (9 to 13) and the space (32), which the parser skips itself,
    and the two other code points below 256 that are Unicode whitespace,
    next line (133) and no-break space (160), which the conversion of a
    non-ASCII [str] turns into spaces first.  The separators 28 to 31 are
    whitespace for [str.isspace], not for [int()]. *)
Definition is_py_space (c : ascii) : bool :=
  let n := nat_of_ascii c in
  ((9 <=? n)%nat && (n <=? 13)%nat) || (n =? 32)%nat
  || (n =? 133)%nat || (n =? 160)%nat.

Definition digit_of (c : ascii) : option Z :=
  let n := nat_of_ascii c in
  if ((48 <=? n)%nat && (n <=? 57)%nat)%bool
  then Some (Z.of_nat (n - 48)) else None.

Fixpoint lstrip (s : string) : string :=
  match s with
  | String c r => if is_py_space c then lstrip r else s
  | EmptyString => EmptyString
  end.

Definition strip (s : string) : string :=
  String.rev (lstrip (String.rev (lstrip s))).

(** Decimal digits, a single underscore allowed between two digits. *)
Fixpoint parse_digits (acc : Z) (after_digit : bool) (s : string) : option Z :=
  match s with
  | EmptyString => if after_digit then Some acc else None
  | String c r =>
      match digit_of c with
      | Some d => parse_digits (10 * acc + d) true r
      | None =>
          if (Ascii.eqb c "_" && after_digit)%bool
          then parse_digits acc false r
          else None
      end
  end.

(** [int(s)], base 10: surrounding whitespace, an optional sign, then
    decimal digits with single underscores allowed between them.  The
    digits are the ASCII ones, the only decimal digits below code point
    256.  [None] stands for the [ValueError] the source swallows with its
    bare [except]. *)
Definition py_int (s : string) : option Z :=
  match strip s with
  | String "+" r => parse_digits 0 false r
  | String "-" r => Z.opp <$> parse_digits 0 false r
  | t => parse_digits 0 false t
  end.

(** ** Values, objects and the store *)

(** A dict key or a path segment: a string or an integer. *)
Inductive key : Type :=
  | KStr (s : string)
  | KInt (n : Z).

(** A Python value: a scalar held directly, or a reference to a mutable
    container in the store.  Floats are left out: for every operation
    below they behave as [VInt] does (no subscript, no membership). *)
Inductive val : Type :=
  | VNone
  | VBool (b : bool)
  | VInt (n : Z)
  | VStr (s : string)
  | VRef (l : nat).

(** A dict keeps insertion order, as Python's does. *)
Inductive obj : Type :=
  | ODict (items : list (key * val))
  | OList (elems : list val).

(** A [ConfigNode] instance: its four attributes. *)
Record cnode : Type := CNode {
  n_root : nat;
  n_path : option key;
  n_defaults : val;
  n_data : val
}.

Record state : Type := State {
  heap : list obj;
  nodes : list cnode
}.

Global Instance key_eq_dec : EqDecision key.
Proof. solve_decision. Defined.

Global Instance val_eq_dec : EqDecision val.
Proof. solve_decision. Defined.

Global Instance obj_eq_dec : EqDecision obj.
Proof. solve_decision. Defined.

Definition key_eqb (a b : key) : bool :=
  match a, b with
  | KStr s, KStr t => String.eqb s t
  | KInt n, KInt m => Z.eqb n m
  | _, _ => false
  end.

(** ** Exceptions and the monad *)

Inductive exc : Type :=
  | KeyError
  | IndexError
  | TypeError
  | AttributeError
  | RuntimeError      (* dictionary changed size during iteration *)
  | RecursionError    (* the call depth bound is exhausted *)
  | OutOfModel.       (* a dangling reference, or an argument shape the
                         model leaves out: Python never gets here *)

Inductive res (A : Type) : Type :=
  | Ok (a : A)
  | Raise (e : exc).
Arguments Ok {A} a.
Arguments Raise {A} e.

(** A computation returns a result or raises, and in both cases leaves a
    store behind: what was mutated before an exception stays mutated. *)
Definition M (A : Type) : Type := state → res A * state.

Definition ret {A} (a : A) : M A := fun st => (Ok a, st).

Definition raise {A} (e : exc) : M A := fun st => (Raise e, st).

Definition bind {A B} (m : M A) (f : A → M B) : M B :=
  fun st =>
    match m st with
    | (Ok a, st') => f a st'
    | (Raise e, st') => (Raise e, st')
    end.

(** [try: m  except <handled>: h e] *)
Definition try_except {A} (m : M A) (handled : exc → bool) (h : exc → M A) : M A :=
  fun st =>
    match m st with
    | (Ok a, st') => (Ok a, st')
    | (Raise e, st') => if handled e then h e st' else (Raise e, st')
    end.

Notation "x <- m ;; k" := (bind m (fun x => k))
  (at level 200, m at level 99, right associativity, only parsing).
Notation "m ;;; k" := (bind m (fun _ => k))
  (at level 200, right associativity, only parsing).

Definition alloc (o : obj) : M nat :=
  fun st => (Ok (length (heap st)),
             State (heap st ++ [o]) (nodes st)).

Definition load (l : nat) : M obj :=
  fun st =>
    match heap st !! l with
    | Some o => (Ok o, st)
    | None => (Raise OutOfModel, st)
    end.

Definition store (l : nat) (o : obj) : M unit :=
  fun st => (Ok tt, State (<[l := o]> (heap st)) (nodes st)).

Definition new_node (mk : nat → cnode) : M nat :=
  fun st => (Ok (length (nodes st)),
             State (heap st) (nodes st ++ [mk (length (nodes st))])).

Definition get_node (i : nat) : M cnode :=
  fun st =>
    match nodes st !! i with
    | Some n => (Ok n, st)
    | None => (Raise OutOfModel, st)
    end.

Definition set_node (i : nat) (n : cnode) : M unit :=
  fun st => (Ok tt, State (heap st) (<[i := n]> (nodes st))).

(** ** Container primitives *)

Fixpoint dict_get (k : key) (items : list (key * val)) : option val :=
  match items with
  | [] => None
  | (k', v) :: r => if key_eqb k k' then Some v else dict_get k r
  end.

(** [d[k] = v]: an existing key keeps its position, a new one goes last. *)
Fixpoint dict_set (k : key) (v : val) (items : list (key * val))
  : list (key * val) :=
  match items with
  | [] => [(k, v)]
  | (k', v') :: r =>
      if key_eqb k k' then (k', v) :: r else (k', v') :: dict_set k v r
  end.

(** A sequence index: negative indices count from the end. *)
Definition norm_index (n : Z) (len : nat) : option nat :=
  let i := if (n <? 0)%Z then (n + Z.of_nat len)%Z else n in
  if ((0 <=? i)%Z && (i <? Z.of_nat len)%Z)%bool then Some (Z.to_nat i)
  else None.

(** [k == x] for a key [k] and a value [x] ([True == 1] in Python). *)
Definition key_eq_val (k : key) (x : val) : bool :=
  match k, x with
  | KStr s, VStr t => String.eqb s t
  | KInt n, VInt m => Z.eqb n m
  | KInt n, VBool b => Z.eqb n (if b then 1 else 0)
  | _, _ => false
  end.

(** [node[key]] *)
Definition py_getitem (node : val) (k : key) : M val :=
  match node with
  | VRef l =>
      o <- load l ;;
      match o with
      | ODict items =>
          match dict_get k items with
          | Some v => ret v
          | None => raise KeyError
          end
      | OList elems =>
          match k with
          | KInt n =>
              match norm_index n (length elems) with
              | Some i =>
                  match elems !! i with
                  | Some v => ret v
                  | None => raise IndexError
                  end
              | None => raise IndexError
              end
          | KStr _ => raise TypeError
          end
      end
  | VStr s =>
      match k with
      | KInt n =>
          match norm_index n (String.length s) with
          | Some i =>
              match String.get i s with
              | Some c => ret (VStr (String c EmptyString))
              | None => raise IndexError
              end
          | None => raise IndexError
          end
      | KStr _ => raise TypeError
      end
  | VNone | VBool _ | VInt _ => raise TypeError
  end.

(** [node[key] = value] *)
Definition py_setitem (node : val) (k : key) (v : val) : M unit :=
  match node with
  | VRef l =>
      o <- load l ;;
      match o with
      | ODict items => store l (ODict (dict_set k v items))
      | OList elems =>
          match k with
          | KInt n =>
              match norm_index n (length elems) with
              | Some i => store l (OList (<[i := v]> elems))
              | None => raise IndexError
              end
          | KStr _ => raise TypeError
          end
      end
  | VNone | VBool _ | VInt _ | VStr _ => raise TypeError
  end.

Definition is_some {A} (o : option A) : bool :=
  match o with Some _ => true | None => false end.

(** [key in node] *)
Definition py_contains (k : key) (node : val) : M bool :=
  match node with
  | VRef l =>
      o <- load l ;;
      match o with
      | ODict items => ret (is_some (dict_get k items))
      | OList elems => ret (existsb (key_eq_val k) elems)
      end
  | VStr s =>
      match k with
      | KStr t => ret (is_some (String.index 0 t s))
      | KInt _ => raise TypeError
      end
  | VNone | VBool _ | VInt _ => raise TypeError
  end.

(** [type(v) == dict] (equally [isinstance(v, dict)]: the model has no
    subclasses) and [type(v) == list]. *)
Definition is_dict (v : val) : M bool :=
  match v with
  | VRef l => o <- load l ;;
              ret (match o with ODict _ => true | OList _ => false end)
  | _ => ret false
  end.

Definition is_list (v : val) : M bool :=
  match v with
  | VRef l => o <- load l ;;
              ret (match o with OList _ => true | ODict _ => false end)
  | _ => ret false
  end.

(** [node.append(x)] on a list. *)
Definition py_append (node : val) (x : val) : M unit :=
  match node with
  | VRef l =>
      o <- load l ;;
      match o with
      | OList elems => store l (OList (elems ++ [x]))
      | ODict _ => raise AttributeError
      end
  | _ => raise AttributeError
  end.

(** Iteration over a live dict, as CPython's dict iterators do it: every
    [next()] -- the last one too -- first checks that the dict still has
    the size it had when the loop began, then reads the entry at the
    current position from the dict as it is now.  [remaining] counts the
    entries left; the loop starts with [remaining = size]. *)
Fixpoint dict_iter (body : key → val → M unit) (d : nat) (size remaining : nat)
  : M unit :=
  o <- load d ;;
  match o with
  | ODict items =>
      if negb (length items =? size)%nat then raise RuntimeError
      else match remaining with
           | O => ret tt
           | S r =>
               match items !! (size - remaining)%nat with
               | Some (k, v) => body k v ;;; dict_iter body d size r
               | None => ret tt
               end
           end
  | OList _ => raise OutOfModel
  end.

(** [for k, v in source.items(): body]; anything but a dict has no
    [items] attribute. *)
Definition for_items (source : val) (body : key → val → M unit) : M unit :=
  match source with
  | VRef l =>
      o <- load l ;;
      match o with
      | ODict items => dict_iter body l (length items) (length items)
      | OList _ => raise AttributeError
      end
  | _ => raise AttributeError
  end.

(** ** [copy.deepcopy]

    The standard library's algorithm: scalars are returned as they are; a
    container already in [memo] is answered with its copy; otherwise the
    empty copy is entered in [memo] before its elements are copied, so
    that sharing (and cycles) inside the original are kept in the copy.
    The original is not written to while it is copied, so its elements
    are read once.  [depth] bounds the nesting of the recursive calls. *)

Definition memo_t : Type := list (nat * nat).

Fixpoint memo_get (l : nat) (memo : memo_t) : option nat :=
  match memo with
  | [] => None
  | (a, b) :: r => if (a =? l)%nat then Some b else memo_get l r
  end.

Fixpoint copy_elems (rec : val → memo_t → M (val * memo_t)) (y : nat)
    (elems : list val) (memo : memo_t) : M memo_t :=
  match elems with
  | [] => ret memo
  | a :: r =>
      p <- rec a memo ;;
      py_append (VRef y) (fst p) ;;;
      copy_elems rec y r (snd p)
  end.

Fixpoint copy_items (rec : val → memo_t → M (val * memo_t)) (y : nat)
    (items : list (key * val)) (memo : memo_t) : M memo_t :=
  match items with
  | [] => ret memo
  | (k, v) :: r =>
      p <- rec v memo ;;
      py_setitem (VRef y) k (fst p) ;;;
      copy_items rec y r (snd p)
  end.

Fixpoint deepcopy_memo (depth : nat) (x : val) (memo : memo_t)
  : M (val * memo_t) :=
  match x with
  | VRef l =>
      match memo_get l memo with
      | Some y => ret (VRef y, memo)
      | None =>
          let rec :=
            match depth with
            | O => fun _ _ => raise RecursionError
            | S d => deepcopy_memo d
            end in
          o <- load l ;;
          match o with
          | OList elems =>
              y <- alloc (OList []) ;;
              memo' <- copy_elems rec y elems ((l, y) :: memo) ;;
              ret (VRef y, memo')
          | ODict items =>
              y <- alloc (ODict []) ;;
              memo' <- copy_items rec y items ((l, y) :: memo) ;;
              ret (VRef y, memo')
          end
      end
  | _ => ret (x, memo)
  end.

Definition deepcopy (depth : nat) (x : val) : M val :=
  p <- deepcopy_memo depth x [] ;; ret (fst p).

(** ** [update_dict] *)

(** [depth] bounds the nesting of the recursive calls: Python raises
    [RecursionError] at its recursion limit. *)
Fixpoint update_dict (depth : nat) (target source : val) : M unit :=
  for_items source (fun k v =>
    c1 <- is_dict v ;;
    c2 <- (if c1 : bool then py_contains k target else ret false) ;;
    c3 <- (if c2 : bool then sk <- py_getitem source k ;; is_dict sk
           else ret false) ;;
    if c3 : bool then
      tk <- py_getitem target k ;;
      match depth with
      | O => raise RecursionError
      | S d => update_dict d tk v
      end
    else
      py_setitem target k v).

(** ** [ConfigNode] *)

(** The truth value of a path: [None], [''] and [0] are false. *)
Definition truthy (p : option key) : bool :=
  match p with
  | None => false
  | Some (KStr s) => negb (String.eqb s "")
  | Some (KInt n) => negb (Z.eqb n 0)
  end.

(** [str(k)], as ['{}'.format(k)] renders a path or a key. *)
Definition key_str (k : key) : string :=
  match k with
  | KStr s => s
  | KInt n => pretty n
  end.

(** The path [_child] gives the child:
    [if self._path: path = '{}.{}'.format(self._path, path)]. *)
Definition child_path (self_path : option key) (path : key) : key :=
  match self_path with
  | Some p =>
      if truthy self_path then KStr (key_str p ++ "." ++ key_str path)%string
      else path
  | None => path
  end.

(** [try: key = int(key)  except: pass] *)
Definition int_or_keep (k : key) : key :=
  match k with
  | KStr s => match py_int s with Some n => KInt n | None => k end
  | KInt n => KInt n
  end.

Definition is_int (k : key) : bool :=
  match k with KInt _ => true | KStr _ => false end.

Definition exc_is (a b : exc) : bool :=
  match a, b with
  | KeyError, KeyError | IndexError, IndexError | TypeError, TypeError
  | AttributeError, AttributeError | RuntimeError, RuntimeError
  | RecursionError, RecursionError | OutOfModel, OutOfModel => true
  | _, _ => false
  end.

(** The [data] argument of [update]: a plain value or a [ConfigNode]. *)
Inductive data_arg : Type :=
  | DVal (v : val)
  | DNode (n : nat).

(** What [__getitem__] returns: the child view or the raw value. *)
Inductive item : Type :=
  | View (c : nat)
  | Raw (v : val).

(** A default argument [{}]: an empty dict.  The source shares one dict
    object between all calls that omit the argument; the methods below
    only iterate or deep-copy it, and never store it in a tree or merge
    into it, so the model allocates an empty dict per call. *)
Definition default_dict (a : option val) : M val :=
  match a with
  | Some v => ret v
  | None => l <- alloc (ODict []) ;; ret (VRef l)
  end.

(** [len(node)] *)
Definition py_len (node : val) : M nat :=
  match node with
  | VRef l =>
      o <- load l ;;
      ret (match o with
           | ODict items => length items
           | OList elems => length elems
           end)
  | VStr s => ret (String.length s)
  | VNone | VBool _ | VInt _ => raise TypeError
  end.

(** The [if create:] block of [_resolve_path]: "if the next level doesn't
    exist, create it". *)
Definition vivify (node : val) (k : key) : M unit :=
  d <- is_dict node ;;
  absent <- (if d : bool then c <- py_contains k node ;; ret (negb c)
             else ret false) ;;
  if absent : bool then
    e <- alloc (ODict []) ;;
    py_setitem node k (VRef e)
  else
    l <- is_list node ;;
    match k with
    | KInt n =>
        if l : bool then
          len <- py_len node ;;
          if (Z.of_nat len <? n)%Z then
            e <- alloc (OList (replicate (Z.to_nat (n - Z.of_nat len)) VNone)) ;;
            py_append node (VRef e)
          else ret tt
        else ret tt
    | KStr _ => ret tt
    end.

(** The [while len(key_path)] loop of [_resolve_path]: [node] is the
    current node, [last] is [nodes[-1]], and [prev] the key of the round
    before ([None] before the first). *)
Fixpoint traverse (create : bool) (key_path : list key) (node last : val)
    (prev : option key) : M (val * option key) :=
  match key_path with
  | [] => ret (last, prev)
  | k0 :: rest =>
      let k := int_or_keep k0 in
      (if create then vivify node k else ret tt) ;;;
      node' <- try_except (py_getitem node k) (exc_is TypeError)
                 (fun _ => if is_int k then raise IndexError
                           else raise KeyError) ;;
      traverse create rest node' node (Some k)
  end.

Section ConfigNode.

(** The bound on nested calls: Python's recursion limit. *)
Variable limit : nat.

(** "Split up the key path": a string path is split on the dots, any
    other path is the one segment. *)
Definition key_path_of (p : key) : list key :=
  match p with
  | KStr s => map KStr (split_on "." s)
  | KInt _ => [p]
  end.

(** [_resolve_path]: the last container on the path and the last key.
    A node whose path is [None] is never resolved by the methods below
    ([_get_value] tests the path first and [__setitem__] resolves a child,
    whose path is set). *)
Definition _resolve_path (self : nat) (create : bool) : M (val * key) :=
  n <- get_node self ;;
  match n_path n with
  | None => raise OutOfModel
  | Some p =>
      r <- get_node (n_root n) ;;
      cl <- traverse create (key_path_of p) (n_data r) (n_data r) None ;;
      match snd cl with
      | Some k => ret (fst cl, k)
      | None => raise OutOfModel
      end
  end.

(** [_get_value]: the value this node represents; both not-found kinds
    become [None]. *)
Definition _get_value (self : nat) : M val :=
  n <- get_node self ;;
  if truthy (n_path n) then
    try_except
      (cl <- _resolve_path self false ;; py_getitem (fst cl) (snd cl))
      (fun e => (exc_is KeyError e || exc_is IndexError e)%bool)
      (fun _ => ret VNone)
  else ret (n_data n).

(** [update], over the [__setitem__] it calls for each option.  The
    [options] must be a dict; other iterables are left out. *)
Definition update_with (setitem : nat → key → val → M unit)
    (self : nat) (data : option data_arg) (options : option val) : M unit :=
  data <- (match data with
           | Some d => ret d
           | None => l <- alloc (ODict []) ;; ret (DVal (VRef l))
           end) ;;
  options <- default_dict options ;;
  (match options with
   | VRef l =>
       o <- load l ;;
       match o with
       | ODict items =>
           dict_iter (fun k _ => v <- py_getitem options k ;; setitem self k v)
                     l (length items) (length items)
       | OList _ => raise OutOfModel
       end
   | _ => raise OutOfModel
   end) ;;;
  data <- (match data with
           | DNode n => _get_value n
           | DVal v => ret v
           end) ;;
  target <- _get_value self ;;
  update_dict limit target data.

(** [__init__]; returns the new instance.  [not self._root] holds for
    [None] only: a [ConfigNode] defines neither [__bool__] nor [__len__]. *)
Definition init_with (setitem : nat → key → val → M unit)
    (data : option data_arg) (defaults : option val)
    (root : option nat) (path : option key) : M nat :=
  defaults <- default_dict defaults ;;
  d <- deepcopy limit defaults ;;
  self <- new_node (fun self =>
            CNode (match root with Some r => r | None => self end)
                  path defaults d) ;;
  update_with setitem self data None ;;;
  ret self.

(** [_child]: the node for the relative path [path]. *)
Definition child_with (setitem : nat → key → val → M unit)
    (self : nat) (path : key) : M nat :=
  n <- get_node self ;;
  init_with setitem None None (Some (n_root n))
    (Some (child_path (n_path n) path)).

(** [__setitem__].  It needs a child, whose constructor calls [update],
    which calls [__setitem__] for each of its options: [depth] bounds
    that nesting. *)
Fixpoint setitem_at (depth : nat) (self : nat) (k : key) (value : val)
  : M unit :=
  let inner :=
    match depth with
    | O => fun _ _ _ => raise RecursionError
    | S d => setitem_at d
    end in
  c <- child_with inner self k ;;
  cl <- _resolve_path c true ;;
  py_setitem (fst cl) (snd cl) value.

Definition __setitem__ : nat → key → val → M unit := setitem_at limit.

Definition update : nat → option data_arg → option val → M unit :=
  update_with __setitem__.

Definition __init__
  : option data_arg → option val → option nat → option key → M nat :=
  init_with __setitem__.

Definition _child : nat → key → M nat := child_with __setitem__.

(** [type(v) in [dict, list, type(None)]] *)
Definition is_container_or_none (v : val) : M bool :=
  match v with
  | VNone => ret true
  | VRef l => o <- load l ;; ret true
  | VBool _ | VInt _ | VStr _ => ret false
  end.

Definition __getitem__ (self : nat) (k : key) : M item :=
  c <- _child self k ;;
  v <- _get_value c ;;
  t <- is_container_or_none v ;;
  if t : bool then ret (View c) else ret (Raw v).

(** [__eq__]: the resolved value against [other]; here [other] is [None]. *)
Definition eq_none (self : nat) : M bool :=
  v <- _get_value self ;;
  ret (match v with VNone => true | _ => false end).

(** [reset]: back to a deep copy of the stored defaults. *)
Definition reset (self : nat) : M unit :=
  n <- get_node self ;;
  d <- deepcopy limit (n_defaults n) ;;
  set_node self (CNode (n_root n) (n_path n) (n_defaults n) d).

End ConfigNode.

(** ** Reading a store back as a nested structure *)

#[warnings="-register-all"]
Inductive tree : Type :=
  | TNone
  | TBool (b : bool)
  | TInt (n : Z)
  | TStr (s : string)
  | TDict (items : list (key * tree))
  | TList (elems : list tree).

(** The nested structure a value stands for, to depth [fuel]. *)
Fixpoint reify (fuel : nat) (h : list obj) (v : val) : option tree :=
  match v with
  | VNone => Some TNone
  | VBool b => Some (TBool b)
  | VInt n => Some (TInt n)
  | VStr s => Some (TStr s)
  | VRef l =>
      match fuel with
      | O => None
      | S f =>
          match h !! l with
          | Some (ODict items) =>
              TDict <$> mapM (fun kv => pair (fst kv) <$> reify f h (snd kv)) items
          | Some (OList elems) => TList <$> mapM (reify f h) elems
          | None => None
          end
      end
  end.

(** The structure under a node's [_data]. *)
Definition data_tree (fuel : nat) (st : state) (self : nat) : option tree :=
  n ← nodes st !! self; reify fuel (heap st) (n_data n).

(** The structure under a node's [_defaults]. *)
Definition defaults_tree (fuel : nat) (st : state) (self : nat) : option tree :=
  n ← nodes st !! self; reify fuel (heap st) (n_defaults n).

(** The empty world. *)
Definition st0 : state := State [] [].

Definition run {A} (m : M A) (st : state) : res A * state := m st.

(** A computation that leaves every store as it found it. *)
Definition pure_m {A} (m : M A) : Prop := ∀ st, snd (m st) = st.

(** ** Well-formed stores *)

(** A reference is in range, an object holds references in range, a node
    names a root that exists; all checked by computation. *)
Definition val_ok (n : nat) (v : val) : bool :=
  match v with VRef l => (l <? n)%nat | _ => true end.

Definition obj_ok (n : nat) (o : obj) : bool :=
  match o with
  | ODict items => forallb (fun kv => val_ok n (snd kv)) items
  | OList elems => forallb (val_ok n) elems
  end.

Definition node_ok (h n : nat) (c : cnode) : bool :=
  ((n_root c <? n)%nat && val_ok h (n_defaults c) && val_ok h (n_data c))%bool.

Definition wf (st : state) : bool :=
  (forallb (obj_ok (length (heap st))) (heap st)
   && forallb (node_ok (length (heap st)) (length (nodes st))) (nodes st))%bool.

(** The state a default-argument construction leaves: four empty dicts
    (defaults, its copy, data, options) and the new node. *)
Definition with_node (st : state) (root : nat) (path : option key) : state :=
  State (heap st ++ [ODict []; ODict []; ODict []; ODict []])
        (nodes st ++ [CNode root path (VRef (length (heap st)))
                        (VRef (length (heap st) + 1))]).


(** ** Vocabulary of the statements *)

(** The not-found error [_resolve_path] raises in place of a [TypeError]:
    [IndexError(key)] for an integer key, [KeyError(key)] otherwise. *)
Definition not_found (k : key) : exc :=
  if is_int k then IndexError else KeyError.

(** Values with no subscript at all: [None], booleans, numbers. *)
Definition unsubscriptable (v : val) : bool :=
  match v with
  | VNone | VBool _ | VInt _ => true
  | VStr _ | VRef _ => false
  end.

Definition no_type_error {A} (r : res A) : Prop :=
  match r with
  | Raise TypeError => False
  | _ => True
  end.

(** ** Sample stores *)

(** [ConfigNode(data={'a': 5, 'xs': [1], 'sub': {}})] in the empty world,
    under a recursion limit of 5: the node is node 0. *)
Definition demo : M nat :=
  xs <- alloc (OList [VInt 1]) ;;
  sub <- alloc (ODict []) ;;
  d <- alloc (ODict [(KStr "a", VInt 5); (KStr "xs", VRef xs);
                     (KStr "sub", VRef sub)]) ;;
  __init__ 5 (Some (DVal (VRef d))) None None None.

Definition st_demo : state := snd (demo st0).

(** [ConfigNode(data={'0': 'x'})]: a mapping whose key is the string form
    of a number. *)
Definition st_numkey : state :=
  snd ((d <- alloc (ODict [(KStr "0", VStr "x")]) ;;
        __init__ 5 (Some (DVal (VRef d))) None None None) st0).

(** [update_dict(target, source)] with [target = {'x': 1}] and
    [source = {'x': sub}]: a scalar in the target under a key that holds a
    mapping in the source. *)
Definition merge_over_scalar (depth : nat) (sub : list (key * val)) : M val :=
  t <- alloc (ODict [(KStr "x", VInt 1)]) ;;
  a <- alloc (ODict sub) ;;
  s <- alloc (ODict [(KStr "x", VRef a)]) ;;
  update_dict depth (VRef t) (VRef s) ;;;
  ret (VRef t).

(** The spec's sibling example: [{'x': {'a': 1, 'b': 2}}] merged with
    [{'x': {'a': 99, 'c': 3}}]. *)
Definition merge_siblings (depth : nat) : M val :=
  tx <- alloc (ODict [(KStr "a", VInt 1); (KStr "b", VInt 2)]) ;;
  t <- alloc (ODict [(KStr "x", VRef tx)]) ;;
  sx <- alloc (ODict [(KStr "a", VInt 99); (KStr "c", VInt 3)]) ;;
  s <- alloc (ODict [(KStr "x", VRef sx)]) ;;
  update_dict depth (VRef t) (VRef s) ;;;
  ret (VRef t).

(** [ConfigNode(data={'xs': []})]. *)
Definition st_empty_list : state :=
  snd ((xs <- alloc (OList []) ;;
        d <- alloc (ODict [(KStr "xs", VRef xs)]) ;;
        __init__ 5 (Some (DVal (VRef d))) None None None) st0).

(** [D = {'xs': [1]}; c = ConfigNode(defaults=D); c.update(data=D);
    c['xs.0'] = 9; c.reset()]: the defaults object itself is merged in. *)
Definition reset_after_aliasing : M nat :=
  xs <- alloc (OList [VInt 1]) ;;
  d <- alloc (ODict [(KStr "xs", VRef xs)]) ;;
  c <- __init__ 5 None (Some (VRef d)) None None ;;
  update 5 c (Some (DVal (VRef d))) None ;;;
  __setitem__ 5 c (KStr "xs.0") (VInt 9) ;;;
  reset 5 c ;;;
  ret c.

(** The spec's reset example: defaults [{'a': 1}], then
    [update(data={'a': 2, 'b': 3})], then [reset()]. *)
Definition reset_example : M nat :=
  d <- alloc (ODict [(KStr "a", VInt 1)]) ;;
  c <- __init__ 5 None (Some (VRef d)) None None ;;
  u <- alloc (ODict [(KStr "a", VInt 2); (KStr "b", VInt 3)]) ;;
  update 5 c (Some (DVal (VRef u))) None ;;;
  reset 5 c ;;;
  ret c.

(** [c = ConfigNode(); c['a.b.c'] = v]: a write on an empty root. *)
Definition vivify_abc (limit : nat) (v : val) : M nat :=
  c <- __init__ limit None None None None ;;
  __setitem__ limit c (KStr "a.b.c") v ;;;
  ret c.

(** The store [vivify_abc] leaves: the root's four cells (its tree is
    the second), the child view's four, and the three mappings the
    resolver created, the last of them replaced by [v] under ['c']. *)
Definition after_abc (st : state) (v : val) : state :=
  let h := length (heap st) in
  let c := length (nodes st) in
  State (heap st ++
         [ODict []; ODict [(KStr "a", VRef (h + 8))]; ODict []; ODict [];
          ODict []; ODict []; ODict []; ODict [];
          ODict [(KStr "b", VRef (h + 9))]; ODict [(KStr "c", v)]; ODict []])
        (nodes st ++
         [CNode c None (VRef h) (VRef (h + 1));
          CNode c (Some (KStr "a.b.c")) (VRef (h + 4)) (VRef (h + 5))]).

(** ** Confinement: a region of the store no write reaches

    [F] marks the cells of a structure to protect (the defaults).  A
    value is outside when it is not a reference into [F]; a store is
    confined when the cells of [F] are what they were in [h0], no cell
    outside [F] holds a reference into [F], and no node's [_data] is
    one. *)

Definition out (F : nat → Prop) (v : val) : Prop :=
  match v with
  | VRef l => ¬ F l
  | _ => True
  end.

Definition obj_out (F : nat → Prop) (o : obj) : Prop :=
  match o with
  | ODict items => Forall (fun kv => out F (snd kv)) items
  | OList elems => Forall (out F) elems
  end.

Record confined (F : nat → Prop) (h0 : list obj) (st : state) : Prop := {
  conf_frozen : ∀ l, F l → heap st !! l = h0 !! l;
  conf_closed : ∀ l o, heap st !! l = Some o → ¬ F l → obj_out F o;
  conf_nodes : ∀ i n, nodes st !! i = Some n → out F (n_data n);
  conf_bound : ∀ l, F l → (l < length (heap st))%nat
}.

(** A computation keeps the store confined, keeps every node it found,
    and returns results in [R]. *)
Definition keeps (F : nat → Prop) (h0 : list obj) {A} (R : A → Prop)
    (m : M A) : Prop :=
  ∀ st, confined F h0 st →
    confined F h0 (snd (m st))
    ∧ (∀ i n, nodes st !! i = Some n →
         ∃ n', nodes (snd (m st)) !! i = Some n'
               ∧ n_root n' = n_root n ∧ n_path n' = n_path n
               ∧ n_defaults n' = n_defaults n)
    ∧ (∀ a, fst (m st) = Ok a → R a).

Definition memo_out (F : nat → Prop) (memo : memo_t) : Prop :=
  Forall (fun e => ¬ F (snd e)) memo.

Definition data_out (F : nat → Prop) (d : option data_arg) : Prop :=
  match d with
  | Some (DVal v) => out F v
  | Some (DNode _) | None => True
  end.

Definition opt_out (F : nat → Prop) (o : option val) : Prop :=
  match o with
  | Some v => out F v
  | None => True
  end.
(** The postcondition with nothing to say. *)
Definition any {A} : A → Prop := fun _ => True.

(** A copy and its memo hold no reference into the region. *)
Definition copy_post (F : nat → Prop) (p : val * memo_t) : Prop :=
  out F (fst p) ∧ memo_out F (snd p).

(** ** Measures of a nested structure *)

Fixpoint depth (t : tree) : nat :=
  match t with
  | TDict items => S (list_max (map (fun kt => depth (snd kt)) items))
  | TList elems => S (list_max (map depth elems))
  | _ => O
  end.

Fixpoint size (t : tree) : nat :=
  match t with
  | TDict items => S (list_sum (map (fun kt => size (snd kt)) items))
  | TList elems => S (list_sum (map size elems))
  | _ => O
  end.

Fixpoint distinct (ks : list key) : bool :=
  match ks with
  | [] => true
  | k :: r => negb (existsb (key_eqb k) r) && distinct r
  end.

(** A structure Python can hold: the keys of every mapping are distinct. *)
Fixpoint tree_ok (t : tree) : bool :=
  match t with
  | TDict items =>
      distinct (map fst items) && forallb (fun kt => tree_ok (snd kt)) items
  | TList elems => forallb tree_ok elems
  | _ => true
  end.

(** [reify], restricted to the cells [ok] admits. *)
Fixpoint reify_on (ok : nat → bool) (fuel : nat) (h : list obj) (v : val)
  : option tree :=
  match v with
  | VNone => Some TNone
  | VBool b => Some (TBool b)
  | VInt n => Some (TInt n)
  | VStr s => Some (TStr s)
  | VRef l =>
      if ok l then
        match fuel with
        | O => None
        | S f =>
            match h !! l with
            | Some (ODict items) =>
                TDict <$> mapM (fun kv => pair (fst kv) <$> reify_on ok f h (snd kv)) items
            | Some (OList elems) => TList <$> mapM (reify_on ok f h) elems
            | None => None
            end
        end
      else None
  end.

(** Every cell but the listed ones. *)
Definition notin (cells : list nat) (l : nat) : bool :=
  forallb (fun p => negb (p =? l)%nat) cells.

(** ** The memo of a deep copy in progress

    [h0] is the store the copy started from; [pend] lists the copies
    still being filled (the copies of the containers the recursion is
    inside).  An entry for a pending copy is one the recursion cannot meet
    again below a structure of size at most [b]; an entry for a finished
    copy reads, without touching a pending copy, as its original does. *)

Definition memo_pending (h0 : list obj) (memo : memo_t) (pend : list nat)
    (b : nat) : Prop :=
  ∀ l y, memo_get l memo = Some y → y ∈ pend →
  ∀ f t, reify f h0 (VRef l) = Some t → (b < size t)%nat.

Definition memo_done (h0 : list obj) (memo : memo_t) (pend : list nat)
    (h : list obj) : Prop :=
  ∀ l y, memo_get l memo = Some y → y ∉ pend →
  ∀ f t, reify f h0 (VRef l) = Some t →
         reify_on (notin pend) f h (VRef y) = Some t.

Definition memo_below (memo : memo_t) (n : nat) : Prop :=
  ∀ l y, memo_get l memo = Some y → (y < n)%nat.

Definition memo_grows (memo memo' : memo_t) (n : nat) : Prop :=
  ∀ l y, memo_get l memo' = Some y → memo_get l memo = Some y ∨ (n ≤ y)%nat.

(** What a deep copy owes its caller: from a store that continues [h0],
    the copy of a value that reads as [t] in [h0] returns, leaves the
    cells it found as they were, and reads as [t] without touching a
    pending copy. *)
Definition copy_spec (h0 : list obj) (f : nat) : Prop :=
  ∀ x t memo s pend b,
  (∃ news, heap s = h0 ++ news) →
  reify f h0 x = Some t → tree_ok t = true → (size t ≤ b)%nat →
  memo_pending h0 memo pend b → memo_done h0 memo pend (heap s) →
  memo_below memo (length (heap s)) →
  (∀ p, p ∈ pend → (length h0 ≤ p < length (heap s))%nat) →
  ∃ x' memo' added,
    deepcopy_memo f x memo s
    = (Ok (x', memo'), State (heap s ++ added) (nodes s))
    ∧ reify_on (notin pend) f (heap s ++ added) x' = Some t
    ∧ memo_done h0 memo' pend (heap s ++ added)
    ∧ memo_grows memo memo' (length (heap s))
    ∧ memo_below memo' (length (heap s ++ added)).

(** The entries of a mapping against the entries of its structure. *)
Definition item_rel (R : val → tree → Prop) (kv : key * val) (kt : key * tree)
  : Prop := fst kt = fst kv ∧ R (snd kv) (snd kt).

(** ** The cells of a structure and the operations of a caller *)

(** The values an object holds. *)
Definition children (o : obj) : list val :=
  match o with
  | ODict items => map snd items
  | OList elems => elems
  end.

(** The cells of the structure under a value. *)
Inductive reach (h : list obj) : val → nat → Prop :=
  | reach_here l : reach h (VRef l) l
  | reach_step l o v l' :
      h !! l = Some o → v ∈ children o → reach h v l' →
      reach h (VRef l) l'.

(** One operation on a node, as a caller issues it. *)
Inductive op : Type :=
  | OpSet (self : nat) (k : key) (v : val)
  | OpUpdate (self : nat) (data : option data_arg) (options : option val)
  | OpGet (self : nat) (k : key).

Definition run_op (limit : nat) (o : op) : M unit :=
  match o with
  | OpSet self k v => __setitem__ limit self k v
  | OpUpdate self data options => update limit self data options
  | OpGet self k => bind (__getitem__ limit self k) (fun _ => ret tt)
  end.

(** A sequence of operations; the caller catches what one raises and goes
    on. *)
Fixpoint run_ops (limit : nat) (ops : list op) : M unit :=
  match ops with
  | [] => ret tt
  | o :: r =>
      bind (try_except (run_op limit o) (fun _ => true) (fun _ => ret tt))
           (fun _ => run_ops limit r)
  end.

(** No argument of the operation is a container of the region. *)
Definition op_out (F : nat → Prop) (o : op) : Prop :=
  match o with
  | OpSet _ _ v => out F v
  | OpUpdate _ data options => data_out F data ∧ opt_out F options
  | OpGet _ _ => True
  end.

(** Nothing in the store but the structure under [d] itself refers to a
    cell of that structure. *)
Definition isolated (st : state) (d : val) : Prop :=
  (∀ l o, heap st !! l = Some o → ¬ reach (heap st) d l →
          obj_out (reach (heap st) d) o)
  ∧ (∀ i n, nodes st !! i = Some n → out (reach (heap st) d) (n_data n)).


(** The store before the spec's reset example: the defaults [{'a': 1}]
    in cell 0, the data of the update [{'a': 2, 'b': 3}] in cell 1, and no
    node yet. *)
Definition st_reset_example : state :=
  State [ODict [(KStr "a", VInt 1)];
         ODict [(KStr "a", VInt 2); (KStr "b", VInt 3)]] [].
(** ** More of [ConfigNode] *)

(** [__contains__]: [key in self._get_value()] *)
Definition __contains__ (self : nat) (k : key) : M bool :=
  v <- _get_value self ;; py_contains k v.

(** ** What no operation undoes *)

(** A container as it may become: a mapping keeps its keys, a sequence
    its length at least, and neither turns into the other. *)
Definition obj_le (o o' : obj) : Prop :=
  match o, o' with
  | ODict a, ODict b =>
      ∀ k, is_some (dict_get k a) = true → is_some (dict_get k b) = true
  | OList a, OList b => (length a ≤ length b)%nat
  | _, _ => False
  end.

Definition heap_le (h h' : list obj) : Prop :=
  ∀ l o, h !! l = Some o → ∃ o', h' !! l = Some o' ∧ obj_le o o'.

(** A computation under which every container only grows. *)
Definition grows_m {A} (m : M A) : Prop :=
  ∀ st, heap_le (heap st) (heap (snd (m st))).

(** ** Deep merge, on structures *)

(** [d[k]] and [d[k] = t] on the entries of a structure. *)
Fixpoint tree_get (k : key) (items : list (key * tree)) : option tree :=
  match items with
  | [] => None
  | (k', t) :: r => if key_eqb k k' then Some t else tree_get k r
  end.

Fixpoint tree_set (k : key) (t : tree) (items : list (key * tree))
  : list (key * tree) :=
  match items with
  | [] => [(k, t)]
  | (k', t') :: r =>
      if key_eqb k k' then (k', t) :: r else (k', t') :: tree_set k t r
  end.

Definition is_tdict (t : tree) : bool :=
  match t with TDict _ => true | _ => false end.

(** What [update_dict] makes of a target that reads as [t], given a
    source that reads as [s]: entry by entry of the source, a mapping whose
    key the target has is merged into what the target holds there, and
    anything else is stored under the key. *)
Fixpoint merge_tree (t s : tree) : tree :=
  match s, t with
  | TDict sitems, TDict titems =>
      TDict (fold_left
               (fun acc kv =>
                  match snd kv, tree_get (fst kv) acc with
                  | TDict _, Some tk =>
                      tree_set (fst kv) (merge_tree tk (snd kv)) acc
                  | _, _ => tree_set (fst kv) (snd kv) acc
                  end) sitems titems)
  | _, _ => t
  end.

(** The merge never has to enter anything but a mapping: both sides are
    mappings, and wherever the source holds a mapping under a key the
    target has, the target holds a mapping there too, and so on inside. *)
Fixpoint compat (t s : tree) : bool :=
  match s, t with
  | TDict sitems, TDict titems =>
      forallb (fun kv =>
                 match snd kv, tree_get (fst kv) titems with
                 | TDict _, Some tk => compat tk (snd kv)
                 | _, _ => true
                 end) sitems
  | _, _ => false
  end.

(** The cells [reify] visits, each as often as it is visited. *)
Fixpoint cells (fuel : nat) (h : list obj) (v : val) : list nat :=
  match v with
  | VRef l =>
      match fuel with
      | O => [l]
      | S f =>
          l :: match h !! l with
               | Some (ODict items) => flat_map (fun kv => cells f h (snd kv)) items
               | Some (OList elems) => flat_map (cells f h) elems
               | None => []
               end
      end
  | _ => []
  end.

(** One round of the merge, on the entries read so far. *)
Definition merge_step (acc : list (key * tree)) (kv : key * tree)
  : list (key * tree) :=
  match snd kv, tree_get (fst kv) acc with
  | TDict _, Some tk => tree_set (fst kv) (merge_tree tk (snd kv)) acc
  | _, _ => tree_set (fst kv) (snd kv) acc
  end.

(** What [update_dict] owes its caller at depth [f]: on a target that
    reads as [T] through cells it visits once each, none of them a cell of
    the source, the merge returns, writes to cells of the target only, and
    leaves the target reading as [merge_tree T S] through cells of the
    target and of the source. *)
Definition merge_spec (f : nat) : Prop :=
  ∀ h ns t s T S,
  reify f h t = Some T → reify f h s = Some S →
  tree_ok T = true → tree_ok S = true → compat T S = true →
  NoDup (cells f h t) → (∀ l, l ∈ cells f h t → l ∉ cells f h s) →
  ∃ h', update_dict f t s (State h ns) = (Ok tt, State h' ns)
        ∧ length h' = length h
        ∧ (∀ l, l ∉ cells f h t → h' !! l = h !! l)
        ∧ reify f h' t = Some (merge_tree T S)
        ∧ (∀ l, l ∈ cells f h' t → l ∈ cells f h t ∨ l ∈ cells f h s).

(** The state of the merge loop of [update_dict (S f) t s], started in
    the store [h] where [t] held [titems] and [s] held [sitems], once the
    entries [pre] of the source are done: the store is [hi], the target
    holds [cur] and reads, entry by entry, as [acc]. *)
Record merge_inv (f : nat) (h : list obj) (t s : nat)
    (titems sitems pre : list (key * val)) (hi : list obj)
    (cur : list (key * val)) (acc : list (key * tree)) : Prop := {
  mi_length : length hi = length h;
  mi_frame :
    ∀ l, l ∉ t :: flat_map (fun kv => cells f h (snd kv)) titems →
         hi !! l = h !! l;
  mi_target : hi !! t = Some (ODict cur);
  mi_reads : Forall2 (item_rel (fun v tr => reify f hi v = Some tr)) cur acc;
  mi_keys : NoDup (map fst cur);
  mi_kept :
    ∀ k v0, k ∉ map fst pre → dict_get k titems = Some v0 →
            dict_get k cur = Some v0
            ∧ ∀ l, l ∈ cells f h v0 → hi !! l = h !! l;
  mi_absent :
    ∀ k, k ∉ map fst pre → dict_get k titems = None → dict_get k cur = None;
  mi_cells :
    ∀ k v l, (k, v) ∈ cur → l ∈ cells f hi v →
             (∃ v0, dict_get k titems = Some v0 ∧ l ∈ cells f h v0)
             ∨ l ∈ s :: flat_map (fun kv => cells f h (snd kv)) sitems
}.


(** ** Writing along a path *)

(** [_resolve_path(create=True)] from [node] on, and the assignment
    [container[last] = value] that follows it in [__setitem__]. *)
Definition write_at (ks : list key) (node last : val) (prev : option key)
    (v : val) : M unit :=
  cl <- traverse true ks node last prev ;;
  match snd cl with
  | Some kl => py_setitem (fst cl) kl v
  | None => raise OutOfModel
  end.

(** The write by hand, where it succeeds: the structure [t] with [v] put
    at the end of the path, the mappings missing on the way created; a
    sequence is entered and assigned at an index it has. *)
Fixpoint put (t : tree) (ks : list key) (v : tree) : option tree :=
  match ks with
  | [] => None
  | k0 :: rest =>
      let k := int_or_keep k0 in
      match rest with
      | [] =>
          match t with
          | TDict its => Some (TDict (tree_set k v its))
          | TList ts =>
              match k with
              | KInt n =>
                  i ← norm_index n (length ts); Some (TList (<[i := v]> ts))
              | KStr _ => None
              end
          | _ => None
          end
      | _ :: _ =>
          match t with
          | TDict its =>
              t1' ← put (default (TDict []) (tree_get k its)) rest v;
              Some (TDict (tree_set k t1' its))
          | TList ts =>
              match k with
              | KInt n =>
                  i ← norm_index n (length ts);
                  t1 ← ts !! i;
                  t1' ← put t1 rest v;
                  Some (TList (<[i := t1']> ts))
              | KStr _ => None
              end
          | _ => None
          end
      end
  end.

(** The store a creating resolve leaves when it meets the sequence in
    cell [l], holding [elems], with the integer segment [n]: beyond the
    length, one new list of [n - len] times [None] is appended to the
    sequence as a single element; otherwise nothing changes. *)
Definition after_list_vivify (h : list obj) (l : nat) (elems : list val)
    (n : Z) : list obj :=
  if (Z.of_nat (length elems) <? n)%Z then
    <[l := OList (elems ++ [VRef (length h)])]>
      (h ++ [OList (replicate (Z.to_nat (n - Z.of_nat (length elems))) VNone)])
  else h.

(** ** More sample stores *)

(** The spec's sibling example, laid out: the target
    [{'x': {'a': 1, 'b': 2}}] in cell 1 and the source
    [{'x': {'a': 99, 'c': 3}}] in cell 3. *)
Definition h_siblings : list obj :=
  [ODict [(KStr "a", VInt 1); (KStr "b", VInt 2)];
   ODict [(KStr "x", VRef 0)];
   ODict [(KStr "a", VInt 99); (KStr "c", VInt 3)];
   ODict [(KStr "x", VRef 2)]].

(** The same store with a root whose tree is the target; its defaults are
    the empty mapping of cell 4. *)
Definition st_siblings : state :=
  State (h_siblings ++ [ODict []]) [CNode 0 None (VRef 4) (VRef 1)].

(** ** Walking a structure along a path *)

(** [t[k]] on a structure: an entry of a mapping, an element of a
    sequence, a character of a string; [None] where Python raises. *)
Definition tree_item (t : tree) (k : key) : option tree :=
  match t, k with
  | TDict its, _ => tree_get k its
  | TList ts, KInt n => i ← norm_index n (length ts); ts !! i
  | TStr s, KInt n =>
      i ← norm_index n (String.length s);
      c ← String.get i s;
      Some (TStr (String c EmptyString))
  | _, _ => None
  end.

(** The walk by hand: segment after segment, each converted as the
    resolver converts it. *)
Fixpoint walk (t : tree) (ks : list key) : option tree :=
  match ks with
  | [] => Some t
  | k :: r => t' ← tree_item t (int_or_keep k); walk t' r
  end.

(** What [__getitem__] returns for a resolved structure: the raw value
    of a scalar, the view [c] for a container or for nothing. *)
Definition item_of (c : nat) (t : option tree) : item :=
  match t with
  | Some (TBool b) => Raw (VBool b)
  | Some (TInt n) => Raw (VInt n)
  | Some (TStr s) => Raw (VStr s)
  | Some TNone | Some (TDict _) | Some (TList _) | None => View c
  end.

(** ** The characters of a rendered key *)

(** Every character of the string passes the test. *)
Fixpoint all_chars (P : ascii → bool) (s : string) : bool :=
  match s with
  | EmptyString => true
  | String c r => P c && all_chars P r
  end.

Definition is_digit (c : ascii) : bool := is_some (digit_of c).

(** ** Paths that are false, and a node's own segments *)



(** ** The options shorthand *)

(** The nested singleton mapping of a path: [{k1: {k2: ... {kn: v}}}],
    the keys being the segments as they are written. *)
Fixpoint nest (ks : list key) (v : tree) : tree :=
  match ks with
  | [] => v
  | k :: r => TDict [(k, nest r v)]
  end.

(** [c = ConfigNode(); c.update(options={p: v})] *)
Definition options_entry (limit : nat) (p : key) (v : val) : M nat :=
  c <- __init__ limit None None None None ;;
  o <- alloc (ODict [(p, v)]) ;;
  update limit c None (Some (VRef o)) ;;;
  ret c.

(** [c = ConfigNode(); c.update(data=x)] *)
Definition data_entry (limit : nat) (x : val) : M nat :=
  c <- __init__ limit None None None None ;;
  update limit c (Some (DVal x)) None ;;;
  ret c.

(** A store that holds [{'server': {'port': 8080}}], in cell 1. *)
Definition st_server_port : state :=
  State [ODict [(KStr "port", VInt 8080)]; ODict [(KStr "server", VRef 0)]] [].

(** A store that holds [{'server': {'80': 8080}}], in cell 1. *)
Definition st_server_80 : state :=
  State [ODict [(KStr "80", VInt 8080)]; ODict [(KStr "server", VRef 0)]] [].

(** ** Computations on the heap alone *)

(** A computation that reads and writes containers only: it runs the
    same whatever nodes the store holds, and leaves them as they are. *)
Definition heap_only {A} (m : M A) : Prop :=
  ∀ h ns ns',
    m (State h ns')
    = (fst (m (State h ns)), State (heap (snd (m (State h ns)))) ns').

(** A store whose defaults hold a nested sequence: [{'xs': [1]}] in cell
    1, its list in cell 0, and a node whose data is still the defaults
    object itself. *)
Definition st_nested_defaults : state :=
  State [OList [VInt 1]; ODict [(KStr "xs", VRef 0)]]
        [CNode 0 None (VRef 1) (VRef 1)].

(** * Properties *)

(** ** The monad *)

Lemma bind_run {A B} (m : M A) (f : A → M B) st :
  bind m f st =
  match m st with
  | (Ok a, st') => f a st'
  | (Raise e, st') => (Raise e, st')
  end.
Proof. reflexivity. Qed.

Lemma bind_assoc {A B C} (m : M A) (f : A → M B) (g : B → M C) st :
  bind (bind m f) g st = bind m (fun a => bind (f a) g) st.
Proof. unfold bind. destruct (m st) as [[a|e] st']; reflexivity. Qed.

Lemma bind_ret {A B} (a : A) (f : A → M B) st : bind (ret a) f st = f a st.
Proof. reflexivity. Qed.

Lemma bind_raise {A B} e (f : A → M B) st :
  bind (raise e) f st = (Raise e, st).
Proof. reflexivity. Qed.

Create HintDb pure discriminated.

Lemma pure_ret {A} (a : A) : pure_m (ret a).
Proof. intros st. reflexivity. Qed.

Lemma pure_raise {A} e : pure_m (@raise A e).
Proof. intros st. reflexivity. Qed.

Lemma pure_bind {A B} (m : M A) (f : A → M B) :
  pure_m m → (∀ a, pure_m (f a)) → pure_m (bind m f).
Proof.
  intros Hm Hf st. unfold bind. specialize (Hm st).
  destruct (m st) as [[a|e] st']; simpl in *; subst; [apply Hf | reflexivity].
Qed.

Lemma pure_try_except {A} (m : M A) handled h :
  pure_m m → (∀ e, pure_m (h e)) → pure_m (try_except m handled h).
Proof.
  intros Hm Hh st. unfold try_except. specialize (Hm st).
  destruct (m st) as [[a|e] st']; simpl in *; subst; [reflexivity|].
  destruct (handled e); [apply Hh | reflexivity].
Qed.

Lemma pure_load l : pure_m (load l).
Proof. intros st. unfold load. destruct (heap st !! l); reflexivity. Qed.

Lemma pure_get_node i : pure_m (get_node i).
Proof. intros st. unfold get_node. destruct (nodes st !! i); reflexivity. Qed.

#[export] Hint Resolve pure_ret pure_raise pure_load pure_get_node : pure.
#[export] Hint Extern 2 (pure_m (bind _ _)) =>
  apply pure_bind; [| intros ?] : pure.
#[export] Hint Extern 2 (pure_m (try_except _ _ _)) =>
  apply pure_try_except; [| intros ?] : pure.
#[export] Hint Extern 3 (pure_m (match ?x with _ => _ end)) =>
  destruct x : pure.
#[export] Hint Extern 3 (pure_m (if ?x then _ else _)) =>
  destruct x : pure.

Lemma pure_py_getitem node k : pure_m (py_getitem node k).
Proof. unfold py_getitem. auto 9 with pure. Qed.

Lemma pure_py_contains k node : pure_m (py_contains k node).
Proof. unfold py_contains. auto 9 with pure. Qed.

Lemma pure_is_dict v : pure_m (is_dict v).
Proof. unfold is_dict. auto 9 with pure. Qed.

Lemma pure_is_list v : pure_m (is_list v).
Proof. unfold is_list. auto 9 with pure. Qed.

Lemma pure_py_len v : pure_m (py_len v).
Proof. unfold py_len. auto 9 with pure. Qed.

#[export] Hint Resolve pure_py_getitem pure_py_contains pure_is_dict
  pure_is_list pure_py_len : pure.

(** A resolve without [create] writes nothing. *)
Lemma pure_traverse_false key_path :
  ∀ node last prev, pure_m (traverse false key_path node last prev).
Proof.
  induction key_path as [|k0 rest IH]; intros node last prev; simpl.
  - auto with pure.
  - auto 9 with pure.
Qed.

#[export] Hint Resolve pure_traverse_false : pure.

Lemma pure_resolve_path_false self : pure_m (_resolve_path self false).
Proof. unfold _resolve_path. auto 12 with pure. Qed.

#[export] Hint Resolve pure_resolve_path_false : pure.

Lemma pure_get_value self : pure_m (_get_value self).
Proof. unfold _get_value. auto 12 with pure. Qed.

#[export] Hint Resolve pure_get_value : pure.

Lemma pure_eq_none self : pure_m (eq_none self).
Proof. unfold eq_none. auto with pure. Qed.

(** A pure computation, run: the store comes back. *)
Lemma pure_run {A} (m : M A) st : pure_m m → m st = (fst (m st), st).
Proof. intros H. specialize (H st). destruct (m st); simpl in *; congruence. Qed.

(** ** Running a computation on a store that grew

    The store a method leaves is the one it found, followed by the cells
    it allocated: a new cell is addressed as [length h + i]. *)

Lemma lookup_app_plus {A} (h L : list A) i : (h ++ L) !! (length h + i)%nat = L !! i.
Proof. rewrite lookup_app_r by lia. f_equal. lia. Qed.

Lemma lookup_app_here {A} (h L : list A) : (h ++ L) !! (length h) = L !! 0%nat.
Proof. rewrite <- (lookup_app_plus h L 0). f_equal. lia. Qed.

Lemma update_dict_eq depth target source :
  update_dict depth target source =
  for_items source (fun k v =>
    bind (is_dict v) (fun c1 =>
    bind (if c1 : bool then py_contains k target else ret false) (fun c2 =>
    bind (if c2 : bool then bind (py_getitem source k) is_dict else ret false) (fun c3 =>
    if c3 : bool then
      bind (py_getitem target k) (fun tk =>
      match depth with
      | O => raise RecursionError
      | S d => update_dict d tk v
      end)
    else py_setitem target k v)))).
Proof. destruct depth; reflexivity. Qed.


Lemma run_alloc {B} o (f : nat → M B) H ns :
  bind (alloc o) f (State H ns) = f (length H) (State (H ++ [o]) ns).
Proof. reflexivity. Qed.

Lemma run_load {B} l (f : obj → M B) st :
  bind (load l) f st =
  match heap st !! l with
  | Some o => f o st
  | None => (Raise OutOfModel, st)
  end.
Proof. unfold bind, load. destruct (heap st !! l); reflexivity. Qed.

Lemma run_store {B} l o (f : unit → M B) H ns :
  bind (store l o) f (State H ns) = f tt (State (<[l := o]> H) ns).
Proof. reflexivity. Qed.

Lemma run_new_node {B} mk (f : nat → M B) H ns :
  bind (new_node mk) f (State H ns) =
  f (length ns) (State H (ns ++ [mk (length ns)])).
Proof. reflexivity. Qed.

Lemma run_get_node {B} i (f : cnode → M B) st :
  bind (get_node i) f st =
  match nodes st !! i with
  | Some n => f n st
  | None => (Raise OutOfModel, st)
  end.
Proof. unfold bind, get_node. destruct (nodes st !! i); reflexivity. Qed.

Lemma deepcopy_memo_eq depth x memo :
  deepcopy_memo depth x memo =
  match x with
  | VRef l =>
      match memo_get l memo with
      | Some y => ret (VRef y, memo)
      | None =>
          let rec :=
            match depth with
            | O => fun _ _ => raise RecursionError
            | S d => deepcopy_memo d
            end in
          bind (load l) (fun o =>
          match o with
          | OList elems =>
              bind (alloc (OList [])) (fun y =>
              bind (copy_elems rec y elems ((l, y) :: memo)) (fun memo' =>
              ret (VRef y, memo')))
          | ODict items =>
              bind (alloc (ODict [])) (fun y =>
              bind (copy_items rec y items ((l, y) :: memo)) (fun memo' =>
              ret (VRef y, memo')))
          end)
      end
  | _ => ret (x, memo)
  end.
Proof. destruct depth; reflexivity. Qed.

Ltac ksimp :=
  repeat match goal with
  | |- context [int_or_keep (KStr ?s)] =>
      let r := eval vm_compute in (int_or_keep (KStr s)) in
      change (int_or_keep (KStr s)) with r
  | |- context [key_path_of (KStr ?s)] =>
      let r := eval vm_compute in (key_path_of (KStr s)) in
      change (key_path_of (KStr s)) with r
  end.

Ltac hcbn :=
  cbn [heap nodes n_root n_path n_data n_defaults fst snd truthy negb
       Nat.eqb Nat.sub dict_iter length app Nat.add lookup list_lookup
       insert list_insert dict_set dict_get key_eqb String.eqb Ascii.eqb
       Bool.eqb is_some].

(** Cells of a grown store, by position. *)
Ltac hnorm :=
  hcbn; ksimp;
  rewrite ?length_app, <- ?app_assoc, <- ?Nat.add_assoc;
  hcbn;
  rewrite ?insert_app_r;
  rewrite ?lookup_app_plus, ?lookup_app_here;
  hcbn.

Ltac lk := hnorm; try reflexivity.

Ltac mstep :=
  first [ rewrite bind_assoc | rewrite bind_ret | rewrite bind_raise
        | rewrite run_alloc | rewrite run_load | rewrite run_store
        | rewrite run_new_node | rewrite run_get_node ];
  hnorm.

Ltac mrun := repeat mstep.

Lemma init_default limit f root path st :
  let h := heap st in
  let ns := nodes st in
  let self := length ns in
  let st' := State (h ++ [ODict []; ODict []; ODict []; ODict []])
               (ns ++ [CNode (match root with Some r => r | None => self end) path
                         (VRef (length h)) (VRef (length h + 1))]) in
  init_with limit f None None root path st =
  (match fst (_get_value self st') with Ok _ => Ok self | Raise e => Raise e end, st').
Proof.
  destruct st as [h ns]. cbn [heap nodes].
  unfold init_with, default_dict, deepcopy.
  mrun. rewrite deepcopy_memo_eq. cbn [memo_get]. mrun.
  cbn [copy_items]. mrun.
  unfold update_with, default_dict. mrun.
  cbn [length dict_iter]. mrun.
  cbn [length Nat.eqb negb]. mrun.
  rewrite bind_run.
  rewrite (pure_run (_get_value _) _ (pure_get_value _)).
  destruct (fst _) as [target|e]; [|reflexivity].
  rewrite update_dict_eq. unfold for_items. mrun.
  cbn [length dict_iter]. mrun.
  cbn [length Nat.eqb negb]. mrun.
  reflexivity.
Qed.

(** ** Reads in a well-formed store *)

Lemma forallb_lookup {A} (f : A → bool) (xs : list A) i x :
  forallb f xs = true → xs !! i = Some x → f x = true.
Proof.
  intros H Hi. rewrite forallb_forall in H. apply H.
  apply list_elem_of_In. eapply list_elem_of_lookup_2; eauto.
Qed.

Lemma wf_heap st l o :
  wf st = true → heap st !! l = Some o → obj_ok (length (heap st)) o = true.
Proof.
  unfold wf. intros [H _]%andb_true_iff Hl. eapply forallb_lookup; eauto.
Qed.

Lemma wf_node st i n :
  wf st = true → nodes st !! i = Some n →
  (n_root n < length (nodes st))%nat ∧
  val_ok (length (heap st)) (n_defaults n) = true ∧
  val_ok (length (heap st)) (n_data n) = true.
Proof.
  unfold wf. intros [_ H]%andb_true_iff Hi.
  pose proof (forallb_lookup _ _ _ _ H Hi) as Hn. unfold node_ok in Hn.
  apply andb_true_iff in Hn as [[H1 H2]%andb_true_iff H3].
  apply Nat.ltb_lt in H1. auto.
Qed.

Lemma dict_get_ok n k items v :
  forallb (fun kv => val_ok n (snd kv)) items = true →
  dict_get k items = Some v → val_ok n v = true.
Proof.
  induction items as [|[k' v'] r IH]; simpl; [discriminate|].
  intros [Hv Hr]%andb_true_iff. destruct (key_eqb k k').
  - intros [= <-]. exact Hv.
  - auto.
Qed.

(** In a well-formed store a subscript finds a well-formed value or
    raises one of Python's three errors. *)
Lemma py_getitem_wf st node k :
  wf st = true → val_ok (length (heap st)) node = true →
  match fst (py_getitem node k st) with
  | Ok v => val_ok (length (heap st)) v = true
  | Raise e => e = KeyError ∨ e = IndexError ∨ e = TypeError
  end.
Proof.
  intros Hwf Hn. destruct node as [| | |s|l]; simpl; auto.
  - destruct k as [|n]; simpl; auto.
    destruct (norm_index n (String.length s)); simpl; auto.
    destruct (String.get n0 s); simpl; auto.
  - simpl in Hn. apply Nat.ltb_lt in Hn.
    destruct (lookup_lt_is_Some_2 _ _ Hn) as [o Ho].
    unfold bind, load. rewrite Ho.
    pose proof (wf_heap _ _ _ Hwf Ho) as Hok.
    destruct o as [items|elems]; simpl in Hok.
    + destruct (dict_get k items) eqn:E; simpl; auto.
      eapply dict_get_ok; eauto.
    + destruct k as [|n]; simpl; auto.
      destruct (norm_index n (length elems)); simpl; auto.
      destruct (elems !! n0) eqn:E; simpl; auto.
      eapply forallb_lookup; eauto.
Qed.

Lemma traverse_false_wf st :
  wf st = true → ∀ key_path node last prev,
  val_ok (length (heap st)) node = true →
  match fst (traverse false key_path node last prev st) with
  | Ok (c, k) =>
      (key_path = [] ∧ c = last ∧ k = prev) ∨
      (val_ok (length (heap st)) c = true ∧
       ∃ key v, k = Some key ∧ fst (py_getitem c key st) = Ok v ∧
                val_ok (length (heap st)) v = true)
  | Raise e => e = KeyError ∨ e = IndexError
  end.
Proof.
  intros Hwf. induction key_path as [|k0 rest IH]; intros node last prev Hn.
  - simpl. auto.
  - cbn [traverse]. rewrite bind_ret, bind_run.
    unfold try_except.
    pose proof (py_getitem_wf st node (int_or_keep k0) Hwf Hn) as Hg.
    rewrite (pure_run _ st (pure_py_getitem node (int_or_keep k0))).
    destruct (fst (py_getitem node (int_or_keep k0) st)) as [v|e] eqn:E.
    + specialize (IH v node (Some (int_or_keep k0)) Hg).
      destruct (fst (traverse false rest v node (Some (int_or_keep k0)) st))
        as [[c k]|e]; [|exact IH].
      right. destruct IH as [(-> & -> & ->)|IH]; [|exact IH].
      split; [exact Hn|]. eauto.
    + destruct Hg as [->|[->| ->]]; simpl; auto.
      destruct (is_int (int_or_keep k0)); simpl; auto.
Qed.

Lemma split_on_nonempty sep s : split_on sep s ≠ [].
Proof.
  destruct s as [|c r]; simpl; [discriminate|].
  destruct (Ascii.eqb c sep); [discriminate|].
  destruct (split_on sep r); discriminate.
Qed.

Lemma key_path_of_nonempty p : key_path_of p ≠ [].
Proof.
  destruct p as [s|z]; [|discriminate]. unfold key_path_of.
  pose proof (split_on_nonempty "." s). destruct (split_on "." s); [done|discriminate].
Qed.

(** In a well-formed store [_get_value] returns, whatever the path. *)
Lemma get_value_total st self :
  wf st = true → (self < length (nodes st))%nat →
  ∃ v, _get_value self st = (Ok v, st) ∧ val_ok (length (heap st)) v = true.
Proof.
  intros Hwf Hs.
  destruct (lookup_lt_is_Some_2 _ _ Hs) as [n Hn].
  destruct (wf_node _ _ _ Hwf Hn) as (Hr & _ & Hd).
  unfold _get_value. rewrite run_get_node, Hn.
  destruct (truthy (n_path n)) eqn:Ht; [|eauto].
  unfold try_except, _resolve_path.
  rewrite !bind_assoc, run_get_node, Hn.
  destruct (n_path n) as [p|] eqn:Hp; [|discriminate].
  destruct (lookup_lt_is_Some_2 _ _ Hr) as [r Hrn].
  destruct (wf_node _ _ _ Hwf Hrn) as (_ & _ & Hrd).
  rewrite !bind_assoc, run_get_node, Hrn.
  set (kp := key_path_of p).
  pose proof (key_path_of_nonempty p) as Hkp. fold kp in Hkp.
  pose proof (traverse_false_wf st Hwf kp (n_data r) (n_data r) None Hrd) as Ht'.
  rewrite !bind_assoc, bind_run.
  rewrite (pure_run _ st (pure_traverse_false kp (n_data r) (n_data r) None)).
  destruct (fst (traverse false kp (n_data r) (n_data r) None st)) as [[c k]|e].
  - destruct Ht' as [(? & _)|(Hc & key & v & -> & Hg & Hv)]; [done|].
    cbn [snd fst]. rewrite bind_ret. cbn [fst snd].
    rewrite (pure_run _ st (pure_py_getitem c key)), Hg. eauto.
  - destruct Ht' as [-> | ->]; simpl; eauto.
Qed.

Lemma val_ok_mono n m v : (n ≤ m)%nat → val_ok n v = true → val_ok m v = true.
Proof.
  destruct v; simpl; auto. intros H H'. apply Nat.ltb_lt in H'.
  apply Nat.ltb_lt. lia.
Qed.

Lemma obj_ok_mono n m o : (n ≤ m)%nat → obj_ok n o = true → obj_ok m o = true.
Proof.
  intros H. destruct o as [items|elems]; simpl; rewrite !forallb_forall;
    intros Ho x Hx; (eapply val_ok_mono; [exact H|auto]).
Qed.

Lemma wf_with_node st root path :
  wf st = true → (root < S (length (nodes st)))%nat →
  wf (with_node st root path) = true.
Proof.
  unfold wf, with_node. cbn [heap nodes].
  intros [Hh Hn]%andb_true_iff Hr.
  rewrite !length_app. cbn [length].
  rewrite !forallb_app. apply andb_true_iff; split; apply andb_true_iff; split.
  - rewrite forallb_forall in *. intros o Ho.
    eapply (obj_ok_mono (length (heap st))); [lia|auto].
  - reflexivity.
  - rewrite forallb_forall in *. intros c Hc. specialize (Hn c Hc).
    unfold node_ok in *. rewrite !andb_true_iff in *.
    destruct Hn as [[H1 H2] H3]. apply Nat.ltb_lt in H1.
    repeat split; [apply Nat.ltb_lt; lia| |];
      (eapply (val_ok_mono (length (heap st))); [lia|assumption]).
  - unfold node_ok. cbn [forallb n_root n_defaults n_data val_ok].
    rewrite !andb_true_iff, !Nat.ltb_lt. lia.
Qed.

Lemma child_spec limit f self k st n :
  nodes st !! self = Some n →
  let st' := with_node st (n_root n) (Some (child_path (n_path n) k)) in
  child_with limit f self k st =
  (match fst (_get_value (length (nodes st)) st') with
   | Ok _ => Ok (length (nodes st))
   | Raise e => Raise e
   end, st').
Proof.
  intros Hn. unfold child_with. rewrite run_get_node, Hn.
  apply init_default.
Qed.

(** ** What a read leaves behind *)

Lemma pure_is_container_or_none v : pure_m (is_container_or_none v).
Proof. unfold is_container_or_none. auto 9 with pure. Qed.

#[export] Hint Resolve pure_is_container_or_none : pure.

Lemma getitem_grows limit self k st :
  ∃ cells views,
    heap (snd (__getitem__ limit self k st)) = heap st ++ cells
    ∧ nodes (snd (__getitem__ limit self k st)) = nodes st ++ views.
Proof.
  unfold __getitem__, _child.
  destruct (nodes st !! self) as [n|] eqn:Hn.
  - rewrite bind_run, (child_spec _ _ _ _ _ _ Hn).
    set (st' := with_node st _ _).
    destruct (fst (_get_value (length (nodes st)) st')) as [x|e].
    + match goal with |- context [snd (bind ?m ?f ?s)] =>
        assert (Hp : pure_m (bind m f)) by auto 9 with pure;
        rewrite (Hp s)
      end.
      unfold st', with_node; cbn [heap nodes]; eauto.
    + unfold st', with_node; cbn [snd heap nodes]; eauto.
  - unfold child_with. rewrite !bind_assoc, run_get_node, Hn.
    exists [], []. cbn [snd]. rewrite !app_nil_r. auto.
Qed.

Lemma mapM_grows {A B} (f g : A → option B) (xs : list A) :
  (∀ x, f x = None ∨ g x = f x) →
  mapM f xs = None ∨ mapM g xs = mapM f xs.
Proof.
  intros Hfg. induction xs as [|x r IH]; [right; reflexivity|].
  simpl. destruct (Hfg x) as [Hx|Hx]; rewrite Hx; [left; reflexivity|].
  destruct (f x); simpl; [|left; reflexivity].
  destruct IH as [Hr|Hr]; rewrite Hr; [left; reflexivity|right; reflexivity].
Qed.

(** A structure read from a store reads the same from a longer one. *)
Lemma reify_grows fuel : ∀ h cells v,
  reify fuel h v = None ∨ reify fuel (h ++ cells) v = reify fuel h v.
Proof.
  induction fuel as [|f IH]; intros h cells v.
  - destruct v; simpl; auto.
  - destruct v as [| | | |l]; simpl; auto.
    destruct (h !! l) as [o|] eqn:Hl; [|auto].
    rewrite (lookup_app_l_Some _ _ _ _ Hl).
    destruct o as [items|elems].
    + destruct (mapM_grows (λ kv, pair kv.1 <$> reify f h kv.2)
                  (λ kv, pair kv.1 <$> reify f (h ++ cells) kv.2) items)
        as [H|H]; [|rewrite H; auto..].
      intros [k v]. simpl.
      destruct (IH h cells v) as [Hv|Hv]; rewrite Hv; auto.
    + destruct (mapM_grows (reify f h) (reify f (h ++ cells)) elems)
        as [H|H]; [|rewrite H; auto..].
      intros v. apply IH.
Qed.

(** ** The resolver's errors *)

(** The last container and key a read resolve returns are the ones of its
    last lookup, which succeeded. *)
Lemma traverse_false_last st key_path :
  ∀ node last prev c ko,
  key_path ≠ [] →
  fst (traverse false key_path node last prev st) = Ok (c, ko) →
  ∃ k v, ko = Some k ∧ py_getitem c k st = (Ok v, st).
Proof.
  induction key_path as [|k0 rest IH]; intros node last prev c ko Hne; [done|].
  cbn [traverse]. rewrite bind_ret, bind_run. unfold try_except.
  rewrite (pure_run _ st (pure_py_getitem node (int_or_keep k0))).
  destruct (fst (py_getitem node (int_or_keep k0) st)) as [v|e] eqn:E.
  - destruct rest as [|k1 rest'].
    + cbn [traverse ret fst]. intros [= <- <-].
      exists (int_or_keep k0), v. split; [reflexivity|].
      rewrite (pure_run _ st (pure_py_getitem node (int_or_keep k0))), E.
      reflexivity.
    + apply IH. discriminate.
  - destruct (exc_is TypeError e); [|discriminate].
    destruct (is_int (int_or_keep k0)); discriminate.
Qed.

Lemma traverse_false_no_type_error st key_path :
  ∀ node last prev,
  no_type_error (fst (traverse false key_path node last prev st)).
Proof.
  induction key_path as [|k0 rest IH]; intros node last prev; [exact I|].
  cbn [traverse]. rewrite bind_ret, bind_run. unfold try_except.
  rewrite (pure_run _ st (pure_py_getitem node (int_or_keep k0))).
  destruct (fst (py_getitem node (int_or_keep k0) st)) as [v|e].
  - apply IH.
  - destruct e; cbn [exc_is fst]; try exact I.
    destruct (is_int (int_or_keep k0)); exact I.
Qed.

Lemma resolve_path_no_type_error st self :
  no_type_error (fst (_resolve_path self false st)).
Proof.
  unfold _resolve_path. rewrite run_get_node.
  destruct (nodes st !! self) as [n|]; [|exact I].
  destruct (n_path n) as [p|]; [|exact I].
  rewrite run_get_node. destruct (nodes st !! n_root n) as [r|]; [|exact I].
  rewrite bind_run.
  match goal with |- context [traverse false ?kp ?a ?b ?c st] =>
    pose proof (traverse_false_no_type_error st kp a b c) as H;
    destruct (traverse false kp a b c st) as [[[cc [k|]]|e] st1]
  end; try exact I. exact H.
Qed.

(** A resolver failure of either not-found kind reads as [None]. *)
Lemma get_value_not_found st self n :
  nodes st !! self = Some n → truthy (n_path n) = true →
  fst (_resolve_path self false st) = Raise KeyError
  ∨ fst (_resolve_path self false st) = Raise IndexError →
  _get_value self st = (Ok VNone, st).
Proof.
  intros Hn Ht Hres. unfold _get_value. rewrite run_get_node, Hn, Ht.
  unfold try_except. rewrite bind_run.
  rewrite (pure_run _ st (pure_resolve_path_false self)).
  destruct Hres as [-> | ->]; reflexivity.
Qed.

Lemma get_value_no_type_error st self :
  no_type_error (fst (_get_value self st)).
Proof.
  unfold _get_value. rewrite run_get_node.
  destruct (nodes st !! self) as [n|] eqn:Hn; [|exact I].
  destruct (truthy (n_path n)) eqn:Ht; [|exact I].
  unfold try_except. rewrite bind_run.
  pose proof (resolve_path_no_type_error st self) as Hnt.
  rewrite (pure_run _ st (pure_resolve_path_false self)).
  destruct (fst (_resolve_path self false st)) as [[c k]|e] eqn:E.
  - (* the lookup just made is made again *)
    cbn [fst snd].
    assert (∃ v, py_getitem c k st = (Ok v, st)) as [v ->]; [|exact I].
    revert E. unfold _resolve_path. rewrite run_get_node, Hn.
    destruct (n_path n) as [p|]; [|discriminate].
    rewrite run_get_node. destruct (nodes st !! n_root n) as [r|]; [|discriminate].
    rewrite bind_run.
    match goal with |- context [traverse false ?kp ?a ?b ?c0 st] =>
      pose proof (traverse_false_last st kp a b c0) as Hl;
      rewrite (pure_run _ st (pure_traverse_false kp a b c0)) in *;
      destruct (fst (traverse false kp a b c0 st)) as [[cc ko]|e]; [|discriminate];
      assert (Hkp : kp ≠ [])
    end.
    { apply key_path_of_nonempty. }
    destruct (Hl cc ko Hkp eq_refl) as (k' & v & -> & Hg).
    cbn [snd fst ret]. intros [= <- <-]. eauto.
  - destruct e; try exact I. exact Hnt.
Qed.

(** Integer keys miss a mapping whose keys are all strings. *)
Lemma dict_get_int_among_strings z items :
  forallb (fun kv => negb (is_int (fst kv))) items = true →
  dict_get (KInt z) items = None.
Proof.
  induction items as [|[k v] r IH]; [reflexivity|].
  cbn [forallb fst]. intros [Hk Hr]%andb_true_iff.
  destruct k; [|discriminate]. cbn [dict_get key_eqb]. auto.
Qed.

(** ** Evaluating the resolver *)

Lemma key_eqb_refl k : key_eqb k k = true.
Proof. destruct k; simpl; [apply String.eqb_refl | apply Z.eqb_refl]. Qed.

Lemma dict_get_set_eq k v items : dict_get k (dict_set k v items) = Some v.
Proof.
  induction items as [|[k' v'] r IH]; simpl.
  - rewrite key_eqb_refl. reflexivity.
  - destruct (key_eqb k k') eqn:E; simpl; rewrite E; auto.
Qed.

Lemma setitem_at_eq limit depth self k value :
  setitem_at limit depth self k value =
  bind (child_with limit
          (match depth with
           | O => fun _ _ _ => raise RecursionError
           | S d => setitem_at limit d
           end) self k) (fun c =>
  bind (_resolve_path c true) (fun cl =>
  py_setitem (fst cl) (snd cl) value)).
Proof. destruct depth; reflexivity. Qed.

(** One round of the resolver over a mapping that has the key. *)
Lemma traverse_dict_present create k0 rest l items v last prev st :
  heap st !! l = Some (ODict items) →
  dict_get (int_or_keep k0) items = Some v →
  traverse create (k0 :: rest) (VRef l) last prev st
  = traverse create rest v (VRef l) (Some (int_or_keep k0)) st.
Proof.
  intros Hl Hk. cbn [traverse].
  assert (Hv : (if create then vivify (VRef l) (int_or_keep k0) else ret tt) st
               = (Ok tt, st)).
  { destruct create; [|reflexivity].
    unfold vivify, is_dict, py_contains, is_list.
    rewrite !bind_assoc, run_load, Hl, bind_ret.
    rewrite !bind_assoc, run_load, Hl, bind_ret, Hk. 
    cbn [is_some negb]. rewrite bind_ret.
    rewrite !bind_assoc, run_load, Hl, bind_ret.
    destruct (int_or_keep k0); reflexivity. }
  rewrite bind_run, Hv. unfold try_except, py_getitem.
  rewrite bind_run, run_load, Hl, Hk. reflexivity.
Qed.

(** One creating round over a mapping that lacks the key: an empty
    mapping is allocated and stored under the key, and the walk goes on
    inside it. *)
Lemma traverse_dict_create k0 rest l items last prev H ns :
  H !! l = Some (ODict items) →
  dict_get (int_or_keep k0) items = None →
  traverse true (k0 :: rest) (VRef l) last prev (State H ns)
  = traverse true rest (VRef (length H)) (VRef l) (Some (int_or_keep k0))
      (State (<[l := ODict (dict_set (int_or_keep k0) (VRef (length H)) items)]>
                (H ++ [ODict []])) ns).
Proof.
  intros Hl Hk. cbn [traverse].
  assert (Hlt : (l < length H)%nat) by (eapply lookup_lt_Some; eauto).
  unfold vivify, is_dict, py_contains.
  rewrite !bind_assoc, run_load. cbn [heap]. rewrite Hl, bind_ret.
  rewrite !bind_assoc, run_load. cbn [heap]. rewrite Hl, bind_ret, Hk.
  cbn [is_some negb].
  rewrite bind_ret, !bind_assoc, run_alloc.
  unfold py_setitem. rewrite !bind_assoc, run_load. cbn [heap].
  rewrite (lookup_app_l_Some _ _ _ _ Hl), run_store.
  unfold try_except, py_getitem. rewrite bind_run, run_load. cbn [heap].
  rewrite list_lookup_insert_eq by (rewrite length_app; lia).
  rewrite dict_get_set_eq. reflexivity.
Qed.

Lemma resolve_path_eval st c n r p create :
  nodes st !! c = Some n → n_path n = Some p →
  nodes st !! n_root n = Some r →
  _resolve_path c create st =
  match traverse create (key_path_of p) (n_data r) (n_data r) None st with
  | (Ok (cont, Some k), st1) => (Ok (cont, k), st1)
  | (Ok (_, None), st1) => (Raise OutOfModel, st1)
  | (Raise e, st1) => (Raise e, st1)
  end.
Proof.
  intros Hc Hp Hr. unfold _resolve_path.
  rewrite run_get_node, Hc, Hp, run_get_node, Hr, bind_run.
  destruct (traverse _ _ _ _ _ st) as [[[cont [k|]]|e] st1]; reflexivity.
Qed.

Lemma get_value_eval st c n r p cont k v :
  nodes st !! c = Some n → n_path n = Some p → truthy (Some p) = true →
  nodes st !! n_root n = Some r →
  traverse false (key_path_of p) (n_data r) (n_data r) None st
  = (Ok (cont, Some k), st) →
  py_getitem cont k st = (Ok v, st) →
  _get_value c st = (Ok v, st).
Proof.
  intros Hc Hp Ht Hr Htr Hg. unfold _get_value.
  rewrite run_get_node, Hc, Hp, Ht. unfold try_except.
  rewrite bind_run, (resolve_path_eval _ _ _ _ _ _ Hc Hp Hr), Htr.
  cbn [fst snd]. rewrite Hg. reflexivity.
Qed.


Lemma traverse_dict_missing k0 rest l items last prev st :
  heap st !! l = Some (ODict items) →
  dict_get (int_or_keep k0) items = None →
  traverse false (k0 :: rest) (VRef l) last prev st = (Raise KeyError, st).
Proof.
  intros Hl Hk. cbn [traverse]. rewrite bind_ret.
  unfold try_except, py_getitem. rewrite bind_run, run_load, Hl, Hk.
  reflexivity.
Qed.

Lemma get_value_eval_missing st c n r p e :
  nodes st !! c = Some n → n_path n = Some p → truthy (Some p) = true →
  nodes st !! n_root n = Some r →
  traverse false (key_path_of p) (n_data r) (n_data r) None st
  = (Raise e, st) →
  (exc_is KeyError e || exc_is IndexError e)%bool = true →
  _get_value c st = (Ok VNone, st).
Proof.
  intros Hc Hp Ht Hr Htr He. unfold _get_value.
  rewrite run_get_node, Hc, Hp, Ht. unfold try_except.
  rewrite bind_run, (resolve_path_eval _ _ _ _ _ _ Hc Hp Hr), Htr, He.
  reflexivity.
Qed.

(** [__getitem__], given what the child view resolves to. *)
Lemma getitem_eval limit self k st n v :
  nodes st !! self = Some n →
  let c := length (nodes st) in
  let st' := with_node st (n_root n) (Some (child_path (n_path n) k)) in
  _get_value c st' = (Ok v, st') →
  (∀ l, v = VRef l → is_Some (heap st' !! l)) →
  __getitem__ limit self k st =
  (Ok (match v with
       | VNone | VRef _ => View c
       | VBool _ | VInt _ | VStr _ => Raw v
       end), st').
Proof.
  intros Hn c st' Hv Hl.
  unfold __getitem__, _child.
  rewrite bind_run, (child_spec _ _ _ _ _ _ Hn). fold st' c.
  rewrite Hv. cbn [fst]. rewrite bind_run, Hv.
  destruct v as [| | | |l]; try reflexivity.
  unfold is_container_or_none. rewrite !bind_assoc, run_load.
  destruct (Hl l eq_refl) as [o Ho]. rewrite Ho. reflexivity.
Qed.

Lemma vivify_abc_run limit st v :
  vivify_abc limit v st = (Ok (length (nodes st)), after_abc st v).
Proof.
  destruct st as [h ns].
  unfold vivify_abc, __init__, after_abc.
  rewrite bind_run, init_default. cbn [heap nodes].
  unfold _get_value at 1. mrun. cbn [n_path truthy ret fst n_data].
  unfold __setitem__. rewrite ?bind_assoc, setitem_at_eq.
  unfold child_with. mrun. rewrite bind_run, init_default.
  cbn [heap nodes n_root n_path child_path truthy]. lk.
  erewrite get_value_eval_missing; cycle 1.
  { lk. } { lk. } { reflexivity. } { lk. }
  { lk. apply traverse_dict_missing with (items := []); lk. }
  { reflexivity. }
  cbn [fst].
  rewrite !bind_assoc, bind_run.
  erewrite resolve_path_eval; cycle 1.
  { lk. } { lk. } { lk. }
  lk.
  erewrite traverse_dict_create; cycle 1. { lk. } { reflexivity. }
  lk.
  erewrite traverse_dict_create; cycle 1. { lk. } { reflexivity. }
  lk.
  erewrite traverse_dict_create; cycle 1. { lk. } { reflexivity. }
  lk. cbn [traverse ret].
  unfold py_setitem. hnorm. mrun. reflexivity.
Qed.

(** A read on the store [vivify_abc] leaves. *)
Lemma read_abc limit st v (segs : string) (res : val) (cont : val) (k : key) :
  let st1 := after_abc st v in
  let root := length (nodes st) in
  let st' := with_node st1 root (Some (KStr segs)) in
  truthy (Some (KStr segs)) = true →
  traverse false (key_path_of (KStr segs))
    (VRef (length (heap st) + 1)) (VRef (length (heap st) + 1)) None st'
  = (Ok (cont, Some k), st') →
  py_getitem cont k st' = (Ok res, st') →
  (∀ l, res = VRef l → is_Some (heap st' !! l)) →
  __getitem__ limit root (KStr segs) st1
  = (Ok (match res with
         | VNone | VRef _ => View (length (nodes st1))
         | VBool _ | VInt _ | VStr _ => Raw res
         end), st')
  ∧ _get_value (length (nodes st1)) st' = (Ok res, st').
Proof.
  intros st1 root st' Ht Htr Hg Hl.
  assert (Hv : _get_value (length (nodes st1)) st' = (Ok res, st')).
  { eapply get_value_eval with (p := KStr segs); [| | exact Ht | | |exact Hg].
    - unfold st', with_node. cbn [nodes]. apply list_lookup_middle. reflexivity.
    - reflexivity.
    - cbn [n_root]. unfold st', with_node, st1, after_abc, root. lk.
    - cbn [n_data]. exact Htr. }
  split; [|exact Hv].
  apply (getitem_eval limit root (KStr segs) st1
           (CNode root None (VRef (length (heap st))) (VRef (length (heap st) + 1)))
           res).
  - unfold st1, after_abc, root. lk.
  - exact Hv.
  - exact Hl.
Qed.



(** ** Confinement: every method keeps a protected region

    One rule per primitive and per method: started in a confined store
    and given arguments outside the region, it ends in a confined store,
    keeps the nodes it found and returns a value outside the region. *)

Section Confinement.

Variable F : nat → Prop.
Variable h0 : list obj.

Local Abbreviation out := (out F).
Local Abbreviation obj_out := (obj_out F).
Local Abbreviation confined := (confined F h0).
Local Abbreviation keeps := (keeps F h0).


Lemma keeps_ret {A} (R : A → Prop) a : R a → keeps R (ret a).
Proof.
  intros Ha st Hc. cbn. split; [exact Hc|]. split; [eauto 6|].
  intros a' [= <-]. exact Ha.
Qed.

Lemma keeps_raise {A} (R : A → Prop) e : keeps R (raise e).
Proof.
  intros st Hc. cbn. split; [exact Hc|]. split; [eauto 6|]. discriminate.
Qed.

Lemma keeps_bind {A B} (R : A → Prop) (Q : B → Prop) m (f : A → M B) :
  keeps R m → (∀ a, R a → keeps Q (f a)) → keeps Q (bind m f).
Proof.
  intros Hm Hf st Hc. destruct (Hm st Hc) as (Hc1 & Hn1 & Hr1).
  unfold bind. destruct (m st) as [[a|e] st1]; cbn [fst snd] in *.
  - destruct (Hf a (Hr1 a eq_refl) st1 Hc1) as (Hc2 & Hn2 & Hr2).
    split; [exact Hc2|]. split; [|exact Hr2].
    intros i n Hi. destruct (Hn1 i n Hi) as (n1 & Hi1 & E1 & E2 & E3).
    destruct (Hn2 i n1 Hi1) as (n2 & Hi2 & E4 & E5 & E6).
    exists n2. repeat split; congruence.
  - split; [exact Hc1|]. split; [exact Hn1|]. discriminate.
Qed.

Lemma keeps_weaken {A} (R Q : A → Prop) m :
  keeps R m → (∀ a, R a → Q a) → keeps Q m.
Proof.
  intros Hm HRQ st Hc. destruct (Hm st Hc) as (H1 & H2 & H3). eauto.
Qed.

Lemma keeps_try_except {A} (R : A → Prop) m handled h :
  keeps R m → (∀ e, keeps R (h e)) → keeps R (try_except m handled h).
Proof.
  intros Hm Hh st Hc. destruct (Hm st Hc) as (Hc1 & Hn1 & Hr1).
  unfold try_except. destruct (m st) as [[a|e] st1]; cbn [fst snd] in *.
  - auto.
  - destruct (handled e).
    + destruct (Hh e st1 Hc1) as (Hc2 & Hn2 & Hr2).
      split; [exact Hc2|]. split; [|exact Hr2].
      intros i n Hi. destruct (Hn1 i n Hi) as (n1 & Hi1 & E1 & E2 & E3).
      destruct (Hn2 i n1 Hi1) as (n2 & Hi2 & E4 & E5 & E6).
      exists n2. repeat split; congruence.
    + split; [exact Hc1|]. split; [exact Hn1|]. discriminate.
Qed.

(** A computation that writes nothing keeps everything. *)
Lemma keeps_pure {A} (m : M A) : pure_m m → keeps any m.
Proof.
  intros Hp st Hc. rewrite (Hp st). split; [exact Hc|]. split; [eauto 6|].
  intros; exact I.
Qed.

Lemma keeps_load l : ¬ F l → keeps obj_out (load l).
Proof.
  intros Hl st Hc. unfold load.
  destruct (heap st !! l) as [o|] eqn:E; cbn.
  - split; [exact Hc|]. split; [eauto 6|]. intros a [= <-].
    eapply conf_closed; eauto.
  - split; [exact Hc|]. split; [eauto 6|]. discriminate.
Qed.

Lemma keeps_alloc o : obj_out o → keeps (fun l => ¬ F l) (alloc o).
Proof.
  intros Ho st Hc. unfold alloc. cbn. split; [|split].
  - destruct Hc as [H1 H2 H3 H4]. split; cbn.
    + intros l Hl. rewrite lookup_app_l by auto. auto.
    + intros l o' Hl Hnl. apply lookup_app_Some in Hl as [Hl|[_ Hl]]; [eauto|].
      apply list_lookup_singleton_Some in Hl as [_ <-]. exact Ho.
    + exact H3.
    + intros l Hl. rewrite length_app. specialize (H4 l Hl). lia.
  - eauto 6.
  - intros a [= <-] Hf. pose proof (conf_bound _ _ _ Hc _ Hf). lia.
Qed.

Lemma keeps_store l o : ¬ F l → obj_out o → keeps any (store l o).
Proof.
  intros Hl Ho st Hc. unfold store. cbn. split; [|split].
  - destruct Hc as [H1 H2 H3 H4]. split; cbn.
    + intros l' Hl'. rewrite list_lookup_insert_ne by congruence. auto.
    + intros l' o' Hl' Hnl'.
      destruct (decide (l = l')) as [<-|Hne].
      * apply list_lookup_insert_Some in Hl' as [(_ & <- & _)|[? _]]; [exact Ho|done].
      * rewrite list_lookup_insert_ne in Hl' by done. eauto.
    + exact H3.
    + intros l' Hl'. rewrite length_insert. auto.
  - eauto 6.
  - intros; exact I.
Qed.

Lemma keeps_get_node i : keeps (fun n => out (n_data n)) (get_node i).
Proof.
  intros st Hc. unfold get_node.
  destruct (nodes st !! i) as [n|] eqn:E; cbn.
  - split; [exact Hc|]. split; [eauto 6|]. intros a [= <-].
    eapply conf_nodes; eauto.
  - split; [exact Hc|]. split; [eauto 6|]. discriminate.
Qed.

Lemma keeps_new_node mk :
  (∀ i, out (n_data (mk i))) → keeps any (new_node mk).
Proof.
  intros Hmk st Hc. unfold new_node. cbn. split; [|split].
  - destruct Hc as [H1 H2 H3 H4]. split; cbn; auto.
    intros i n Hi. apply lookup_app_Some in Hi as [Hi|[_ Hi]]; [eauto|].
    apply list_lookup_singleton_Some in Hi as [_ <-]. apply Hmk.
  - intros i n Hi. exists n. rewrite lookup_app_l_Some with (x := n); auto.
  - intros; exact I.
Qed.


Lemma dict_get_out k items v :
  obj_out (ODict items) → dict_get k items = Some v → out v.
Proof.
  cbn. induction items as [|[k' v'] r IH]; cbn; [discriminate|].
  intros Hf. apply Forall_cons in Hf as [Hv Hr].
  destruct (key_eqb k k'); [intros [= <-]; exact Hv | auto].
Qed.

Lemma dict_set_out k v items :
  obj_out (ODict items) → out v → obj_out (ODict (dict_set k v items)).
Proof.
  cbn. intros Hf Hv. induction items as [|[k' v'] r IH]; cbn.
  - repeat constructor. exact Hv.
  - apply Forall_cons in Hf as [Hv' Hr].
    destruct (key_eqb k k'); constructor; auto.
Qed.

Lemma keeps_py_getitem node k : out node → keeps out (py_getitem node k).
Proof.
  intros Hn. destruct node as [| | |s|l]; cbn [py_getitem];
    try apply keeps_raise.
  - destruct k; [apply keeps_raise|].
    destruct (norm_index n (String.length s)); [|apply keeps_raise].
    destruct (get n0 s); [apply keeps_ret; exact I|apply keeps_raise].
  - eapply keeps_bind; [apply keeps_load; exact Hn|].
    intros [items|elems] Ho.
    + destruct (dict_get k items) eqn:E; [|apply keeps_raise].
      apply keeps_ret. eapply dict_get_out; eauto.
    + destruct k; [apply keeps_raise|].
      destruct (norm_index n (length elems)); [|apply keeps_raise].
      destruct (elems !! n0) eqn:E; [|apply keeps_raise].
      apply keeps_ret. cbn in Ho. rewrite Forall_lookup in Ho. eauto.
Qed.

Lemma keeps_py_setitem node k v :
  out node → out v → keeps any (py_setitem node k v).
Proof.
  intros Hn Hv. destruct node as [| | |s|l]; cbn [py_setitem];
    try apply keeps_raise.
  eapply keeps_bind; [apply keeps_load; exact Hn|].
  intros [items|elems] Ho.
  - apply keeps_store; [exact Hn|]. apply dict_set_out; assumption.
  - destruct k; [apply keeps_raise|].
    destruct (norm_index n (length elems)); [|apply keeps_raise].
    apply keeps_store; [exact Hn|]. cbn in *.
    apply Forall_insert; assumption.
Qed.

Lemma keeps_py_append node x :
  out node → out x → keeps any (py_append node x).
Proof.
  intros Hn Hx. destruct node as [| | |s|l]; cbn [py_append];
    try apply keeps_raise.
  eapply keeps_bind; [apply keeps_load; exact Hn|].
  intros [items|elems] Ho; [apply keeps_raise|].
  apply keeps_store; [exact Hn|]. cbn in *.
  apply Forall_app; split; [exact Ho|]. repeat constructor. exact Hx.
Qed.

Lemma keeps_dict_iter body d size :
  ¬ F d → (∀ k v, out v → keeps any (body k v)) →
  ∀ remaining, keeps any (dict_iter body d size remaining).
Proof.
  intros Hd Hb. induction remaining as [|r IH]; cbn [dict_iter].
  - eapply keeps_bind; [apply keeps_load; exact Hd|].
    intros [items|elems] Ho; [|apply keeps_raise].
    destruct (negb _); [apply keeps_raise|apply keeps_ret; exact I].
  - eapply keeps_bind; [apply keeps_load; exact Hd|].
    intros [items|elems] Ho; [|apply keeps_raise].
    destruct (negb _); [apply keeps_raise|].
    destruct (items !! _) as [[k v]|] eqn:E; [|apply keeps_ret; exact I].
    eapply keeps_bind; [|intros; apply IH].
    apply Hb. cbn in Ho. rewrite Forall_lookup in Ho.
    apply (Ho _ _ E).
Qed.

Lemma keeps_for_items source body :
  out source → (∀ k v, out v → keeps any (body k v)) →
  keeps any (for_items source body).
Proof.
  intros Hs Hb. destruct source as [| | |s|l]; cbn [for_items];
    try apply keeps_raise.
  eapply keeps_bind; [apply keeps_load; exact Hs|].
  intros [items|elems] Ho; [|apply keeps_raise].
  apply keeps_dict_iter; assumption.
Qed.

Lemma keeps_update_dict depth :
  ∀ target source, out target → out source →
  keeps any (update_dict depth target source).
Proof.
  induction depth as [|d IH]; intros target source Ht Hs;
    cbn [update_dict]; apply keeps_for_items; try exact Hs;
    intros k v Hv.
  - eapply (keeps_bind any); [apply keeps_pure, pure_is_dict|]. intros c1 _.
    eapply (keeps_bind any).
    { destruct c1; [apply keeps_pure, pure_py_contains|apply keeps_ret; exact I]. }
    intros c2 _. eapply (keeps_bind any).
    { destruct c2; [|apply keeps_ret; exact I].
      eapply keeps_bind; [apply keeps_py_getitem; exact Hs|].
      intros sk _. apply keeps_pure, pure_is_dict. }
    intros c3 _. destruct c3.
    + eapply keeps_bind; [apply keeps_py_getitem; exact Ht|].
      intros; apply keeps_raise.
    + apply keeps_py_setitem; assumption.
  - eapply (keeps_bind any); [apply keeps_pure, pure_is_dict|]. intros c1 _.
    eapply (keeps_bind any).
    { destruct c1; [apply keeps_pure, pure_py_contains|apply keeps_ret; exact I]. }
    intros c2 _. eapply (keeps_bind any).
    { destruct c2; [|apply keeps_ret; exact I].
      eapply keeps_bind; [apply keeps_py_getitem; exact Hs|].
      intros sk _. apply keeps_pure, pure_is_dict. }
    intros c3 _. destruct c3.
    + eapply keeps_bind; [apply keeps_py_getitem; exact Ht|].
      intros tk Htk. apply IH; assumption.
    + apply keeps_py_setitem; assumption.
Qed.

Lemma keeps_vivify node k : out node → keeps any (vivify node k).
Proof.
  intros Hn. unfold vivify.
  eapply (keeps_bind any); [apply keeps_pure, pure_is_dict|]. intros d _.
  eapply (keeps_bind any).
  { destruct d; [|apply keeps_ret; exact I].
    eapply (keeps_bind any); [apply keeps_pure, pure_py_contains|].
    intros; apply keeps_ret; exact I. }
  intros absent _. destruct absent.
  - eapply keeps_bind; [apply keeps_alloc; constructor|].
    intros e He. apply keeps_py_setitem; assumption.
  - eapply (keeps_bind any); [apply keeps_pure, pure_is_list|]. intros l _.
    destruct k as [|n]; [apply keeps_ret; exact I|].
    destruct l; [|apply keeps_ret; exact I].
    eapply (keeps_bind any); [apply keeps_pure, pure_py_len|]. intros len _.
    destruct (_ <? _)%Z; [|apply keeps_ret; exact I].
    eapply keeps_bind.
    { apply keeps_alloc. cbn. apply Forall_replicate. exact I. }
    intros e He. apply keeps_py_append; assumption.
Qed.

Lemma keeps_traverse create key_path :
  ∀ node last prev, out node → out last →
  keeps (fun cl => out (fst cl)) (traverse create key_path node last prev).
Proof.
  induction key_path as [|k0 rest IH]; intros node last prev Hn Hl;
    cbn [traverse].
  - apply keeps_ret. exact Hl.
  - eapply (keeps_bind any).
    { destruct create; [apply keeps_vivify; exact Hn|apply keeps_ret; exact I]. }
    intros _ _. eapply keeps_bind.
    { apply keeps_try_except; [apply keeps_py_getitem; exact Hn|].
      intros e. destruct (is_int _); apply keeps_raise. }
    intros node' Hn'. apply IH; assumption.
Qed.

Lemma keeps_resolve_path self create :
  keeps (fun cl => out (fst cl)) (_resolve_path self create).
Proof.
  unfold _resolve_path.
  eapply keeps_bind; [apply keeps_get_node|]. intros n _.
  destruct (n_path n) as [p|]; [|apply keeps_raise].
  eapply keeps_bind; [apply keeps_get_node|]. intros r Hr.
  eapply keeps_bind; [apply keeps_traverse; exact Hr|].
  intros [c [k|]] Hc; [apply keeps_ret; exact Hc|apply keeps_raise].
Qed.

Lemma keeps_get_value self : keeps out (_get_value self).
Proof.
  unfold _get_value.
  eapply keeps_bind; [apply keeps_get_node|]. intros n Hn.
  destruct (truthy (n_path n)); [|apply keeps_ret; exact Hn].
  apply keeps_try_except; [|intros; apply keeps_ret; exact I].
  eapply keeps_bind; [apply keeps_resolve_path|].
  intros cl Hcl. apply keeps_py_getitem. exact Hcl.
Qed.


Local Abbreviation memo_out := (memo_out F).

Lemma memo_get_out l memo y : memo_out memo → memo_get l memo = Some y → ¬ F y.
Proof.
  induction memo as [|[a b] r IH]; cbn; [discriminate|].
  intros Hm. apply Forall_cons in Hm as [Hb Hr].
  destruct (a =? l)%nat; [intros [= <-]; exact Hb | auto].
Qed.

Local Abbreviation copy_post := (copy_post F).

Lemma keeps_copy_elems rec y :
  (∀ v memo, memo_out memo → keeps copy_post (rec v memo)) → ¬ F y →
  ∀ elems memo, memo_out memo → keeps memo_out (copy_elems rec y elems memo).
Proof.
  intros Hrec Hy. induction elems as [|a r IH]; intros memo Hm;
    cbn [copy_elems].
  - apply keeps_ret. exact Hm.
  - eapply keeps_bind; [apply Hrec; exact Hm|]. intros [a' memo'] [Ha Hm'].
    eapply (keeps_bind any); [apply keeps_py_append; assumption|].
    intros _ _. apply IH. exact Hm'.
Qed.

Lemma keeps_copy_items rec y :
  (∀ v memo, memo_out memo → keeps copy_post (rec v memo)) → ¬ F y →
  ∀ items memo, memo_out memo → keeps memo_out (copy_items rec y items memo).
Proof.
  intros Hrec Hy. induction items as [|[k v] r IH]; intros memo Hm;
    cbn [copy_items].
  - apply keeps_ret. exact Hm.
  - eapply keeps_bind; [apply Hrec; exact Hm|]. intros [v' memo'] [Hv Hm'].
    eapply (keeps_bind any); [apply keeps_py_setitem; assumption|].
    intros _ _. apply IH. exact Hm'.
Qed.

(** A deep copy reads the region and writes only its own fresh cells:
    whatever is copied, the copy is outside. *)
Lemma keeps_deepcopy_memo depth :
  ∀ x memo, memo_out memo → keeps copy_post (deepcopy_memo depth x memo).
Proof.
  assert (Hstep : ∀ rec,
    (∀ v memo, memo_out memo → keeps copy_post (rec v memo)) →
    ∀ l memo, memo_out memo →
    keeps copy_post
      (bind (load l) (fun o =>
       match o with
       | OList elems =>
           bind (alloc (OList [])) (fun y =>
           bind (copy_elems rec y elems ((l, y) :: memo)) (fun memo' =>
           ret (VRef y, memo')))
       | ODict items =>
           bind (alloc (ODict [])) (fun y =>
           bind (copy_items rec y items ((l, y) :: memo)) (fun memo' =>
           ret (VRef y, memo')))
       end))).
  { intros rec Hrec l memo Hm.
    eapply (keeps_bind any); [apply keeps_pure, pure_load|].
    intros [items|elems] _.
    - eapply keeps_bind; [apply keeps_alloc; constructor|]. intros y Hy.
      eapply keeps_bind.
      { apply keeps_copy_items; [exact Hrec|exact Hy|].
        constructor; assumption. }
      intros memo' Hm'. apply keeps_ret. split; assumption.
    - eapply keeps_bind; [apply keeps_alloc; constructor|]. intros y Hy.
      eapply keeps_bind.
      { apply keeps_copy_elems; [exact Hrec|exact Hy|].
        constructor; assumption. }
      intros memo' Hm'. apply keeps_ret. split; assumption. }
  induction depth as [|d IH]; intros x memo Hm; rewrite deepcopy_memo_eq;
    (destruct x as [| | | |l]; try (apply keeps_ret; split; [exact I|exact Hm]));
    (destruct (memo_get l memo) as [y|] eqn:E;
       [apply keeps_ret; split; [eapply memo_get_out; eauto|exact Hm]|]);
    apply Hstep; auto.
  intros; apply keeps_raise.
Qed.

Lemma keeps_deepcopy depth x : keeps out (deepcopy depth x).
Proof.
  unfold deepcopy. eapply keeps_bind.
  - apply keeps_deepcopy_memo. constructor.
  - intros p [Hp _]. apply keeps_ret. exact Hp.
Qed.

Lemma keeps_default_dict a : opt_out F a → keeps out (default_dict a).
Proof.
  intros Ha. destruct a as [v|]; cbn [default_dict].
  - apply keeps_ret. exact Ha.
  - eapply keeps_bind; [apply keeps_alloc; constructor|].
    intros l Hl. apply keeps_ret. exact Hl.
Qed.

Section Methods.

Variable limit : nat.
Variable setitem : nat → key → val → M unit.
Hypothesis keeps_setitem : ∀ self k v, out v → keeps any (setitem self k v).

Lemma keeps_update_with self data options :
  data_out F data → opt_out F options →
  keeps any (update_with limit setitem self data options).
Proof.
  intros Hd Ho. unfold update_with.
  eapply (keeps_bind (fun d => data_out F (Some d))).
  { destruct data as [d|]; [apply keeps_ret; exact Hd|].
    eapply keeps_bind; [apply keeps_alloc; constructor|].
    intros l Hl. apply keeps_ret. exact Hl. }
  intros d Hd'.
  eapply keeps_bind; [apply keeps_default_dict; exact Ho|].
  intros opts Hopts.
  eapply (keeps_bind any).
  { destruct opts as [| | |s|l]; try apply keeps_raise.
    eapply keeps_bind; [apply keeps_load; exact Hopts|].
    intros [items|elems] Hi; [|apply keeps_raise].
    apply keeps_dict_iter; [exact Hopts|].
    intros k _ _. eapply keeps_bind; [apply keeps_py_getitem; exact Hopts|].
    intros v Hv. apply keeps_setitem. exact Hv. }
  intros _ _.
  eapply (keeps_bind out).
  { destruct d as [v|n]; [apply keeps_ret; exact Hd'|apply keeps_get_value]. }
  intros dv Hdv. eapply keeps_bind; [apply keeps_get_value|].
  intros target Ht. apply keeps_update_dict; assumption.
Qed.

Lemma keeps_init_with data defaults root path :
  data_out F data →
  keeps any (init_with limit setitem data defaults root path).
Proof.
  intros Hd. unfold init_with.
  eapply (keeps_bind any).
  { destruct defaults as [v|]; cbn [default_dict]; [apply keeps_ret; exact I|].
    eapply keeps_bind; [apply keeps_alloc; constructor|].
    intros; apply keeps_ret; exact I. }
  intros dflt _.
  eapply keeps_bind; [apply keeps_deepcopy|]. intros d Hdo.
  eapply (keeps_bind any); [apply keeps_new_node; intros; exact Hdo|].
  intros self _.
  eapply (keeps_bind any); [apply keeps_update_with; [exact Hd|exact I]|].
  intros; apply keeps_ret; exact I.
Qed.

Lemma keeps_child_with self path :
  keeps any (child_with limit setitem self path).
Proof.
  unfold child_with. eapply keeps_bind; [apply keeps_get_node|].
  intros n _. apply keeps_init_with. exact I.
Qed.

End Methods.

Lemma keeps_setitem_at limit depth :
  ∀ self k v, out v → keeps any (setitem_at limit depth self k v).
Proof.
  induction depth as [|d IH]; intros self k v Hv; rewrite setitem_at_eq.
  - eapply (keeps_bind any).
    { apply keeps_child_with. intros; apply keeps_raise. }
    intros c _. eapply keeps_bind; [apply keeps_resolve_path|].
    intros cl Hcl. apply keeps_py_setitem; assumption.
  - eapply (keeps_bind any).
    { apply keeps_child_with. exact IH. }
    intros c _. eapply keeps_bind; [apply keeps_resolve_path|].
    intros cl Hcl. apply keeps_py_setitem; assumption.
Qed.

Lemma keeps_setitem limit self k v :
  out v → keeps any (__setitem__ limit self k v).
Proof. apply keeps_setitem_at. Qed.

Lemma keeps_update limit self data options :
  data_out F data → opt_out F options →
  keeps any (update limit self data options).
Proof. apply keeps_update_with. intros; apply keeps_setitem; assumption. Qed.

Lemma keeps_init limit data defaults root path :
  data_out F data → keeps any (__init__ limit data defaults root path).
Proof. apply keeps_init_with. intros; apply keeps_setitem; assumption. Qed.

End Confinement.


(** ** Deep copy: the copy reads as the original

    [deepcopy_memo] returns whenever the value reads as a structure within
    the depth bound, leaves the cells it found as they were, and its copy
    reads as the same structure. *)

Lemma mapM_pointwise {A B} (f g : A → option B) (xs : list A) ys :
  (∀ x y, x ∈ xs → f x = Some y → g x = Some y) →
  mapM f xs = Some ys → mapM g xs = Some ys.
Proof.
  revert ys. induction xs as [|x r IH]; intros ys Hfg; cbn; [done|].
  destruct (f x) as [y|] eqn:Ex; cbn; [|discriminate].
  destruct (mapM f r) as [ys'|] eqn:Er; cbn; [|discriminate].
  intros [= <-].
  rewrite (Hfg x y) by (auto; left). cbn.
  rewrite (IH ys') by (auto; intros; apply Hfg; auto; right; auto).
  reflexivity.
Qed.

Lemma reify_on_true fuel : ∀ h v, reify_on (fun _ => true) fuel h v = reify fuel h v.
Proof.
  induction fuel as [|f IH]; intros h v; destruct v as [| | | |l]; cbn; auto.
  destruct (h !! l) as [[items|elems]|]; auto.
  - f_equal. apply mapM_ext. intros [k v]. cbn. rewrite IH. reflexivity.
  - f_equal. apply mapM_ext. intros v. apply IH.
Qed.

Lemma mapM_items_Some (g : val → option tree) items its :
  mapM (fun kv : key * val => pair (fst kv) <$> g (snd kv)) items = Some its
  ↔ Forall2 (item_rel (fun v t => g v = Some t)) items its.
Proof.
  rewrite mapM_Some. split; intros H; induction H as [|[k v] [k' t] r r' Hx Hr IH];
    constructor; auto.
  - cbn in Hx. destruct (g v) eqn:E; [|discriminate].
    cbn in Hx. injection Hx as <- <-. split; auto.
  - destruct Hx as [Hk Hv]. cbn in *. subst k'. rewrite Hv. reflexivity.
Qed.

Lemma reify_on_ref_inv ok f h l t :
  reify_on ok f h (VRef l) = Some t →
  ok l = true ∧ ∃ f0, f = S f0 ∧
  ((∃ items its, h !! l = Some (ODict items) ∧ t = TDict its
      ∧ Forall2 (item_rel (fun v t => reify_on ok f0 h v = Some t)) items its)
   ∨ (∃ elems ts, h !! l = Some (OList elems) ∧ t = TList ts
      ∧ Forall2 (fun v t => reify_on ok f0 h v = Some t) elems ts)).
Proof.
  destruct f as [|f0]; cbn; (destruct (ok l) eqn:Hok; [|intros; discriminate]);
    [intros; discriminate|].
  intros H. split; [reflexivity|]. exists f0. split; [reflexivity|].
  destruct (h !! l) as [[items|elems]|]; [| |discriminate].
  - left. destruct (mapM _ items) as [its|] eqn:E; [|discriminate].
    cbn in H. injection H as <-. exists items, its. rewrite mapM_items_Some in E. auto.
  - right. destruct (mapM _ elems) as [ts|] eqn:E; [|discriminate].
    cbn in H. injection H as <-. exists elems, ts. rewrite mapM_Some in E. auto.
Qed.

Lemma reify_on_dict ok f0 h l items its :
  ok l = true → h !! l = Some (ODict items) →
  Forall2 (item_rel (fun v t => reify_on ok f0 h v = Some t)) items its →
  reify_on ok (S f0) h (VRef l) = Some (TDict its).
Proof.
  intros Hok Hl Hf. cbn. rewrite Hok, Hl.
  apply mapM_items_Some in Hf. rewrite Hf. reflexivity.
Qed.

Lemma reify_on_list ok f0 h l elems ts :
  ok l = true → h !! l = Some (OList elems) →
  Forall2 (fun v t => reify_on ok f0 h v = Some t) elems ts →
  reify_on ok (S f0) h (VRef l) = Some (TList ts).
Proof.
  intros Hok Hl Hf. cbn. rewrite Hok, Hl.
  apply mapM_Some in Hf. rewrite Hf. reflexivity.
Qed.

Lemma reify_on_scalar ok ok' f f' h h' v t :
  (∀ l, v ≠ VRef l) →
  reify_on ok f h v = Some t → reify_on ok' f' h' v = Some t.
Proof.
  intros Hv. destruct v as [| | | |l]; [| | | |destruct (Hv l eq_refl)];
    destruct f, f'; cbn; auto.
Qed.

(** A structure read through [ok] cells reads the same with more fuel,
    through more cells, from any store that holds those cells. *)
Lemma reify_on_mono ok ok' h h' f :
  (∀ l o, ok l = true → h !! l = Some o → ok' l = true ∧ h' !! l = Some o) →
  ∀ f' v t, (f ≤ f')%nat →
  reify_on ok f h v = Some t → reify_on ok' f' h' v = Some t.
Proof.
  intros Hext. induction f as [|f0 IH]; intros f' v t Hle H.
  - destruct v as [| | | |l];
      try (eapply reify_on_scalar; [|exact H]; discriminate).
    apply reify_on_ref_inv in H as (_ & f1 & [=] & _).
  - destruct v as [| | | |l];
      try (eapply reify_on_scalar; [|exact H]; discriminate).
    apply reify_on_ref_inv in H as (Hok & f1 & [= <-] & H).
    destruct f' as [|f0']; [lia|]. assert (f0 ≤ f0')%nat by lia.
    destruct H as [(items & its & Hl & -> & Hf)|(elems & ts & Hl & -> & Hf)];
      destruct (Hext _ _ Hok Hl) as [Hok' Hl'].
    + apply reify_on_dict with items; auto.
      eapply Forall2_impl; [exact Hf|]. intros kv kt [Hk Hv]. split; auto.
    + apply reify_on_list with elems; auto.
      eapply Forall2_impl; [exact Hf|]. intros v t Hv. auto.
Qed.

Lemma list_max_map_le {A} (g : A → nat) (xs : list A) n :
  Forall (fun x => g x ≤ n)%nat xs → (list_max (map g xs) ≤ n)%nat.
Proof. unfold list_max. induction 1; cbn; lia. Qed.

Lemma list_max_map_ge {A} (g : A → nat) (xs : list A) x :
  x ∈ xs → (g x ≤ list_max (map g xs))%nat.
Proof. unfold list_max. induction 1; cbn; lia. Qed.

Lemma reify_on_depth ok h f : ∀ v t,
  reify_on ok f h v = Some t → (depth t ≤ f)%nat.
Proof.
  induction f as [|f0 IH]; intros v t H.
  - destruct v as [| | | |l]; try (cbn in H; injection H as <-; cbn; lia).
    apply reify_on_ref_inv in H as (_ & f1 & [=] & _).
  - destruct v as [| | | |l]; try (cbn in H; injection H as <-; cbn; lia).
    apply reify_on_ref_inv in H as (Hok & f1 & [= <-] & H).
    destruct H as [(items & its & Hl & -> & Hf)|(elems & ts & Hl & -> & Hf)];
      cbn [depth]; apply le_n_S, list_max_map_le.
    + clear Hl. induction Hf as [|kv kt r r' [_ Hv] _ IHf]; constructor; eauto.
    + clear Hl. induction Hf as [|v t r r' Hv _ IHf]; constructor; eauto.
Qed.

(** Fuel down to the depth of the structure is enough. *)
Lemma reify_on_lower ok h f : ∀ f' v t,
  reify_on ok f h v = Some t → (depth t ≤ f')%nat →
  reify_on ok f' h v = Some t.
Proof.
  induction f as [|f0 IH]; intros f' v t H Hd.
  - destruct v as [| | | |l];
      try (eapply reify_on_scalar; [|exact H]; discriminate).
    apply reify_on_ref_inv in H as (_ & f1 & [=] & _).
  - destruct v as [| | | |l];
      try (eapply reify_on_scalar; [|exact H]; discriminate).
    apply reify_on_ref_inv in H as (Hok & f1 & [= <-] & H).
    destruct H as [(items & its & Hl & -> & Hf)|(elems & ts & Hl & -> & Hf)];
      cbn [depth] in Hd; (destruct f' as [|f0']; [lia|]);
      apply le_S_n in Hd.
    + apply reify_on_dict with items; auto.
      assert (Hall : Forall (fun kt => depth (snd kt) ≤ f0')%nat its).
      { apply Forall_forall. intros kt Hkt.
        pose proof (list_max_map_ge (fun kt => depth (snd kt)) its kt Hkt).
        cbn in *. lia. }
      clear Hl Hd. induction Hf as [|kv kt r r' [Hk Hv] _ IHf]; constructor.
      * apply Forall_cons in Hall as [Hd _]. split; auto.
      * apply Forall_cons in Hall as [_ Hr]. auto.
    + apply reify_on_list with elems; auto.
      assert (Hall : Forall (fun t => depth t ≤ f0')%nat ts).
      { apply Forall_forall. intros t Ht.
        pose proof (list_max_map_ge depth ts t Ht). lia. }
      clear Hl Hd. induction Hf as [|v t r r' Hv _ IHf]; constructor.
      * apply Forall_cons in Hall as [Hd _]. auto.
      * apply Forall_cons in Hall as [_ Hr]. auto.
Qed.

Lemma reify_on_det ok ok' h f : ∀ f' v t t',
  reify_on ok f h v = Some t → reify_on ok' f' h v = Some t' → t = t'.
Proof.
  induction f as [|f0 IH]; intros f' v t t' H H'.
  - destruct v as [| | | |l];
      try (destruct f'; cbn in H, H'; congruence).
    apply reify_on_ref_inv in H as (_ & f1 & [=] & _).
  - destruct v as [| | | |l];
      try (destruct f'; cbn in H, H'; congruence).
    apply reify_on_ref_inv in H as (Hok & f1 & [= <-] & H).
    apply reify_on_ref_inv in H' as (Hok' & f1' & -> & H').
    destruct H as [(items & its & Hl & -> & Hf)|(elems & ts & Hl & -> & Hf)];
      destruct H' as [(items' & its' & Hl' & -> & Hf')|(elems' & ts' & Hl' & -> & Hf')];
      rewrite Hl in Hl'; try discriminate; injection Hl' as <-; f_equal.
    + clear Hl. revert its' Hf'.
      induction Hf as [|[k v] [k1 t1] r r1 [Hk Hv] _ IHf]; intros its' Hf';
        inversion Hf' as [|? [k2 t2] ? r2 [Hk2 Hv2] Hr2]; subst; [reflexivity|].
      cbn in *. subst. f_equal; [f_equal; eauto|auto].
    + clear Hl. revert ts' Hf'.
      induction Hf as [|v t1 r r1 Hv _ IHf]; intros ts' Hf';
        inversion Hf' as [|? t2 ? r2 Hv2 Hr2]; subst; [reflexivity|].
      f_equal; eauto.
Qed.

Lemma notin_spec cells l : notin cells l = true ↔ l ∉ cells.
Proof.
  unfold notin. induction cells as [|p r IH]; cbn.
  - split; [intros _; apply not_elem_of_nil|auto].
  - rewrite andb_true_iff, IH, negb_true_iff, Nat.eqb_neq, not_elem_of_cons.
    split; intros [H1 H2]; split; auto.
Qed.

Lemma key_eqb_eq k k' : key_eqb k k' = true ↔ k = k'.
Proof.
  destruct k, k'; cbn; try (split; [discriminate|congruence]).
  - rewrite String.eqb_eq. split; congruence.
  - rewrite Z.eqb_eq. split; congruence.
Qed.

Lemma existsb_key_eqb k ks : existsb (key_eqb k) ks = true ↔ k ∈ ks.
Proof.
  induction ks as [|k' r IH]; cbn.
  - split; [discriminate|]. intros H. inversion H.
  - rewrite orb_true_iff, IH, key_eqb_eq, elem_of_cons. reflexivity.
Qed.

Lemma distinct_NoDup ks : distinct ks = true ↔ NoDup ks.
Proof.
  induction ks as [|k r IH]; cbn.
  - split; [constructor|reflexivity].
  - rewrite andb_true_iff, negb_true_iff, IH, NoDup_cons.
    rewrite <- not_true_iff_false, existsb_key_eqb. reflexivity.
Qed.

Lemma dict_set_fresh k v items :
  k ∉ map fst items → dict_set k v items = items ++ [(k, v)].
Proof.
  induction items as [|[k' v'] r IH]; cbn; [reflexivity|].
  rewrite not_elem_of_cons. intros [Hne Hr].
  destruct (key_eqb k k') eqn:E; [apply key_eqb_eq in E; contradiction|].
  rewrite IH by exact Hr. reflexivity.
Qed.

Lemma extends_decompose {A} (hs hs' : list A) :
  (length hs ≤ length hs')%nat →
  (∀ l, (l < length hs)%nat → hs' !! l = hs !! l) →
  ∃ added, hs' = hs ++ added.
Proof.
  intros Hlen Hsame. exists (drop (length hs) hs').
  rewrite <- (take_drop (length hs) hs') at 1. f_equal.
  apply list_eq. intros i. destruct (decide (i < length hs)%nat) as [Hi|Hi].
  - rewrite lookup_take_lt by exact Hi. auto.
  - rewrite lookup_take_ge by lia. symmetry. apply lookup_ge_None. lia.
Qed.

Section DeepCopy.

Variable h0 : list obj.

Local Abbreviation memo_pending := (memo_pending h0).
Local Abbreviation memo_done := (memo_done h0).

(** Finished copies stay readable while pending copies are filled and
    new cells are added. *)
Lemma memo_done_stable memo pend pend' h h' :
  memo_done memo pend h →
  (∀ l, l ∈ pend → l ∈ pend') →
  (∀ l y, memo_get l memo = Some y → y ∉ pend' → y ∉ pend) →
  (∀ l o, l ∉ pend → h !! l = Some o → (l ∉ pend') ∧ h' !! l = Some o) →
  memo_done memo pend' h'.
Proof.
  intros Hd Hsub Hmem Hext l y Hl Hy f t Hr.
  eapply reify_on_mono; [| |apply (Hd l y Hl (Hmem l y Hl Hy) f t Hr)]; [|lia].
  intros l' o Hok Ho. apply notin_spec in Hok.
  destruct (Hext l' o Hok Ho) as [H1 H2]. split; [|exact H2].
  apply notin_spec. exact H1.
Qed.

Lemma memo_pending_grows memo memo' pend b n :
  memo_pending memo pend b → memo_grows memo memo' n →
  (∀ p, p ∈ pend → (p < n)%nat) →
  memo_pending memo' pend b.
Proof.
  intros Hp Hg Hb l y Hl Hy. destruct (Hg l y Hl) as [Hold|Hnew].
  - apply (Hp l y Hold Hy).
  - specialize (Hb y Hy). lia.
Qed.

Lemma memo_grows_trans m1 m2 m3 n n' :
  memo_grows m1 m2 n → memo_grows m2 m3 n' → (n ≤ n')%nat →
  memo_grows m1 m3 n.
Proof.
  intros H12 H23 Hn l y Hl. destruct (H23 l y Hl) as [H|H]; [auto|right; lia].
Qed.

Section Loops.

Variable f0 : nat.
Hypothesis Hrec : copy_spec h0 f0.
Variable y : nat.
Variable pend : list nat.
Variable b1 : nat.

Lemma copy_elems_correct ns :
  ∀ rem ts_rem, Forall2 (fun v t => reify f0 h0 v = Some t) rem ts_rem →
  ∀ done ts_done memo hs,
  (∃ news, hs = h0 ++ news) → (length h0 ≤ y)%nat →
  hs !! y = Some (OList done) →
  Forall (fun t => tree_ok t = true ∧ (size t ≤ b1)%nat) ts_rem →
  Forall2 (fun v t => reify_on (notin (y :: pend)) f0 hs v = Some t)
    done ts_done →
  memo_pending memo (y :: pend) b1 → memo_done memo (y :: pend) hs →
  memo_below memo (length hs) →
  (∀ p, p ∈ y :: pend → (length h0 ≤ p < length hs)%nat) →
  ∃ memo' done' hs',
    copy_elems (deepcopy_memo f0) y rem memo (State hs ns)
    = (Ok memo', State hs' ns)
    ∧ (∃ news, hs' = h0 ++ news) ∧ (length hs ≤ length hs')%nat
    ∧ (∀ l, (l < length hs)%nat → l ≠ y → hs' !! l = hs !! l)
    ∧ hs' !! y = Some (OList done')
    ∧ Forall2 (fun v t => reify_on (notin (y :: pend)) f0 hs' v = Some t)
        done' (ts_done ++ ts_rem)
    ∧ memo_done memo' (y :: pend) hs'
    ∧ memo_grows memo memo' (length hs)
    ∧ memo_below memo' (length hs').
Proof.
  induction 1 as [|v t r tr Hv Hr IH];
    intros done ts_done memo hs Hpre Hy0 Hy Hall Hdone Hmp Hmd Hmb Hpb.
  - exists memo, done, hs. cbn [copy_elems ret]. rewrite app_nil_r.
    repeat split; auto. intros l y' Hl. left. exact Hl.
  - apply Forall_cons in Hall as [[Hok Hsz] Hall].
    destruct (Hrec v t memo (State hs ns) (y :: pend) b1)
      as (x' & memo_a & added & Hrun & Hx' & Hmd_a & Hg_a & Hb_a); auto.
    cbn [heap nodes] in *.
    cbn [copy_elems]. rewrite bind_run, Hrun. cbn [fst snd].
    assert (Hylt : (y < length hs)%nat) by (apply Hpb; left).
    unfold py_append. rewrite !bind_assoc, run_load. cbn [heap].
    rewrite (lookup_app_l_Some _ _ _ _ Hy), run_store.
    set (hs2 := <[y := OList (done ++ [x'])]> (hs ++ added)).
    assert (Hlen2 : length hs2 = length (hs ++ added)) by apply length_insert.
    assert (Hext : ∀ l o, l ∉ y :: pend → (hs ++ added) !! l = Some o →
                   (l ∉ y :: pend) ∧ hs2 !! l = Some o).
    { intros l o Hl Ho. split; [exact Hl|]. unfold hs2.
      rewrite list_lookup_insert_ne; [exact Ho|].
      intros <-. apply Hl. left. }
    destruct (IH (done ++ [x']) (ts_done ++ [t]) memo_a hs2)
      as (memo' & done' & hs' & Hrun' & Hpre' & Hlen' & Hsame' & Hy' & Hd'
          & Hmd' & Hg' & Hb'); auto.
    + destruct Hpre as [news ->]. unfold hs2. rewrite <- app_assoc.
      rewrite insert_app_r_alt by exact Hy0. eauto.
    + unfold hs2. apply list_lookup_insert_eq. rewrite length_app. lia.
    + apply Forall2_app.
      * eapply Forall2_impl; [exact Hdone|]. intros v' t' Hv'.
        eapply reify_on_mono; [| |exact Hv']; [|lia].
        intros l o Hno Ho. split; [exact Hno|]. apply notin_spec in Hno.
        apply (Hext l o Hno). apply lookup_app_l_Some. exact Ho.
      * constructor; [|constructor].
        eapply reify_on_mono; [| |exact Hx']; [|lia].
        intros l o Hno Ho. split; [exact Hno|]. apply notin_spec in Hno.
        apply (Hext l o Hno Ho).
    + eapply memo_pending_grows; [exact Hmp|exact Hg_a|].
      intros p Hp. apply Hpb. exact Hp.
    + eapply memo_done_stable; [exact Hmd_a|auto|auto|exact Hext].
    + rewrite Hlen2. exact Hb_a.
    + intros p Hp. rewrite Hlen2, length_app. specialize (Hpb p Hp). lia.
    + exists memo', done', hs'. rewrite Hrun'.
      rewrite Hlen2, length_app in Hlen'.
      split; [reflexivity|]. split; [exact Hpre'|]. split; [lia|].
      split; [|split; [exact Hy'|split; [|split; [exact Hmd'|split; [|exact Hb']]]]].
      * intros l Hl Hne. rewrite Hsame' by (rewrite ?Hlen2, ?length_app; auto; lia).
        unfold hs2. rewrite list_lookup_insert_ne by auto.
        apply lookup_app_l. exact Hl.
      * rewrite <- app_assoc in Hd'. exact Hd'.
      * eapply memo_grows_trans; [exact Hg_a|exact Hg'|].
        rewrite Hlen2, length_app. lia.
Qed.

Lemma copy_items_correct ns :
  ∀ rem its_rem,
  Forall2 (item_rel (fun v t => reify f0 h0 v = Some t)) rem its_rem →
  ∀ done its_done memo hs,
  (∃ news, hs = h0 ++ news) → (length h0 ≤ y)%nat →
  hs !! y = Some (ODict done) →
  Forall (fun kt => tree_ok (snd kt) = true ∧ (size (snd kt) ≤ b1)%nat) its_rem →
  Forall2 (item_rel (fun v t => reify_on (notin (y :: pend)) f0 hs v = Some t))
    done its_done →
  NoDup (map fst done ++ map fst rem) →
  memo_pending memo (y :: pend) b1 → memo_done memo (y :: pend) hs →
  memo_below memo (length hs) →
  (∀ p, p ∈ y :: pend → (length h0 ≤ p < length hs)%nat) →
  ∃ memo' done' hs',
    copy_items (deepcopy_memo f0) y rem memo (State hs ns)
    = (Ok memo', State hs' ns)
    ∧ (∃ news, hs' = h0 ++ news) ∧ (length hs ≤ length hs')%nat
    ∧ (∀ l, (l < length hs)%nat → l ≠ y → hs' !! l = hs !! l)
    ∧ hs' !! y = Some (ODict done')
    ∧ Forall2 (item_rel (fun v t => reify_on (notin (y :: pend)) f0 hs' v = Some t))
        done' (its_done ++ its_rem)
    ∧ memo_done memo' (y :: pend) hs'
    ∧ memo_grows memo memo' (length hs)
    ∧ memo_below memo' (length hs').
Proof.
  induction 1 as [|[k v] [k' t] r tr [Hk Hv] Hr IH];
    intros done its_done memo hs Hpre Hy0 Hy Hall Hdone Hnd Hmp Hmd Hmb Hpb.
  - exists memo, done, hs. cbn [copy_items ret]. rewrite app_nil_r.
    repeat split; auto. intros l y' Hl. left. exact Hl.
  - cbn in Hk, Hv. subst k'.
    apply Forall_cons in Hall as [[Htok Hsz] Hall]. cbn in Htok, Hsz.
    destruct (Hrec v t memo (State hs ns) (y :: pend) b1)
      as (x' & memo_a & added & Hrun & Hx' & Hmd_a & Hg_a & Hb_a); auto.
    cbn [heap nodes] in *.
    cbn [copy_items]. rewrite bind_run, Hrun. cbn [fst snd].
    assert (Hylt : (y < length hs)%nat) by (apply Hpb; left).
    unfold py_setitem. rewrite !bind_assoc, run_load. cbn [heap].
    rewrite (lookup_app_l_Some _ _ _ _ Hy), run_store.
    assert (Hfresh : k ∉ map fst done).
    { cbn in Hnd. apply NoDup_app in Hnd as (_ & Hdisj & _).
      intros Hin. apply (Hdisj k Hin). left. }
    rewrite (dict_set_fresh k x' done Hfresh).
    set (hs2 := <[y := ODict (done ++ [(k, x')])]> (hs ++ added)).
    assert (Hlen2 : length hs2 = length (hs ++ added)) by apply length_insert.
    assert (Hext : ∀ l o, l ∉ y :: pend → (hs ++ added) !! l = Some o →
                   (l ∉ y :: pend) ∧ hs2 !! l = Some o).
    { intros l o Hl Ho. split; [exact Hl|]. unfold hs2.
      rewrite list_lookup_insert_ne; [exact Ho|].
      intros <-. apply Hl. left. }
    destruct (IH (done ++ [(k, x')]) (its_done ++ [(k, t)]) memo_a hs2)
      as (memo' & done' & hs' & Hrun' & Hpre' & Hlen' & Hsame' & Hy' & Hd'
          & Hmd' & Hg' & Hb'); auto.
    + destruct Hpre as [news ->]. unfold hs2. rewrite <- app_assoc.
      rewrite insert_app_r_alt by exact Hy0. eauto.
    + unfold hs2. apply list_lookup_insert_eq. rewrite length_app. lia.
    + apply Forall2_app.
      * eapply Forall2_impl; [exact Hdone|]. intros kv kt [Hk' Hv'].
        split; [exact Hk'|].
        eapply reify_on_mono; [| |exact Hv']; [|lia].
        intros l o Hno Ho. split; [exact Hno|]. apply notin_spec in Hno.
        apply (Hext l o Hno). apply lookup_app_l_Some. exact Ho.
      * constructor; [|constructor]. split; [reflexivity|]. cbn.
        eapply reify_on_mono; [| |exact Hx']; [|lia].
        intros l o Hno Ho. split; [exact Hno|]. apply notin_spec in Hno.
        apply (Hext l o Hno Ho).
    + rewrite map_app. cbn [map fst]. rewrite <- app_assoc. exact Hnd.
    + eapply memo_pending_grows; [exact Hmp|exact Hg_a|].
      intros p Hp. apply Hpb. exact Hp.
    + eapply memo_done_stable; [exact Hmd_a|auto|auto|exact Hext].
    + rewrite Hlen2. exact Hb_a.
    + intros p Hp. rewrite Hlen2, length_app. specialize (Hpb p Hp). lia.
    + exists memo', done', hs'. rewrite Hrun'.
      rewrite Hlen2, length_app in Hlen'.
      split; [reflexivity|]. split; [exact Hpre'|]. split; [lia|].
      split; [|split; [exact Hy'|split; [|split; [exact Hmd'|split; [|exact Hb']]]]].
      * intros l Hl Hne. rewrite Hsame' by (rewrite ?Hlen2, ?length_app; auto; lia).
        unfold hs2. rewrite list_lookup_insert_ne by auto.
        apply lookup_app_l. exact Hl.
      * rewrite <- app_assoc in Hd'. exact Hd'.
      * eapply memo_grows_trans; [exact Hg_a|exact Hg'|].
        rewrite Hlen2, length_app. lia.
Qed.

End Loops.


Lemma item_rel_keys R items its :
  Forall2 (item_rel R) items its → map fst its = map fst items.
Proof. induction 1 as [|kv kt r r' [Hk _] _ IH]; cbn; congruence. Qed.

Lemma list_sum_map_ge {A} (g : A → nat) (xs : list A) x :
  x ∈ xs → (g x ≤ list_sum (map g xs))%nat.
Proof. unfold list_sum. induction 1; cbn; lia. Qed.

Lemma tree_ok_dict its :
  tree_ok (TDict its) = true →
  NoDup (map fst its)
  ∧ Forall (fun kt => tree_ok (snd kt) = true
                      ∧ (size (snd kt) ≤ size (TDict its) - 1)%nat) its.
Proof.
  cbn [tree_ok size]. intros [Hd Hall]%andb_true_iff.
  split; [apply distinct_NoDup; exact Hd|].
  apply Forall_forall. intros kt Hkt. split.
  - rewrite forallb_forall in Hall. apply Hall, list_elem_of_In, Hkt.
  - pose proof (list_sum_map_ge (fun kt => size (snd kt)) its kt Hkt). lia.
Qed.

Lemma tree_ok_list ts :
  tree_ok (TList ts) = true →
  Forall (fun t => tree_ok t = true ∧ (size t ≤ size (TList ts) - 1)%nat) ts.
Proof.
  cbn [tree_ok size]. intros Hall.
  apply Forall_forall. intros t Ht. split.
  - rewrite forallb_forall in Hall. apply Hall, list_elem_of_In, Ht.
  - pose proof (list_sum_map_ge size ts t Ht). lia.
Qed.

Lemma reify_ref_inv f h l t :
  reify f h (VRef l) = Some t →
  ∃ f0, f = S f0 ∧
  ((∃ items its, h !! l = Some (ODict items) ∧ t = TDict its
      ∧ Forall2 (item_rel (fun v t => reify f0 h v = Some t)) items its)
   ∨ (∃ elems ts, h !! l = Some (OList elems) ∧ t = TList ts
      ∧ Forall2 (fun v t => reify f0 h v = Some t) elems ts)).
Proof.
  rewrite <- reify_on_true. intros H.
  apply reify_on_ref_inv in H as (_ & f0 & -> & H). exists f0.
  split; [reflexivity|].
  destruct H as [(items & its & Hl & -> & Hf)|(elems & ts & Hl & -> & Hf)];
    [left; exists items, its|right; exists elems, ts];
    (split; [exact Hl|split; [reflexivity|]]);
    (eapply Forall2_impl; [exact Hf|]); cbn.
  - intros kv kt [Hk Hv]. split; [exact Hk|]. rewrite <- reify_on_true. exact Hv.
  - intros v t Hv. rewrite <- reify_on_true. exact Hv.
Qed.

(** Entering a container: its fresh, empty copy joins the memo and the
    pending copies. *)
Lemma memo_enter memo pend b l y t f (hs : list obj) (o : obj) :
  reify f h0 (VRef l) = Some t → (0 < size t ≤ b)%nat →
  y = length hs →
  memo_pending memo pend b → memo_done memo pend hs →
  memo_below memo (length hs) →
  (∀ p, p ∈ pend → (length h0 ≤ p < length hs)%nat) →
  memo_pending ((l, y) :: memo) (y :: pend) (size t - 1)
  ∧ memo_done ((l, y) :: memo) (y :: pend) (hs ++ [o])
  ∧ memo_below ((l, y) :: memo) (length (hs ++ [o])).
Proof.
  intros Ht Hsz -> Hmp Hmd Hmb Hpb. split; [|split].
  - intros l' y' Hl' Hy' f' t' Ht'. cbn [memo_get] in Hl'.
    destruct (l =? l')%nat eqn:E.
    + apply Nat.eqb_eq in E. subst l'. rewrite <- reify_on_true in Ht, Ht'.
      rewrite (reify_on_det _ _ _ _ _ _ _ _ Ht' Ht). lia.
    + apply elem_of_cons in Hy' as [->|Hy'].
      * specialize (Hmb l' _ Hl'). lia.
      * specialize (Hmp l' y' Hl' Hy' f' t' Ht'). lia.
  - intros l' y' Hl' Hy' f' t' Ht'. cbn [memo_get] in Hl'.
    apply not_elem_of_cons in Hy' as [Hne Hy'].
    destruct (l =? l')%nat eqn:E; [injection Hl' as <-; contradiction|].
    eapply reify_on_mono; [| |apply (Hmd l' y' Hl' Hy' f' t' Ht')]; [|lia].
    intros l1 o1 Hok Ho. apply notin_spec in Hok. split.
    + apply notin_spec, not_elem_of_cons. split; [|exact Hok].
      apply lookup_lt_Some in Ho. lia.
    + apply lookup_app_l_Some. exact Ho.
  - intros l' y' Hl'. cbn [memo_get] in Hl'. rewrite length_app. cbn.
    destruct (l =? l')%nat; [injection Hl' as <-; lia|].
    specialize (Hmb l' y' Hl'). lia.
Qed.

(** Leaving it: the copy is finished, and reads as the original. *)
Lemma memo_leave memo memo' pend l y t f0 (hs hs' : list obj) :
  reify (S f0) h0 (VRef l) = Some t →
  reify_on (notin pend) (S f0) hs' (VRef y) = Some t →
  y = length hs → (length hs < length hs')%nat →
  memo_below memo (length hs) →
  (∀ p, p ∈ pend → (p < length hs)%nat) →
  memo_done memo' (y :: pend) hs' →
  memo_grows ((l, y) :: memo) memo' (S (length hs)) →
  memo_done memo' pend hs' ∧ memo_grows memo memo' (length hs).
Proof.
  intros Ht Hcopy -> Hlen Hmb Hpb Hmd Hg. split.
  - intros l' y' Hl' Hy' f' t' Ht'.
    destruct (decide (y' = length hs)) as [->|Hne].
    + assert (l' = l) as ->.
      { destruct (Hg l' _ Hl') as [Hold|Hnew]; [|lia].
        cbn [memo_get] in Hold. destruct (l =? l')%nat eqn:E.
        - apply Nat.eqb_eq in E. congruence.
        - specialize (Hmb l' _ Hold). lia. }
      rewrite <- reify_on_true in Ht, Ht'.
      rewrite (reify_on_det _ _ _ _ _ _ _ _ Ht' Ht).
      eapply reify_on_lower; [exact Hcopy|].
      rewrite (reify_on_det _ _ _ _ _ _ _ _ Ht Ht').
      eapply reify_on_depth. exact Ht'.
    + assert (Hny : y' ∉ length hs :: pend)
        by (apply not_elem_of_cons; split; assumption).
      pose proof (Hmd l' y' Hl' Hny f' t' Ht') as Hr.
      apply (reify_on_mono (notin (length hs :: pend)) (notin pend) hs' hs' f');
        [|lia|exact Hr].
      intros l1 o1 Hok Ho. split; [|exact Ho].
      apply notin_spec. apply notin_spec in Hok.
      apply not_elem_of_cons in Hok as [_ Hok]. exact Hok.
  - intros l' y' Hl'. destruct (Hg l' y' Hl') as [Hold|Hnew]; [|right; lia].
    cbn [memo_get] in Hold. destruct (l =? l')%nat.
    + injection Hold as <-. right. lia.
    + left. exact Hold.
Qed.


(** [copy.deepcopy] is correct on every value that reads as a structure. *)
Lemma deepcopy_memo_correct : ∀ f, copy_spec h0 f.
Proof.
  assert (Hscalar : ∀ f x t memo s pend,
            (∀ l, x ≠ VRef l) → reify f h0 x = Some t →
            memo_done memo pend (heap s) → memo_below memo (length (heap s)) →
            ∃ x' memo' added,
              deepcopy_memo f x memo s
              = (Ok (x', memo'), State (heap s ++ added) (nodes s))
              ∧ reify_on (notin pend) f (heap s ++ added) x' = Some t
              ∧ memo_done memo' pend (heap s ++ added)
              ∧ memo_grows memo memo' (length (heap s))
              ∧ memo_below memo' (length (heap s ++ added))).
  { intros f x t memo s pend Hx Ht Hmd Hmb. exists x, memo, [].
    rewrite app_nil_r. destruct s as [hs ns]. cbn [heap nodes] in *.
    split; [|split; [|split; [exact Hmd|split; [|exact Hmb]]]].
    - rewrite deepcopy_memo_eq.
      destruct x as [| | | |l]; try reflexivity. destruct (Hx l eq_refl).
    - rewrite <- reify_on_true in Ht.
      eapply reify_on_scalar; [exact Hx|exact Ht].
    - intros l y Hl. left. exact Hl. }
  induction f as [|f0 IH];
    intros x t memo s pend b Hpre Ht Hok Hsz Hmp Hmd Hmb Hpb.
  - destruct x as [| | | |l]; [apply Hscalar; auto; discriminate..|].
    apply reify_ref_inv in Ht as (f1 & [=] & _).
  - destruct x as [| | | |l]; [apply Hscalar; auto; discriminate..|].
    destruct s as [hs ns]. cbn [heap nodes] in *.
    destruct (memo_get l memo) as [y|] eqn:Hmemo.
    + (* already copied *)
      destruct (decide (y ∈ pend)) as [Hy|Hy].
      { specialize (Hmp l y Hmemo Hy _ _ Ht). lia. }
      exists (VRef y), memo, []. rewrite app_nil_r.
      split; [|split; [|split; [exact Hmd|split; [|exact Hmb]]]].
      * rewrite deepcopy_memo_eq, Hmemo. reflexivity.
      * apply (Hmd l y Hmemo Hy _ _ Ht).
      * intros l' y' Hl'. left. exact Hl'.
    + pose proof Ht as Ht0.
      apply reify_ref_inv in Ht as (f1 & [= <-] & Ht).
      rewrite deepcopy_memo_eq, Hmemo. cbv zeta.
      destruct Hpre as [news Hpre].
      assert (Hpb' : ∀ p, p ∈ length hs :: pend →
                (length h0 ≤ p < length (hs ++ [ODict []]))%nat).
      { intros p [->|Hp]%elem_of_cons; rewrite length_app; cbn.
        - rewrite Hpre, length_app. lia.
        - specialize (Hpb p Hp). lia. }
      assert (Hpb1 : ∀ p, p ∈ pend → (p < length hs)%nat).
      { intros p Hp. apply Hpb. exact Hp. }
      assert (Hfresh : length hs ∉ pend).
      { intros Hin. specialize (Hpb1 _ Hin). lia. }
      destruct Ht as [(items & its & Hl & -> & Hf)|(elems & ts & Hl & -> & Hf)].
      * (* a mapping *)
        destruct (tree_ok_dict its Hok) as [Hnd Hall].
        destruct (memo_enter memo pend b l (length hs) (TDict its) (S f0) hs
                    (ODict []) Ht0) as (Hmp1 & Hmd1 & Hmb1); auto;
          [cbn [size] in *; lia|].
        assert (Hl' := Hl). apply (lookup_app_l_Some _ news) in Hl'.
        rewrite <- Hpre in Hl'.
        rewrite run_load. cbn [heap]. rewrite Hl', run_alloc.
        destruct (copy_items_correct f0 IH (length hs) pend
                    (size (TDict its) - 1) ns items its Hf [] []
                    ((l, length hs) :: memo) (hs ++ [ODict []]))
          as (memo' & done' & hs' & Hrun & Hpre' & Hlen' & Hsame' & Hy'
              & Hd' & Hmd' & Hg' & Hb'); auto.
        { exists (news ++ [ODict []]). rewrite Hpre, app_assoc. reflexivity. }
        { rewrite Hpre, length_app. lia. }
        { apply list_lookup_middle. reflexivity. }
        { cbn [map app]. rewrite <- (item_rel_keys _ _ _ Hf). exact Hnd. }
        rewrite bind_run, Hrun. cbn [fst snd ret].
        rewrite length_app in Hlen', Hg'. cbn [length] in Hlen', Hg'.
        destruct (extends_decompose hs hs') as [added Hadded]; [lia| |].
        { intros i Hi. rewrite Hsame' by (rewrite ?length_app; cbn; lia).
          apply lookup_app_l. exact Hi. }
        assert (Hcopy : reify_on (notin pend) (S f0) hs' (VRef (length hs))
                        = Some (TDict its)).
        { apply reify_on_dict with done'; auto.
          - apply notin_spec. exact Hfresh.
          - eapply Forall2_impl; [exact Hd'|]. intros kv kt [Hk Hv].
            split; [exact Hk|].
            apply (reify_on_mono (notin (length hs :: pend)) (notin pend)
                     hs' hs' f0); [|lia|exact Hv].
            intros l1 o1 Hno Ho. split; [|exact Ho].
            apply notin_spec. apply notin_spec in Hno.
            apply not_elem_of_cons in Hno as [_ Hno]. exact Hno. }
        destruct (memo_leave memo memo' pend l (length hs) (TDict its) f0 hs hs'
                    Ht0 Hcopy) as [Hmd2 Hg2]; auto; [lia| |].
        { replace (S (length hs)) with (length hs + 1)%nat by lia. exact Hg'. }
        exists (VRef (length hs)), memo', added. rewrite <- Hadded.
        repeat split; auto.
      * (* a sequence *)
        pose proof (tree_ok_list ts Hok) as Hall.
        destruct (memo_enter memo pend b l (length hs) (TList ts) (S f0) hs
                    (OList []) Ht0) as (Hmp1 & Hmd1 & Hmb1); auto;
          [cbn [size] in *; lia|].
        assert (Hl' := Hl). apply (lookup_app_l_Some _ news) in Hl'.
        rewrite <- Hpre in Hl'.
        rewrite run_load. cbn [heap]. rewrite Hl', run_alloc.
        assert (Hpb'' : ∀ p, p ∈ length hs :: pend →
                  (length h0 ≤ p < length (hs ++ [OList []]))%nat).
        { intros p Hp. specialize (Hpb' p Hp). rewrite length_app in *. exact Hpb'. }
        destruct (copy_elems_correct f0 IH (length hs) pend
                    (size (TList ts) - 1) ns elems ts Hf [] []
                    ((l, length hs) :: memo) (hs ++ [OList []]))
          as (memo' & done' & hs' & Hrun & Hpre' & Hlen' & Hsame' & Hy'
              & Hd' & Hmd' & Hg' & Hb'); auto.
        { exists (news ++ [OList []]). rewrite Hpre, app_assoc. reflexivity. }
        { rewrite Hpre, length_app. lia. }
        { apply list_lookup_middle. reflexivity. }
        rewrite bind_run, Hrun. cbn [fst snd ret].
        rewrite length_app in Hlen', Hg'. cbn [length] in Hlen', Hg'.
        destruct (extends_decompose hs hs') as [added Hadded]; [lia| |].
        { intros i Hi. rewrite Hsame' by (rewrite ?length_app; cbn; lia).
          apply lookup_app_l. exact Hi. }
        assert (Hcopy : reify_on (notin pend) (S f0) hs' (VRef (length hs))
                        = Some (TList ts)).
        { apply reify_on_list with done'; auto.
          - apply notin_spec. exact Hfresh.
          - eapply Forall2_impl; [exact Hd'|]. intros v t Hv.
            apply (reify_on_mono (notin (length hs :: pend)) (notin pend)
                     hs' hs' f0); [|lia|exact Hv].
            intros l1 o1 Hno Ho. split; [|exact Ho].
            apply notin_spec. apply notin_spec in Hno.
            apply not_elem_of_cons in Hno as [_ Hno]. exact Hno. }
        destruct (memo_leave memo memo' pend l (length hs) (TList ts) f0 hs hs'
                    Ht0 Hcopy) as [Hmd2 Hg2]; auto; [lia| |].
        { replace (S (length hs)) with (length hs + 1)%nat by lia. exact Hg'. }
        exists (VRef (length hs)), memo', added. rewrite <- Hadded.
        repeat split; auto.
Qed.

End DeepCopy.


(** ** Reset: the defaults under a sequence of operations *)

Lemma reify_children f h l o t :
  h !! l = Some o → reify (S f) h (VRef l) = Some t →
  ∀ v, v ∈ children o → ∃ t', reify f h v = Some t'.
Proof.
  intros Hl Ht v Hv. apply reify_ref_inv in Ht as (f0 & [= <-] & Ht).
  destruct Ht as [(items & its & Hl' & -> & Hf)|(elems & ts & Hl' & -> & Hf)];
    rewrite Hl in Hl'; injection Hl' as ->; cbn in Hv.
  - apply list_elem_of_fmap in Hv as ([k v'] & -> & Hin).
    apply list_elem_of_lookup in Hin as [i Hi].
    destruct (Forall2_lookup_l _ _ _ _ _ Hf Hi) as ([k' t'] & _ & _ & Ht').
    eauto.
  - apply list_elem_of_lookup in Hv as [i Hi].
    destruct (Forall2_lookup_l _ _ _ _ _ Hf Hi) as (t' & _ & Ht'). eauto.
Qed.

(** A value that reads as a structure reaches only cells that exist. *)
Lemma reach_bound h v l :
  reach h v l → ∀ f t, reify f h v = Some t → (l < length h)%nat.
Proof.
  induction 1 as [l|l o v l' Hl Hv _ IH]; intros f t Ht.
  - apply reify_ref_inv in Ht as (f0 & -> & Ht).
    destruct Ht as [(items & its & Hl & _)|(elems & ts & Hl & _)];
      eapply lookup_lt_Some; eauto.
  - pose proof Ht as Ht'. apply reify_ref_inv in Ht' as (f0 & -> & _).
    destruct (reify_children _ _ _ _ _ Hl Ht v Hv) as [t' Ht'].
    eapply IH; eauto.
Qed.

(** A structure reads the same from any store that agrees on its cells. *)
Lemma reify_frozen h h' f : ∀ v t,
  (∀ l, reach h v l → h' !! l = h !! l) →
  reify f h v = Some t → reify f h' v = Some t.
Proof.
  induction f as [|f0 IH]; intros v t Hsame Ht.
  - destruct v; exact Ht.
  - destruct v as [| | | |l]; try exact Ht.
    pose proof Ht as Ht'. apply reify_ref_inv in Ht' as (f1 & [= <-] & Ht').
    rewrite <- reify_on_true.
    destruct Ht' as [(items & its & Hl & -> & Hf)|(elems & ts & Hl & -> & Hf)].
    + apply reify_on_dict with items; auto.
      { rewrite Hsame by constructor. exact Hl. }
      apply Forall2_same_length_lookup_2; [eapply Forall2_length; eauto|].
      intros i [k v] [k' t'] Hi Hi'.
      destruct (Forall2_lookup_l _ _ _ _ _ Hf Hi) as (kt & Hkt & Hk & Hv).
      rewrite Hi' in Hkt. injection Hkt as <-. split; [exact Hk|]. cbn in *.
      rewrite reify_on_true. apply IH; [|exact Hv].
      intros l' Hl'. apply Hsame. eapply reach_step; [exact Hl| |exact Hl'].
      cbn. apply list_elem_of_fmap. exists (k, v). split; [reflexivity|].
      eapply list_elem_of_lookup_2; eauto.
    + apply reify_on_list with elems; auto.
      { rewrite Hsame by constructor. exact Hl. }
      apply Forall2_same_length_lookup_2; [eapply Forall2_length; eauto|].
      intros i v t' Hi Hi'.
      destruct (Forall2_lookup_l _ _ _ _ _ Hf Hi) as (t'' & Ht'' & Hv).
      rewrite Hi' in Ht''. injection Ht'' as <-.
      rewrite reify_on_true. apply IH; [|exact Hv].
      intros l' Hl'. apply Hsame. eapply reach_step; [exact Hl| |exact Hl'].
      cbn. eapply list_elem_of_lookup_2; eauto.
Qed.

(** [copy.deepcopy] of a value that reads as a structure: the copy reads
    as the same structure, and the cells that were there are untouched. *)
Lemma deepcopy_correct f st x t :
  reify f (heap st) x = Some t → tree_ok t = true →
  ∃ x' added,
    deepcopy f x st = (Ok x', State (heap st ++ added) (nodes st))
    ∧ reify f (heap st ++ added) x' = Some t.
Proof.
  intros Ht Hok.
  destruct (deepcopy_memo_correct (heap st) f x t [] st [] (size t))
    as (x' & memo' & added & Hrun & Hx' & _); auto.
  - exists []. rewrite app_nil_r. reflexivity.
  - intros l y [=].
  - intros l y [=].
  - intros l y [=].
  - intros p Hp. inversion Hp.
  - exists x', added. unfold deepcopy. rewrite bind_run, Hrun.
    split; [reflexivity|]. rewrite <- reify_on_true.
    eapply reify_on_mono; [| |exact Hx']; [|lia].
    intros l o _ Ho. auto.
Qed.

Lemma keeps_getitem F h0 limit self k :
  keeps F h0 any (__getitem__ limit self k).
Proof.
  unfold __getitem__, _child.
  eapply (keeps_bind F h0 any); [apply keeps_child_with|].
  { intros; apply keeps_setitem; assumption. }
  intros c _. eapply (keeps_bind F h0 any).
  { eapply keeps_weaken; [apply keeps_get_value|]. intros; exact I. }
  intros v _. eapply (keeps_bind F h0 any).
  { apply keeps_pure, pure_is_container_or_none. }
  intros [] _; apply keeps_ret; exact I.
Qed.

Lemma keeps_run_op F h0 limit o :
  op_out F o → keeps F h0 any (run_op limit o).
Proof.
  destruct o as [self k v|self data options|self k]; cbn [op_out run_op].
  - apply keeps_setitem.
  - intros [Hd Ho]. apply keeps_update; assumption.
  - intros _. eapply (keeps_bind F h0 any); [apply keeps_getitem|].
    intros; apply keeps_ret; exact I.
Qed.

Lemma keeps_run_ops F h0 limit ops :
  Forall (op_out F) ops → keeps F h0 any (run_ops limit ops).
Proof.
  induction 1 as [|o r Ho _ IH]; cbn [run_ops].
  - apply keeps_ret. exact I.
  - eapply (keeps_bind F h0 any); [|intros; exact IH].
    apply keeps_try_except; [apply keeps_run_op; exact Ho|].
    intros; apply keeps_ret; exact I.
Qed.

Lemma confined_initially st d f D :
  isolated st d → reify f (heap st) d = Some D →
  confined (reach (heap st) d) (heap st) st.
Proof.
  intros [Hcells Hnodes] Hd. split.
  - reflexivity.
  - intros l o Hl Hnl. apply (Hcells l o Hl Hnl).
  - exact Hnodes.
  - intros l Hl. eapply reach_bound; eauto.
Qed.

(** * More properties *)

(** ** A write of one segment *)

Lemma child_path_falsy p k : truthy p = false → child_path p k = k.
Proof. destruct p as [p|]; cbn [child_path]; [intros ->|]; reflexivity. Qed.

Lemma dict_set_set k v u items :
  dict_set k v (dict_set k u items) = dict_set k v items.
Proof.
  induction items as [|[k' v'] r IH]; cbn [dict_set].
  - rewrite key_eqb_refl. reflexivity.
  - destruct (key_eqb k k') eqn:E; cbn [dict_set]; rewrite E; [reflexivity|].
    rewrite IH. reflexivity.
Qed.

Lemma dict_get_set_ne k k' v items :
  key_eqb k' k = false → dict_get k' (dict_set k v items) = dict_get k' items.
Proof.
  intros Hne. induction items as [|[k0 v0] r IH]; cbn [dict_set dict_get].
  - rewrite Hne. reflexivity.
  - destruct (key_eqb k k0) eqn:E; cbn [dict_get].
    + apply key_eqb_eq in E. subst k0. rewrite Hne. reflexivity.
    + rewrite IH. reflexivity.
Qed.

(** The child view a node with no path of its own builds for a
    one-segment key always comes into being: its constructor reads the
    root's mapping once. *)
Lemma single_child_value st c r rn k l items n :
  nodes st !! c = Some n → n_path n = Some k → n_root n = r →
  nodes st !! r = Some rn → n_data rn = VRef l →
  heap st !! l = Some (ODict items) →
  key_path_of k = [k] →
  ∃ x, _get_value c st = (Ok x, st)
       ∧ (truthy (Some k) = true →
          x = default VNone (dict_get (int_or_keep k) items)).
Proof.
  intros Hc Hp Hr Hrn Hd Hl Hk.
  destruct (truthy (Some k)) eqn:Ht.
  - destruct (dict_get (int_or_keep k) items) as [x|] eqn:Hg.
    + exists x. split; [|reflexivity].
      apply (get_value_eval st c n rn k (VRef l) (int_or_keep k) x Hc Hp Ht).
      * rewrite Hr. exact Hrn.
      * rewrite Hk, Hd. erewrite traverse_dict_present by eassumption.
        reflexivity.
      * unfold py_getitem. rewrite run_load, Hl, Hg. reflexivity.
    + exists VNone. split; [|reflexivity].
      apply (get_value_eval_missing st c n rn k KeyError Hc Hp Ht).
      * rewrite Hr. exact Hrn.
      * rewrite Hk, Hd. eapply traverse_dict_missing; eassumption.
      * reflexivity.
  - exists (n_data n). split; [|discriminate].
    unfold _get_value. rewrite run_get_node, Hc, Hp, Ht. reflexivity.
Qed.

Lemma setitem_single_run limit self k v st n rn l items :
  nodes st !! self = Some n → truthy (n_path n) = false →
  nodes st !! n_root n = Some rn → n_data rn = VRef l →
  heap st !! l = Some (ODict items) →
  key_path_of k = [k] →
  ∃ cells,
    __setitem__ limit self k v st =
    (Ok tt,
     State (<[l := ODict (dict_set (int_or_keep k) v items)]> (heap st) ++ cells)
           (nodes st ++ [CNode (n_root n) (Some k) (VRef (length (heap st)))
                           (VRef (length (heap st) + 1))]))
    ∧ Forall (fun o => o = ODict []) cells.
Proof.
  intros Hn Hf Hr Hd Hl Hk.
  assert (Hlt : (l < length (heap st))%nat) by (eapply lookup_lt_Some; eauto).
  assert (Hrlt : (n_root n < length (nodes st))%nat) by (eapply lookup_lt_Some; eauto).
  unfold __setitem__. rewrite setitem_at_eq, bind_run.
  rewrite (child_spec _ _ _ _ _ _ Hn), (child_path_falsy _ _ Hf).
  set (st' := with_node st (n_root n) (Some k)).
  set (c := length (nodes st)).
  assert (Hc : nodes st' !! c = Some (CNode (n_root n) (Some k)
                 (VRef (length (heap st))) (VRef (length (heap st) + 1)))).
  { unfold st', with_node, c. cbn [nodes]. apply list_lookup_middle. reflexivity. }
  assert (Hr' : nodes st' !! n_root n = Some rn).
  { unfold st', with_node. cbn [nodes]. apply lookup_app_l_Some. exact Hr. }
  assert (Hl' : heap st' !! l = Some (ODict items)).
  { unfold st', with_node. cbn [heap]. apply lookup_app_l_Some. exact Hl. }
  destruct (single_child_value st' c (n_root n) rn k l items _ Hc eq_refl eq_refl
              Hr' Hd Hl' Hk) as (x & Hx & _).
  rewrite Hx. cbn [fst]. rewrite bind_run.
  rewrite (resolve_path_eval _ _ _ _ _ _ Hc eq_refl Hr'). cbn [n_data n_root].
  rewrite Hk, Hd.
  destruct (dict_get (int_or_keep k) items) as [x0|] eqn:Hg.
  - erewrite traverse_dict_present by eauto. cbn [traverse ret fst snd].
    unfold py_setitem. rewrite run_load, Hl'.
    exists [ODict []; ODict []; ODict []; ODict []].
    split; [|repeat constructor].
    unfold store, st', with_node. cbn [heap nodes].
    rewrite insert_app_l by exact Hlt. reflexivity.
  - unfold st', with_node in *. cbn [heap nodes] in *.
    erewrite traverse_dict_create by eauto. cbn [traverse ret fst snd].
    unfold py_setitem. rewrite run_load. cbn [heap].
    rewrite list_lookup_insert_eq by (rewrite !length_app; cbn; lia).
    exists [ODict []; ODict []; ODict []; ODict []; ODict []].
    split; [|repeat constructor].
    unfold store. cbn [heap nodes]. rewrite list_insert_insert_eq, dict_set_set.
    rewrite <- app_assoc. rewrite insert_app_l by exact Hlt. reflexivity.
Qed.

(** ** Copies are fresh *)

(** The copy of a container is the cell allocated first. *)
Lemma deepcopy_fresh f x st x' st' :
  deepcopy f x st = (Ok x', st') →
  x' = match x with VRef _ => VRef (length (heap st)) | _ => x end.
Proof.
  unfold deepcopy. rewrite bind_run, deepcopy_memo_eq.
  destruct x as [| | | |l]; cbn [memo_get]; try (intros [= <- _]; reflexivity).
  rewrite run_load. destruct (heap st !! l) as [[items|elems]|]; [| |discriminate];
    destruct st as [h ns]; rewrite run_alloc, bind_run;
    match goal with |- context [?m (State (h ++ ?L) ns)] =>
      destruct (m (State (h ++ L) ns)) as [[memo'|e] s1] end.
  all: unfold ret; cbn [fst snd heap]; intros [=]; congruence.
Qed.

Lemma update_with_nothing limit f self h ns n :
  ns !! self = Some n → truthy (n_path n) = false →
  update_with limit f self None None (State h ns)
  = (Ok tt, State (h ++ [ODict []; ODict []]) ns).
Proof.
  intros Hn Hp. unfold update_with, default_dict. mrun.
  cbn [length dict_iter]. mrun. cbn [length Nat.eqb negb]. mrun.
  unfold _get_value. mrun. rewrite Hn, Hp. mrun.
  rewrite update_dict_eq. unfold for_items. mrun.
  cbn [length dict_iter]. mrun. cbn [length Nat.eqb negb]. mrun.
  reflexivity.
Qed.

(** ** Every operation only grows the containers of the store *)

Lemma obj_le_refl o : obj_le o o.
Proof. destruct o; cbn; auto. Qed.

Lemma obj_le_trans a b c : obj_le a b → obj_le b c → obj_le a c.
Proof. destruct a, b, c; cbn; try tauto; [auto|lia]. Qed.

Lemma heap_le_refl h : heap_le h h.
Proof. intros l o Hl. exists o. split; [exact Hl|apply obj_le_refl]. Qed.

Lemma heap_le_trans a b c : heap_le a b → heap_le b c → heap_le a c.
Proof.
  intros H1 H2 l o Hl. destruct (H1 l o Hl) as (o1 & Hl1 & Ho1).
  destruct (H2 l o1 Hl1) as (o2 & Hl2 & Ho2).
  exists o2. split; [exact Hl2|]. eapply obj_le_trans; eauto.
Qed.

Lemma heap_le_app h cells : heap_le h (h ++ cells).
Proof.
  intros l o Hl. exists o. split; [|apply obj_le_refl].
  apply lookup_app_l_Some. exact Hl.
Qed.

Lemma heap_le_insert h l o o' :
  h !! l = Some o → obj_le o o' → heap_le h (<[l := o']> h).
Proof.
  intros Hl Ho l1 o1 Hl1. destruct (decide (l = l1)) as [<-|Hne].
  - exists o'. split.
    + apply list_lookup_insert_eq. eapply lookup_lt_Some; eauto.
    + congruence.
  - exists o1. split; [|apply obj_le_refl].
    rewrite list_lookup_insert_ne by done. exact Hl1.
Qed.

Create HintDb grows discriminated.

Lemma grows_ret {A} (a : A) : grows_m (ret a).
Proof. intros st. apply heap_le_refl. Qed.

Lemma grows_raise {A} e : grows_m (@raise A e).
Proof. intros st. apply heap_le_refl. Qed.

Lemma grows_bind {A B} (m : M A) (f : A → M B) :
  grows_m m → (∀ a, grows_m (f a)) → grows_m (bind m f).
Proof.
  intros Hm Hf st. unfold bind. specialize (Hm st).
  destruct (m st) as [[a|e] st1]; cbn [snd] in *; [|exact Hm].
  eapply heap_le_trans; [exact Hm|apply Hf].
Qed.

Lemma grows_try_except {A} (m : M A) handled h :
  grows_m m → (∀ e, grows_m (h e)) → grows_m (try_except m handled h).
Proof.
  intros Hm Hh st. unfold try_except. specialize (Hm st).
  destruct (m st) as [[a|e] st1]; cbn [snd] in *; [exact Hm|].
  destruct (handled e); [|exact Hm].
  eapply heap_le_trans; [exact Hm|apply Hh].
Qed.

Lemma grows_pure {A} (m : M A) : pure_m m → grows_m m.
Proof. intros Hm st. rewrite Hm. apply heap_le_refl. Qed.

Lemma grows_alloc o : grows_m (alloc o).
Proof. intros st. apply heap_le_app. Qed.

Lemma grows_new_node mk : grows_m (new_node mk).
Proof. intros st. apply heap_le_refl. Qed.

Lemma grows_set_node i n : grows_m (set_node i n).
Proof. intros st. apply heap_le_refl. Qed.

Lemma dict_set_keeps_keys k v items k' :
  is_some (dict_get k' items) = true →
  is_some (dict_get k' (dict_set k v items)) = true.
Proof.
  induction items as [|[k0 v0] r IH]; cbn [dict_get dict_set]; [discriminate|].
  destruct (key_eqb k k0) eqn:E; cbn [dict_get];
    destruct (key_eqb k' k0); auto.
Qed.

Lemma grows_py_setitem node k v : grows_m (py_setitem node k v).
Proof.
  destruct node as [| | |s|l]; cbn [py_setitem]; try apply grows_raise.
  intros st. rewrite run_load.
  destruct (heap st !! l) as [[items|elems]|] eqn:E; cbn [snd];
    [| |apply heap_le_refl].
  - apply heap_le_insert with (o := ODict items); [exact E|].
    intros k'. apply dict_set_keeps_keys.
  - destruct k; [apply heap_le_refl|].
    destruct (norm_index n (length elems)); [|apply heap_le_refl].
    apply heap_le_insert with (o := OList elems); [exact E|].
    cbn. rewrite length_insert. lia.
Qed.

Lemma grows_py_append node x : grows_m (py_append node x).
Proof.
  destruct node as [| | |s|l]; cbn [py_append]; try apply grows_raise.
  intros st. rewrite run_load.
  destruct (heap st !! l) as [[items|elems]|] eqn:E; cbn [snd];
    try apply heap_le_refl.
  apply heap_le_insert with (o := OList elems); [exact E|].
  cbn. rewrite length_app. lia.
Qed.

#[export] Hint Resolve grows_ret grows_raise grows_alloc grows_new_node
  grows_set_node grows_py_setitem grows_py_append : grows.
#[export] Hint Extern 1 (grows_m (load _)) =>
  apply grows_pure, pure_load : grows.
#[export] Hint Extern 1 (grows_m (get_node _)) =>
  apply grows_pure, pure_get_node : grows.
#[export] Hint Extern 1 (grows_m (py_getitem _ _)) =>
  apply grows_pure, pure_py_getitem : grows.
#[export] Hint Extern 1 (grows_m (py_contains _ _)) =>
  apply grows_pure, pure_py_contains : grows.
#[export] Hint Extern 1 (grows_m (is_dict _)) =>
  apply grows_pure, pure_is_dict : grows.
#[export] Hint Extern 1 (grows_m (is_list _)) =>
  apply grows_pure, pure_is_list : grows.
#[export] Hint Extern 1 (grows_m (py_len _)) =>
  apply grows_pure, pure_py_len : grows.
#[export] Hint Extern 1 (grows_m (_get_value _)) =>
  apply grows_pure, pure_get_value : grows.
#[export] Hint Extern 1 (grows_m (is_container_or_none _)) =>
  apply grows_pure, pure_is_container_or_none : grows.
#[export] Hint Extern 2 (grows_m (bind _ _)) =>
  apply grows_bind; [|intro] : grows.
#[export] Hint Extern 2 (grows_m (try_except _ _ _)) =>
  apply grows_try_except; [|intro] : grows.
#[export] Hint Extern 3 (grows_m (match ?x with _ => _ end)) =>
  destruct x : grows.
#[export] Hint Extern 3 (grows_m (if ?x then _ else _)) =>
  destruct x : grows.

Lemma grows_dict_iter body d size :
  (∀ k v, grows_m (body k v)) →
  ∀ remaining, grows_m (dict_iter body d size remaining).
Proof.
  intros Hb. induction remaining as [|r IH]; cbn [dict_iter]; auto 10 with grows.
Qed.
#[export] Hint Resolve grows_dict_iter : grows.

Lemma grows_for_items source body :
  (∀ k v, grows_m (body k v)) → grows_m (for_items source body).
Proof. intros Hb. unfold for_items. auto 10 with grows. Qed.

Lemma grows_update_dict depth : ∀ target source,
  grows_m (update_dict depth target source).
Proof.
  induction depth as [|d IH]; intros target source; rewrite update_dict_eq;
    apply grows_for_items; intros k v; auto 12 with grows.
Qed.
#[export] Hint Resolve grows_update_dict : grows.

Lemma grows_vivify node k : grows_m (vivify node k).
Proof. unfold vivify. auto 12 with grows. Qed.
#[export] Hint Resolve grows_vivify : grows.

Lemma grows_traverse create key_path : ∀ node last prev,
  grows_m (traverse create key_path node last prev).
Proof.
  induction key_path as [|k0 rest IH]; intros; cbn [traverse];
    auto 10 with grows.
Qed.
#[export] Hint Resolve grows_traverse : grows.

Lemma grows_resolve_path self create : grows_m (_resolve_path self create).
Proof. unfold _resolve_path. auto 12 with grows. Qed.
#[export] Hint Resolve grows_resolve_path : grows.

Lemma grows_copy_elems rec y :
  (∀ v memo, grows_m (rec v memo)) →
  ∀ elems memo, grows_m (copy_elems rec y elems memo).
Proof.
  intros Hr. induction elems as [|a r IH]; intros memo; cbn [copy_elems];
    auto 10 with grows.
Qed.

Lemma grows_copy_items rec y :
  (∀ v memo, grows_m (rec v memo)) →
  ∀ items memo, grows_m (copy_items rec y items memo).
Proof.
  intros Hr. induction items as [|[k v] r IH]; intros memo; cbn [copy_items];
    auto 10 with grows.
Qed.

Lemma grows_deepcopy_memo depth : ∀ x memo,
  grows_m (deepcopy_memo depth x memo).
Proof.
  assert (Hstep : ∀ rec : val → memo_t → M (val * memo_t),
            (∀ v m, grows_m (rec v m)) →
            ∀ l memo,
            grows_m (bind (load l) (fun o =>
              match o with
              | OList elems =>
                  bind (alloc (OList [])) (fun y =>
                  bind (copy_elems rec y elems ((l, y) :: memo)) (fun memo' =>
                  ret (VRef y, memo')))
              | ODict items =>
                  bind (alloc (ODict [])) (fun y =>
                  bind (copy_items rec y items ((l, y) :: memo)) (fun memo' =>
                  ret (VRef y, memo')))
              end))).
  { intros rec Hrec l memo. apply grows_bind; [auto with grows|].
    intros [items|elems]; apply grows_bind; auto with grows; intros y;
      apply grows_bind; auto with grows.
    - apply grows_copy_items. exact Hrec.
    - apply grows_copy_elems. exact Hrec. }
  induction depth as [|d IH]; intros x memo; rewrite deepcopy_memo_eq;
    destruct x as [| | | |l]; auto with grows;
    destruct (memo_get l memo); auto with grows; apply Hstep;
    auto with grows.
Qed.

Lemma grows_deepcopy depth x : grows_m (deepcopy depth x).
Proof.
  unfold deepcopy. apply grows_bind; [apply grows_deepcopy_memo|].
  auto with grows.
Qed.
#[export] Hint Resolve grows_deepcopy : grows.

Lemma grows_default_dict a : grows_m (default_dict a).
Proof. unfold default_dict. auto 10 with grows. Qed.
#[export] Hint Resolve grows_default_dict : grows.

Section GrowsMethods.

Variable limit : nat.
Variable setitem : nat → key → val → M unit.
Hypothesis grows_setitem : ∀ self k v, grows_m (setitem self k v).

Lemma grows_update_with self data options :
  grows_m (update_with limit setitem self data options).
Proof using grows_setitem. unfold update_with. auto 14 with grows. Qed.

Lemma grows_init_with data defaults root path :
  grows_m (init_with limit setitem data defaults root path).
Proof using grows_setitem.
  unfold init_with. pose proof grows_update_with. auto 12 with grows.
Qed.

Lemma grows_child_with self path :
  grows_m (child_with limit setitem self path).
Proof using grows_setitem.
  unfold child_with. pose proof grows_init_with. auto 12 with grows.
Qed.

End GrowsMethods.

Lemma grows_setitem_at limit depth : ∀ self k v,
  grows_m (setitem_at limit depth self k v).
Proof.
  induction depth as [|d IH]; intros self k v; rewrite setitem_at_eq;
    (apply grows_bind; [apply grows_child_with; auto with grows|]);
    auto 10 with grows.
Qed.

Lemma grows_setitem limit self k v : grows_m (__setitem__ limit self k v).
Proof. apply grows_setitem_at. Qed.

Lemma grows_update limit self data options :
  grows_m (update limit self data options).
Proof. apply grows_update_with, grows_setitem. Qed.

Lemma grows_init limit data defaults root path :
  grows_m (__init__ limit data defaults root path).
Proof. apply grows_init_with, grows_setitem. Qed.

Lemma grows_getitem limit self k : grows_m (__getitem__ limit self k).
Proof.
  unfold __getitem__, _child.
  apply grows_bind; [apply grows_child_with, grows_setitem|].
  auto 10 with grows.
Qed.

Lemma grows_reset limit self : grows_m (reset limit self).
Proof. unfold reset. auto 10 with grows. Qed.

Lemma grows_run_ops limit ops : grows_m (run_ops limit ops).
Proof.
  induction ops as [|o r IH]; cbn [run_ops]; [apply grows_ret|].
  apply grows_bind; [|intros; exact IH].
  apply grows_try_except; [|auto with grows].
  destruct o; cbn [run_op].
  - apply grows_setitem.
  - apply grows_update.
  - apply grows_bind; [apply grows_getitem|auto with grows].
Qed.

(** ** Deep merge: [update_dict] is [merge_tree] *)

Lemma merge_tree_dict titems sitems :
  merge_tree (TDict titems) (TDict sitems)
  = TDict (fold_left merge_step sitems titems).
Proof. reflexivity. Qed.

Lemma elem_of_flat_map {A B} (g : A → list B) (xs : list A) (y : B) :
  y ∈ flat_map g xs ↔ ∃ x, x ∈ xs ∧ y ∈ g x.
Proof.
  rewrite list_elem_of_In, in_flat_map. split; intros (x & H1 & H2); exists x;
    rewrite ?list_elem_of_In in *; auto.
Qed.

Lemma flat_map_ext_in {A B} (g g' : A → list B) (xs : list A) :
  (∀ x, x ∈ xs → g x = g' x) → flat_map g xs = flat_map g' xs.
Proof.
  induction xs as [|x r IH]; intros H; cbn; [reflexivity|].
  rewrite H by left. rewrite IH; [reflexivity|]. intros; apply H. right. done.
Qed.

Lemma mapM_ext_in {A B} (g g' : A → option B) (xs : list A) :
  (∀ x, x ∈ xs → g x = g' x) → mapM g xs = mapM g' xs.
Proof.
  induction xs as [|x r IH]; intros H; cbn; [reflexivity|].
  rewrite H by left. rewrite IH; [reflexivity|]. intros; apply H. right. done.
Qed.

Lemma NoDup_flat_map_inv {A B} (g : A → list B) (xs : list A) :
  NoDup (flat_map g xs) →
  (∀ x, x ∈ xs → NoDup (g x))
  ∧ (∀ i j x y l, xs !! i = Some x → xs !! j = Some y → i ≠ j →
       l ∈ g x → l ∉ g y).
Proof.
  induction xs as [|a r IH]; cbn.
  - intros _. split; [intros x Hx; inversion Hx|intros i j x y l [=]].
  - intros (Ha & Hd & Hr)%NoDup_app. destruct (IH Hr) as [IH1 IH2].
    split.
    + intros x [->|Hx]%elem_of_cons; [exact Ha|apply IH1; exact Hx].
    + intros [|i] [|j] x y l Hi Hj Hne Hx; cbn in Hi, Hj; [done| | |].
      * injection Hi as <-. intros Hy. apply (Hd l Hx).
        apply elem_of_flat_map. exists y. split; [|exact Hy].
        eapply list_elem_of_lookup_2; eauto.
      * injection Hj as <-. intros Hy. apply (Hd l Hy).
        apply elem_of_flat_map. exists x. split; [|exact Hx].
        eapply list_elem_of_lookup_2; eauto.
      * apply (IH2 i j x y l Hi Hj); [lia|exact Hx].
Qed.

Lemma cells_frame f : ∀ h h' v,
  (∀ l, l ∈ cells f h v → h' !! l = h !! l) → cells f h' v = cells f h v.
Proof.
  induction f as [|f IH]; intros h h' v H; destruct v as [| | | |l];
    cbn [cells] in *; try reflexivity.
  rewrite (H l) by left. f_equal.
  destruct (h !! l) as [[items|elems]|]; [| |reflexivity];
    apply flat_map_ext_in; intros x Hx; apply IH; intros l' Hl'; apply H;
    right; apply elem_of_flat_map; eauto.
Qed.

Lemma reify_frame f : ∀ h h' v,
  (∀ l, l ∈ cells f h v → h' !! l = h !! l) → reify f h' v = reify f h v.
Proof.
  induction f as [|f IH]; intros h h' v H; destruct v as [| | | |l];
    cbn [cells reify] in *; try reflexivity.
  rewrite (H l) by left.
  destruct (h !! l) as [[items|elems]|]; [| |reflexivity]; f_equal;
    apply mapM_ext_in; intros x Hx.
  - rewrite (IH h h' (snd x)); [reflexivity|]. intros l' Hl'. apply H.
    right. apply elem_of_flat_map. eauto.
  - apply IH. intros l' Hl'. apply H.
    right. apply elem_of_flat_map. eauto.
Qed.

(** *** Entries of a mapping, by key *)

Lemma dict_get_elem k items v : dict_get k items = Some v → (k, v) ∈ items.
Proof.
  induction items as [|[k' v'] r IH]; cbn [dict_get]; [discriminate|].
  destruct (key_eqb k k') eqn:E.
  - apply key_eqb_eq in E. intros [= <-]. subst. left.
  - intros H. right. auto.
Qed.

Lemma dict_get_lookup k items v :
  dict_get k items = Some v → ∃ i, items !! i = Some (k, v).
Proof. intros H. apply list_elem_of_lookup_1, dict_get_elem, H. Qed.

Lemma dict_get_None k items : dict_get k items = None ↔ k ∉ map fst items.
Proof.
  induction items as [|[k' v'] r IH]; cbn [dict_get map fst].
  - split; [intros _ H; inversion H|reflexivity].
  - rewrite not_elem_of_cons. destruct (key_eqb k k') eqn:E.
    + apply key_eqb_eq in E. split; [discriminate|tauto].
    + rewrite IH. assert (k ≠ k') by (rewrite <- key_eqb_eq; congruence). tauto.
Qed.

Lemma elem_dict_get k items v :
  NoDup (map fst items) → (k, v) ∈ items → dict_get k items = Some v.
Proof.
  induction items as [|[k' v'] r IH]; cbn [dict_get map fst];
    [intros _ H; inversion H|].
  intros [Hn Hr]%NoDup_cons [[= -> ->]|Hin]%elem_of_cons.
  - rewrite key_eqb_refl. reflexivity.
  - destruct (key_eqb k k') eqn:E; [|auto].
    apply key_eqb_eq in E. subst k'. exfalso. apply Hn.
    apply list_elem_of_fmap. exists (k, v). split; [reflexivity|exact Hin].
Qed.

Lemma elem_of_dict_set k v items k' v' :
  (k', v') ∈ dict_set k v items → (k' = k ∧ v' = v) ∨ (k', v') ∈ items.
Proof.
  induction items as [|[k0 v0] r IH]; cbn [dict_set].
  - intros [[= -> ->]|H]%elem_of_cons; [left; done|inversion H].
  - destruct (key_eqb k k0) eqn:E.
    + apply key_eqb_eq in E. subst k0.
      intros [[= -> ->]|H]%elem_of_cons; [left; done|right; right; done].
    + intros [[= -> ->]|H]%elem_of_cons; [right; left|].
      destruct (IH H); [left; done|right; right; done].
Qed.

Lemma map_fst_dict_set k v items :
  map fst (dict_set k v items)
  = if is_some (dict_get k items) then map fst items else map fst items ++ [k].
Proof.
  induction items as [|[k0 v0] r IH]; cbn [dict_set dict_get map fst];
    [reflexivity|].
  destruct (key_eqb k k0) eqn:E; cbn [is_some map fst]; [reflexivity|].
  rewrite IH. destruct (is_some (dict_get k r)); reflexivity.
Qed.

Lemma NoDup_dict_set k v items :
  NoDup (map fst items) → NoDup (map fst (dict_set k v items)).
Proof.
  intros H. rewrite map_fst_dict_set.
  destruct (dict_get k items) eqn:E; cbn [is_some]; [exact H|].
  apply NoDup_app. split; [exact H|]. split.
  - intros x Hx [->|Hin]%elem_of_cons; [|inversion Hin].
    apply dict_get_None in E. contradiction.
  - apply NoDup_singleton.
Qed.

Lemma dict_set_same k v items :
  dict_get k items = Some v → dict_set k v items = items.
Proof.
  induction items as [|[k0 v0] r IH]; cbn [dict_set dict_get]; [discriminate|].
  destruct (key_eqb k k0) eqn:E; [intros [= ->]; reflexivity|].
  intros H. rewrite IH by exact H. reflexivity.
Qed.

(** *** A mapping and the structure it reads as, entry by entry *)

Lemma lockstep_get R cur acc k :
  Forall2 (item_rel R) cur acc →
  match dict_get k cur with
  | Some v => ∃ t, tree_get k acc = Some t ∧ R v t
  | None => tree_get k acc = None
  end.
Proof.
  induction 1 as [|[k0 v0] [k1 t1] r r' [Hk Hv] _ IH];
    cbn [dict_get tree_get]; [reflexivity|].
  cbn in Hk, Hv. subst k1. destruct (key_eqb k k0); [eauto|exact IH].
Qed.

Lemma lockstep_weaken (R R' : val → tree → Prop) cur acc :
  Forall2 (item_rel R) cur acc →
  (∀ k v t, (k, v) ∈ cur → R v t → R' v t) →
  Forall2 (item_rel R') cur acc.
Proof.
  induction 1 as [|[k0 v0] [k1 t1] r r' [Hk Hv] _ IH]; intros HR;
    constructor.
  - split; [exact Hk|]. apply (HR k0); [left|exact Hv].
  - apply IH. intros k v t Hin. apply (HR k). right. exact Hin.
Qed.

Lemma lockstep_set R cur acc k v t :
  Forall2 (item_rel R) cur acc → R v t →
  Forall2 (item_rel R) (dict_set k v cur) (tree_set k t acc).
Proof.
  intros H Hv. induction H as [|[k0 v0] [k1 t1] r r' [Hk Hv0] Hr IH];
    cbn [dict_set tree_set].
  - repeat constructor. exact Hv.
  - cbn in Hk, Hv0. subst k1. destruct (key_eqb k k0).
    + constructor; [split; [reflexivity|exact Hv]|exact Hr].
    + constructor; [split; [reflexivity|exact Hv0]|exact IH].
Qed.

Lemma lockstep_set_at (R R' : val → tree → Prop) cur acc k tk t :
  Forall2 (item_rel R) cur acc → NoDup (map fst cur) →
  dict_get k cur = Some tk → R' tk t →
  (∀ k' v' t', (k', v') ∈ cur → k' ≠ k → R v' t' → R' v' t') →
  Forall2 (item_rel R') cur (tree_set k t acc).
Proof.
  intros H. induction H as [|[k0 v0] [k1 t1] r r' [Hk Hv0] Hr IH];
    cbn [dict_get tree_set map fst]; [discriminate|].
  cbn in Hk, Hv0. subst k1. intros [Hn Hnd]%NoDup_cons Hg Htk Hoth.
  destruct (key_eqb k k0) eqn:E.
  - apply key_eqb_eq in E. subst k0. injection Hg as ->.
    constructor; [split; [reflexivity|exact Htk]|].
    eapply lockstep_weaken; [exact Hr|].
    intros k' v' t' Hin. apply (Hoth k'); [right; exact Hin|].
    intros ->. apply Hn. apply list_elem_of_fmap. exists (k, v'). done.
  - constructor.
    + split; [reflexivity|]. apply (Hoth k0); [left| |exact Hv0].
      intros ->. rewrite key_eqb_refl in E. discriminate.
    + apply IH; auto. intros k' v' t' Hin. apply (Hoth k'). right. exact Hin.
Qed.

Lemma is_dict_reify f h ns v T :
  reify f h v = Some T →
  is_dict v (State h ns) = (Ok (is_tdict T), State h ns).
Proof.
  destruct v as [| | | |l]; cbn [reify is_dict].
  1-4: destruct f; cbn [reify]; intros [= ?]; subst; reflexivity.
  intros H. apply reify_ref_inv in H as (f0 & -> & H).
  rewrite run_load. cbn [heap].
  destruct H as [(items & its & -> & -> & _)|(elems & ts & -> & -> & _)];
    reflexivity.
Qed.

Lemma tree_get_elem k its t : tree_get k its = Some t → (k, t) ∈ its.
Proof.
  induction its as [|[k' t'] r IH]; cbn [tree_get]; [discriminate|].
  destruct (key_eqb k k') eqn:E.
  - apply key_eqb_eq in E. intros [= <-]. subst. left.
  - intros H. right. auto.
Qed.

Lemma NoDup_app_middle {A} (xs ys : list A) (x : A) :
  NoDup (xs ++ x :: ys) → x ∉ xs.
Proof.
  intros (_ & H & _)%NoDup_app Hx. apply (H x Hx). left.
Qed.

Lemma compat_items Tits Sits :
  compat (TDict Tits) (TDict Sits) = true →
  Forall (fun kt => ∀ Tk, is_tdict (snd kt) = true →
                          tree_get (fst kt) Tits = Some Tk →
                          compat Tk (snd kt) = true) Sits.
Proof.
  change (compat (TDict Tits) (TDict Sits))
    with (forallb (fun kv =>
                     match snd kv, tree_get (fst kv) Tits with
                     | TDict _, Some tk => compat tk (snd kv)
                     | _, _ => true
                     end) Sits).
  induction Sits as [|[k Sv] r IH]; cbn [forallb]; [constructor|].
  intros [H1 H2]%andb_true_iff. constructor; [|exact (IH H2)].
  cbn [fst snd] in *. intros Tk Hd Hg. rewrite Hg in H1.
  destruct Sv; try discriminate. exact H1.
Qed.

(** *** The merge loop *)

Section MergeLoop.

Variable f : nat.
Hypothesis IHf : merge_spec f.
Variable h : list obj.
Variable ns : list cnode.
Variable t s : nat.
Variable titems sitems : list (key * val).
Variable Tits Sits : list (key * tree).

Local Abbreviation FT := (t :: flat_map (fun kv => cells f h (snd kv)) titems).
Local Abbreviation CS := (s :: flat_map (fun kv => cells f h (snd kv)) sitems).
Local Abbreviation inv := (merge_inv f h t s titems sitems).
Local Abbreviation body := (fun k v =>
    bind (is_dict v) (fun c1 =>
    bind (if c1 : bool then py_contains k (VRef t) else ret false) (fun c2 =>
    bind (if c2 : bool then bind (py_getitem (VRef s) k) is_dict else ret false)
      (fun c3 =>
    if c3 : bool then
      bind (py_getitem (VRef t) k) (fun tk => update_dict f tk v)
    else py_setitem (VRef t) k v)))).

Hypothesis Ht0 : h !! t = Some (ODict titems).
Hypothesis Hs0 : h !! s = Some (ODict sitems).
Hypothesis HT : Forall2 (item_rel (fun v tr => reify f h v = Some tr)) titems Tits.
Hypothesis HkT : NoDup (map fst titems).
Hypothesis HokT : Forall (fun kt => tree_ok (snd kt) = true) Tits.
Hypothesis HkS : NoDup (map fst sitems).
Hypothesis Hnd : NoDup FT.
Hypothesis Hdisj : ∀ l, l ∈ FT → l ∉ CS.

Lemma merge_source_cells k v l :
  (k, v) ∈ sitems → l ∈ cells f h v → l ∈ CS ∧ l ∉ FT.
Proof using Hdisj.
  intros Hin Hl.
  assert (l ∈ CS).
  { right. apply elem_of_flat_map. exists (k, v). split; [exact Hin|exact Hl]. }
  split; [assumption|]. intros HF. exact (Hdisj l HF H).
Qed.

Lemma merge_target_cells k v0 l :
  dict_get k titems = Some v0 → l ∈ cells f h v0 → l ∈ FT ∧ l ≠ t.
Proof using Hnd.
  intros Hg Hl.
  assert (Hin : l ∈ flat_map (fun kv => cells f h (snd kv)) titems).
  { apply elem_of_flat_map. exists (k, v0). split; [|exact Hl].
    apply dict_get_elem, Hg. }
  split; [right; exact Hin|].
  apply NoDup_cons in Hnd as [Hn _]. intros ->. contradiction.
Qed.

Lemma merge_target_disjoint k v0 k' v0' l :
  dict_get k titems = Some v0 → dict_get k' titems = Some v0' → k ≠ k' →
  l ∈ cells f h v0 → l ∉ cells f h v0'.
Proof using Hnd.
  intros Hg Hg' Hne Hl.
  apply NoDup_cons in Hnd as [_ Hn].
  apply NoDup_flat_map_inv in Hn as [_ Hd].
  destruct (dict_get_lookup _ _ _ Hg) as [i Hi].
  destruct (dict_get_lookup _ _ _ Hg') as [j Hj].
  apply (Hd i j (k, v0) (k', v0') l Hi Hj); [|exact Hl].
  intros ->. congruence.
Qed.

Lemma merge_inv_cell_not_target pre hi cur acc k v l :
  inv pre hi cur acc → (k, v) ∈ cur → l ∈ cells f hi v → l ≠ t.
Proof using Hnd Hdisj.
  intros I Hin Hl. destruct (mi_cells _ _ _ _ _ _ _ _ _ _ I k v l Hin Hl)
    as [(v0 & Hg & Hl0)|HCS].
  - eapply merge_target_cells; eauto.
  - intros ->. apply (Hdisj t); [left|exact HCS].
Qed.

(** Storing a source value under its key. *)
Lemma merge_assign pre k v post Sv hi cur acc :
  sitems = pre ++ (k, v) :: post →
  reify f h v = Some Sv →
  inv pre hi cur acc →
  py_setitem (VRef t) k v (State hi ns)
  = (Ok tt, State (<[t := ODict (dict_set k v cur)]> hi) ns)
  ∧ inv (pre ++ [(k, v)]) (<[t := ODict (dict_set k v cur)]> hi)
      (dict_set k v cur) (tree_set k Sv acc).
Proof using Hnd Hdisj.
  intros Hsplit Hv I.
  assert (Hin : (k, v) ∈ sitems).
  { rewrite Hsplit. apply elem_of_app. right. left. }
  pose proof (mi_target _ _ _ _ _ _ _ _ _ _ I) as Htgt.
  assert (Hlt : (t < length hi)%nat) by (eapply lookup_lt_Some; eauto).
  assert (Hvt : ∀ l, l ∈ cells f h v → l ≠ t).
  { intros l Hl ->. destruct (merge_source_cells k v t Hin Hl) as [_ Hn].
    apply Hn. left. }
  assert (Hvhi : ∀ l, l ∈ cells f h v → hi !! l = h !! l).
  { intros l Hl. apply (mi_frame _ _ _ _ _ _ _ _ _ _ I).
    apply (merge_source_cells k v l Hin Hl). }
  assert (Hcv : cells f hi v = cells f h v) by (apply cells_frame, Hvhi).
  split.
  { unfold py_setitem. rewrite run_load. cbn [heap]. rewrite Htgt. reflexivity. }
  set (h' := <[t := ODict (dict_set k v cur)]> hi).
  assert (Hne : ∀ l, l ≠ t → h' !! l = hi !! l).
  { intros l Hl. unfold h'. apply list_lookup_insert_ne. congruence. }
  assert (Hold : ∀ k' v', (k', v') ∈ cur →
            ∀ l, l ∈ cells f hi v' → h' !! l = hi !! l).
  { intros k' v' Hin' l Hl. apply Hne.
    eapply merge_inv_cell_not_target; eauto. }
  assert (Hnew : ∀ l, l ∈ cells f hi v → h' !! l = hi !! l).
  { intros l Hl. apply Hne, Hvt. rewrite <- Hcv. exact Hl. }
  split.
  - unfold h'. rewrite length_insert. apply (mi_length _ _ _ _ _ _ _ _ _ _ I).
  - intros l Hl. rewrite Hne.
    + apply (mi_frame _ _ _ _ _ _ _ _ _ _ I), Hl.
    + intros ->. apply Hl. left.
  - unfold h'. apply list_lookup_insert_eq. exact Hlt.
  - apply lockstep_set.
    + eapply lockstep_weaken; [apply (mi_reads _ _ _ _ _ _ _ _ _ _ I)|].
      intros k' v' t' Hin' Hr. cbn beta. rewrite <- Hr.
      apply reify_frame. apply (Hold k' v' Hin').
    + rewrite (reify_frame f hi h' v Hnew).
      rewrite (reify_frame f h hi v Hvhi). exact Hv.
  - apply NoDup_dict_set, (mi_keys _ _ _ _ _ _ _ _ _ _ I).
  - intros k2 v0 Hk2 Hg.
    rewrite map_app, not_elem_of_app in Hk2. destruct Hk2 as [Hk2 Hk2'].
    cbn in Hk2'. rewrite not_elem_of_cons in Hk2'. destruct Hk2' as [Hk2' _].
    destruct (mi_kept _ _ _ _ _ _ _ _ _ _ I k2 v0 Hk2 Hg) as [Hc Hu].
    split.
    + rewrite dict_get_set_ne; [exact Hc|].
      apply not_true_iff_false. rewrite key_eqb_eq. exact Hk2'.
    + intros l Hl. rewrite Hne; [auto|].
      eapply merge_target_cells; eauto.
  - intros k2 Hk2 Hg.
    rewrite map_app, not_elem_of_app in Hk2. destruct Hk2 as [Hk2 Hk2'].
    cbn in Hk2'. rewrite not_elem_of_cons in Hk2'. destruct Hk2' as [Hk2' _].
    rewrite dict_get_set_ne.
    + apply (mi_absent _ _ _ _ _ _ _ _ _ _ I); assumption.
    + apply not_true_iff_false. rewrite key_eqb_eq. exact Hk2'.
  - intros k' v' l Hin' Hl.
    apply elem_of_dict_set in Hin' as [[-> ->]|Hin'].
    + right. rewrite (cells_frame f hi h' v Hnew), Hcv in Hl.
      apply (merge_source_cells k v l Hin Hl).
    + rewrite (cells_frame f hi h' v' (Hold k' v' Hin')) in Hl.
      apply (mi_cells _ _ _ _ _ _ _ _ _ _ I k' v' l Hin' Hl).
Qed.

(** Merging a source mapping into the mapping the target holds under
    the same key. *)
Lemma merge_recurse pre k v post Sv hi cur acc tk :
  sitems = pre ++ (k, v) :: post →
  reify f h v = Some Sv → tree_ok Sv = true →
  (∀ Tk, tree_get k Tits = Some Tk → compat Tk Sv = true) →
  inv pre hi cur acc →
  dict_get k cur = Some tk →
  ∃ h' Tk, tree_get k acc = Some Tk
    ∧ update_dict f tk v (State hi ns) = (Ok tt, State h' ns)
    ∧ inv (pre ++ [(k, v)]) h' cur (tree_set k (merge_tree Tk Sv) acc).
Proof using IHf HT HkT HokT HkS Hnd Hdisj.
  intros Hsplit Hv HokS Hc I Hcur.
  assert (Hin : (k, v) ∈ sitems).
  { rewrite Hsplit. apply elem_of_app. right. left. }
  assert (Hkpre : k ∉ map fst pre).
  { rewrite Hsplit, map_app in HkS. cbn [map fst] in HkS.
    eapply NoDup_app_middle; eauto. }
  assert (Hvhi : ∀ l, l ∈ cells f h v → hi !! l = h !! l).
  { intros l Hl. apply (mi_frame _ _ _ _ _ _ _ _ _ _ I).
    apply (merge_source_cells k v l Hin Hl). }
  assert (Hcv : cells f hi v = cells f h v) by (apply cells_frame, Hvhi).
  assert (Hv_hi : reify f hi v = Some Sv).
  { rewrite (reify_frame f h hi v Hvhi). exact Hv. }
  destruct (dict_get k titems) as [v0|] eqn:Hg0; cycle 1.
  { rewrite (mi_absent _ _ _ _ _ _ _ _ _ _ I k Hkpre Hg0) in Hcur. discriminate. }
  destruct (mi_kept _ _ _ _ _ _ _ _ _ _ I k v0 Hkpre Hg0) as [Hc0 Hu].
  assert (tk = v0) by congruence. subst tk.
  assert (Hcv0 : cells f hi v0 = cells f h v0) by (apply cells_frame, Hu).
  pose proof (lockstep_get _ _ _ k HT) as HTk. rewrite Hg0 in HTk.
  destruct HTk as (Tk & HTk & Hr0).
  pose proof (lockstep_get _ _ _ k (mi_reads _ _ _ _ _ _ _ _ _ _ I)) as Hak.
  rewrite Hcur in Hak. destruct Hak as (Tk' & Hak & Hr1).
  assert (Hr0' : reify f hi v0 = Some Tk).
  { rewrite (reify_frame f h hi v0 Hu). exact Hr0. }
  assert (Tk' = Tk) by congruence. subst Tk'.
  assert (HokTk : tree_ok Tk = true).
  { rewrite Forall_forall in HokT. apply (HokT (k, Tk)), tree_get_elem, HTk. }
  assert (HW : ∀ l, l ∈ cells f h v0 → l ∈ FT ∧ l ≠ t).
  { intros l Hl. eapply merge_target_cells; eauto. }
  destruct (IHf hi ns v0 v Tk Sv Hr0' Hv_hi HokTk HokS (Hc Tk HTk))
    as (h' & Hrun & Hlen & Hfr & Hread & Hcells).
  { rewrite Hcv0. pose proof Hnd as Hnd'.
    apply NoDup_cons in Hnd' as [_ Hn].
    apply NoDup_flat_map_inv in Hn as [Hn _].
    apply (Hn (k, v0)), dict_get_elem, Hg0. }
  { rewrite Hcv0, Hcv. intros l Hl Hl'.
    destruct (merge_source_cells k v l Hin Hl') as [_ Hn].
    apply Hn, (HW l Hl). }
  rewrite Hcv0 in Hfr. rewrite Hcv0, Hcv in Hcells.
  assert (Hoth : ∀ k' v', (k', v') ∈ cur → k' ≠ k →
            ∀ l, l ∈ cells f hi v' → h' !! l = hi !! l).
  { intros k' v' Hin' Hne l Hl. apply Hfr.
    destruct (mi_cells _ _ _ _ _ _ _ _ _ _ I k' v' l Hin' Hl)
      as [(v0' & Hg' & Hl0)|HCS].
    - intros Hl'. revert Hl0.
      apply (merge_target_disjoint k v0 k' v0' l Hg0 Hg'); [congruence|exact Hl'].
    - intros Hl'. apply (Hdisj l); [apply (HW l Hl')|exact HCS]. }
  exists h', Tk. split; [exact Hak|]. split; [exact Hrun|].
  split.
  - rewrite Hlen. apply (mi_length _ _ _ _ _ _ _ _ _ _ I).
  - intros l Hl. rewrite Hfr.
    + apply (mi_frame _ _ _ _ _ _ _ _ _ _ I), Hl.
    + intros Hl'. apply Hl, (HW l Hl').
  - rewrite Hfr; [apply (mi_target _ _ _ _ _ _ _ _ _ _ I)|].
    intros Hl'. destruct (HW t Hl') as [_ Hn]. congruence.
  - eapply lockstep_set_at.
    + apply (mi_reads _ _ _ _ _ _ _ _ _ _ I).
    + apply (mi_keys _ _ _ _ _ _ _ _ _ _ I).
    + exact Hc0.
    + exact Hread.
    + intros k' v' t' Hin' Hne Hr. cbn beta. rewrite <- Hr.
      apply reify_frame. apply (Hoth k' v' Hin' Hne).
  - apply (mi_keys _ _ _ _ _ _ _ _ _ _ I).
  - intros k2 v02 Hk2 Hg.
    rewrite map_app, not_elem_of_app in Hk2. destruct Hk2 as [Hk2 Hk2'].
    cbn in Hk2'. rewrite not_elem_of_cons in Hk2'. destruct Hk2' as [Hk2' _].
    destruct (mi_kept _ _ _ _ _ _ _ _ _ _ I k2 v02 Hk2 Hg) as [Hc2 Hu2].
    split; [exact Hc2|].
    intros l Hl. rewrite Hfr; [auto|].
    intros Hl'. revert Hl.
    apply (merge_target_disjoint k v0 k2 v02 l Hg0 Hg); [congruence|exact Hl'].
  - intros k2 Hk2 Hg.
    rewrite map_app, not_elem_of_app in Hk2. destruct Hk2 as [Hk2 _].
    apply (mi_absent _ _ _ _ _ _ _ _ _ _ I); assumption.
  - intros k' v' l Hin' Hl.
    destruct (decide (k' = k)) as [->|Hne].
    + assert (v' = v0).
      { pose proof (elem_dict_get k cur v' (mi_keys _ _ _ _ _ _ _ _ _ _ I) Hin').
        congruence. }
      subst v'. destruct (Hcells l Hl) as [Hl0|Hlv].
      * left. exists v0. split; [exact Hg0|exact Hl0].
      * right. apply (merge_source_cells k v l Hin Hlv).
    + rewrite (cells_frame f hi h' v' (Hoth k' v' Hin' Hne)) in Hl.
      apply (mi_cells _ _ _ _ _ _ _ _ _ _ I k' v' l Hin' Hl).
Qed.

(** One round of the loop. *)
Lemma merge_body_step pre k v post Sv hi cur acc :
  sitems = pre ++ (k, v) :: post →
  reify f h v = Some Sv → tree_ok Sv = true →
  (∀ Tk, is_tdict Sv = true → tree_get k Tits = Some Tk →
         compat Tk Sv = true) →
  inv pre hi cur acc →
  ∃ h' cur', body k v (State hi ns) = (Ok tt, State h' ns)
    ∧ inv (pre ++ [(k, v)]) h' cur' (merge_step acc (k, Sv)).
Proof using IHf Hs0 HT HkT HokT HkS Hnd Hdisj.
  intros Hsplit Hv HokS Hc I.
  assert (Hin : (k, v) ∈ sitems).
  { rewrite Hsplit. apply elem_of_app. right. left. }
  assert (Hvhi : ∀ l, l ∈ cells f h v → hi !! l = h !! l).
  { intros l Hl. apply (mi_frame _ _ _ _ _ _ _ _ _ _ I).
    apply (merge_source_cells k v l Hin Hl). }
  assert (Hv_hi : reify f hi v = Some Sv).
  { rewrite (reify_frame f h hi v Hvhi). exact Hv. }
  assert (Hs_hi : hi !! s = Some (ODict sitems)).
  { rewrite (mi_frame _ _ _ _ _ _ _ _ _ _ I); [exact Hs0|].
    intros HF. apply (Hdisj s HF). left. }
  pose proof (mi_target _ _ _ _ _ _ _ _ _ _ I) as Htgt.
  destruct (merge_assign pre k v post Sv hi cur acc Hsplit Hv I) as [Hset Iset].
  rewrite bind_run, (is_dict_reify f hi ns v Sv Hv_hi).
  destruct (is_tdict Sv) eqn:Hd.
  - unfold py_contains. rewrite !bind_assoc, run_load. cbn [heap].
    rewrite Htgt, bind_ret.
    destruct (dict_get k cur) as [tk|] eqn:Hcur; cbn [is_some].
    + unfold py_getitem at 1. rewrite !bind_assoc, run_load. cbn [heap].
      rewrite Hs_hi, (elem_dict_get k sitems v HkS Hin), bind_ret.
      rewrite bind_run, (is_dict_reify f hi ns v Sv Hv_hi), Hd.
      unfold py_getitem. rewrite !bind_assoc, run_load. cbn [heap].
      rewrite Htgt, Hcur, bind_ret.
      destruct (merge_recurse pre k v post Sv hi cur acc tk Hsplit Hv HokS)
        as (h' & Tk & Hak & Hrun & I'); [auto|exact I|exact Hcur|].
      exists h', cur. split; [exact Hrun|].
      unfold merge_step. cbn [fst snd]. rewrite Hak.
      destruct Sv; try discriminate. exact I'.
    + rewrite bind_ret. do 2 eexists. split; [exact Hset|].
      unfold merge_step. cbn [fst snd].
      pose proof (lockstep_get _ _ _ k (mi_reads _ _ _ _ _ _ _ _ _ _ I)) as Hak.
      rewrite Hcur in Hak. rewrite Hak.
      destruct Sv; exact Iset.
  - rewrite !bind_ret. do 2 eexists. split; [exact Hset|].
    unfold merge_step. cbn [fst snd].
    destruct Sv; try discriminate; exact Iset.
Qed.

(** The loop over what is left of the source. *)
Lemma merge_loop post : ∀ pre Spost hi cur acc,
  sitems = pre ++ post →
  Forall2 (item_rel (fun v tr => reify f h v = Some tr)) post Spost →
  Forall (fun kt => tree_ok (snd kt) = true) Spost →
  Forall (fun kt => ∀ Tk, is_tdict (snd kt) = true →
                          tree_get (fst kt) Tits = Some Tk →
                          compat Tk (snd kt) = true) Spost →
  inv pre hi cur acc →
  ∃ h' cur',
    dict_iter body s (length sitems) (length post) (State hi ns)
    = (Ok tt, State h' ns)
    ∧ inv sitems h' cur' (fold_left merge_step Spost acc).
Proof using IHf Hs0 HT HkT HokT HkS Hnd Hdisj.
  induction post as [|[k v] post IH]; intros pre Spost hi cur acc Hsplit HS Hok Hc I.
  - apply Forall2_nil_inv_l in HS. subst Spost.
    rewrite app_nil_r in Hsplit. subst pre.
    exists hi, cur. split; [|exact I].
    cbn [length dict_iter]. rewrite run_load. cbn [heap].
    rewrite (mi_frame _ _ _ _ _ _ _ _ _ _ I), Hs0.
    + rewrite Nat.eqb_refl. reflexivity.
    + intros HF. apply (Hdisj s HF). left.
  - apply Forall2_cons_inv_l in HS as ([k' Sv] & Spost' & [Hk Hv] & HS & ->).
    cbn [fst snd] in Hk, Hv. subst k'.
    apply Forall_cons in Hok as [Hok1 Hok]. apply Forall_cons in Hc as [Hc1 Hc].
    cbn [fst snd] in Hok1, Hc1.
    destruct (merge_body_step pre k v post Sv hi cur acc Hsplit Hv Hok1 Hc1 I)
      as (h1 & cur1 & Hrun1 & I1).
    destruct (IH (pre ++ [(k, v)]) Spost' h1 cur1 (merge_step acc (k, Sv)))
      as (h' & cur' & Hrun & I'); auto.
    { rewrite <- app_assoc. exact Hsplit. }
    exists h', cur'. split; [|exact I'].
    cbn [length dict_iter]. rewrite run_load. cbn [heap].
    rewrite (mi_frame _ _ _ _ _ _ _ _ _ _ I), Hs0; cycle 1.
    { intros HF. apply (Hdisj s HF). left. }
    rewrite Nat.eqb_refl. cbn [negb].
    replace (length sitems - S (length post))%nat with (length pre); cycle 1.
    { rewrite Hsplit, length_app. cbn [length]. lia. }
    assert (Hlk : sitems !! length pre = Some (k, v)).
    { rewrite Hsplit. apply list_lookup_middle. reflexivity. }
    rewrite Hlk, bind_run, Hrun1. exact Hrun.
Qed.

End MergeLoop.

Lemma compat_dicts T S :
  compat T S = true → ∃ Tits Sits, T = TDict Tits ∧ S = TDict Sits.
Proof. destruct S, T; try discriminate. eauto. Qed.

Lemma reify_dict_inv f h v its :
  reify f h v = Some (TDict its) →
  ∃ f0 l items, f = S f0 ∧ v = VRef l ∧ h !! l = Some (ODict items)
    ∧ Forall2 (item_rel (fun v t => reify f0 h v = Some t)) items its.
Proof.
  destruct v as [| | | |l].
  1-4: destruct f; cbn [reify]; discriminate.
  intros H. apply reify_ref_inv in H as (f0 & -> & H).
  destruct H as [(items & its' & Hl & [= ->] & HF)|(elems & ts & _ & [=] & _)].
  exists f0, l, items. auto.
Qed.

(** [update_dict], on a target that shares no cell with the source nor
    with itself, is [merge_tree]. *)
Lemma update_dict_merge_spec : ∀ f, merge_spec f.
Proof.
  induction f as [|f IH]; intros h ns t s T S Ht Hs HokT HokS Hc Hnd Hdisj;
    destruct (compat_dicts T S Hc) as (Tits & Sits & -> & ->);
    apply reify_dict_inv in Ht as (f0 & lt & titems & Hf & -> & Ht0 & HT);
    [discriminate|].
  injection Hf as <-.
  apply reify_dict_inv in Hs as (f0 & ls & sitems & Hf & -> & Hs0 & HS).
  injection Hf as <-.
  cbn [cells] in Hnd, Hdisj. rewrite Ht0 in Hnd, Hdisj. rewrite Hs0 in Hdisj.
  destruct (tree_ok_dict _ HokT) as [HkT HallT].
  destruct (tree_ok_dict _ HokS) as [HkS HallS].
  rewrite (item_rel_keys _ _ _ HT) in HkT.
  rewrite (item_rel_keys _ _ _ HS) in HkS.
  assert (HokT' : Forall (fun kt => tree_ok (snd kt) = true) Tits).
  { eapply Forall_impl; [exact HallT|]. intros kt [H _]. exact H. }
  assert (HokS' : Forall (fun kt => tree_ok (snd kt) = true) Sits).
  { eapply Forall_impl; [exact HallS|]. intros kt [H _]. exact H. }
  destruct (merge_loop f IH h ns lt ls titems sitems Tits Hs0 HT HkT HokT' HkS
              Hnd Hdisj sitems [] Sits h titems Tits eq_refl HS HokS'
              (compat_items _ _ Hc))
    as (h' & cur' & Hrun & I).
  { split.
    - reflexivity.
    - reflexivity.
    - exact Ht0.
    - exact HT.
    - exact HkT.
    - intros k v0 _ Hg. split; [exact Hg|reflexivity].
    - intros k _ Hg. exact Hg.
    - intros k v l Hin Hl. left. exists v. split; [|exact Hl].
      apply elem_dict_get; assumption. }
  exists h'. split.
  { rewrite update_dict_eq. unfold for_items. rewrite run_load. cbn [heap].
    rewrite Hs0. exact Hrun. }
  split; [apply (mi_length _ _ _ _ _ _ _ _ _ _ I)|].
  split.
  { intros l Hl. apply (mi_frame _ _ _ _ _ _ _ _ _ _ I).
    cbn [cells] in Hl. rewrite Ht0 in Hl. exact Hl. }
  split.
  { cbn [reify]. rewrite (mi_target _ _ _ _ _ _ _ _ _ _ I).
    rewrite merge_tree_dict.
    pose proof (mi_reads _ _ _ _ _ _ _ _ _ _ I) as Hr.
    apply mapM_items_Some in Hr. rewrite Hr. reflexivity. }
  intros l Hl. cbn [cells] in Hl |- *.
  rewrite (mi_target _ _ _ _ _ _ _ _ _ _ I) in Hl. rewrite Ht0, Hs0.
  apply elem_of_cons in Hl as [->|Hl]; [left; left|].
  apply elem_of_flat_map in Hl as ([k v] & Hin & Hl). cbn [snd] in Hl.
  destruct (mi_cells _ _ _ _ _ _ _ _ _ _ I k v l Hin Hl)
    as [(v0 & Hg & Hl0)|HCS]; [left|right; exact HCS].
  right. apply elem_of_flat_map. exists (k, v0). split; [|exact Hl0].
  apply dict_get_elem, Hg.
Qed.

(** *** Reading the merged structure by key *)

Lemma tree_get_set_eq k t items : tree_get k (tree_set k t items) = Some t.
Proof.
  induction items as [|[k' t'] r IH]; cbn [tree_set tree_get].
  - rewrite key_eqb_refl. reflexivity.
  - destruct (key_eqb k k') eqn:E; cbn [tree_get]; rewrite E; auto.
Qed.

Lemma tree_get_set_ne k k' t items :
  key_eqb k' k = false → tree_get k' (tree_set k t items) = tree_get k' items.
Proof.
  intros Hne. induction items as [|[k0 t0] r IH]; cbn [tree_set tree_get].
  - rewrite Hne. reflexivity.
  - destruct (key_eqb k k0) eqn:E; cbn [tree_get].
    + apply key_eqb_eq in E. subst k0. rewrite Hne. reflexivity.
    + rewrite IH. reflexivity.
Qed.

Lemma tree_get_None k its : tree_get k its = None ↔ k ∉ map fst its.
Proof.
  induction its as [|[k' t'] r IH]; cbn [tree_get map fst].
  - split; [intros _ H; inversion H|reflexivity].
  - rewrite not_elem_of_cons. destruct (key_eqb k k') eqn:E.
    + apply key_eqb_eq in E. split; [discriminate|tauto].
    + rewrite IH. assert (k ≠ k') by (rewrite <- key_eqb_eq; congruence). tauto.
Qed.

Lemma merge_step_get acc k0 S0 k :
  tree_get k (merge_step acc (k0, S0))
  = if key_eqb k k0 then
      match S0, tree_get k0 acc with
      | TDict _, Some Tk => Some (merge_tree Tk S0)
      | _, _ => Some S0
      end
    else tree_get k acc.
Proof.
  unfold merge_step. cbn [fst snd].
  destruct (key_eqb k k0) eqn:E.
  - apply key_eqb_eq in E. subst k0.
    destruct S0; try apply tree_get_set_eq.
    destruct (tree_get k acc); apply tree_get_set_eq.
  - destruct S0; try (apply tree_get_set_ne; exact E).
    destruct (tree_get k0 acc); apply tree_get_set_ne; exact E.
Qed.

(** The merged mapping, key by key: a key the source lacks reads as
    before; a key under which the source holds a mapping and the target
    holds anything reads as the merge of the two; any other key of the
    source reads as the source's value. *)
Lemma merge_fold_get Sits : NoDup (map fst Sits) → ∀ acc k,
  tree_get k (fold_left merge_step Sits acc)
  = match tree_get k Sits with
    | None => tree_get k acc
    | Some Sv =>
        match Sv, tree_get k acc with
        | TDict _, Some Tk => Some (merge_tree Tk Sv)
        | _, _ => Some Sv
        end
    end.
Proof.
  induction Sits as [|[k0 S0] r IH]; intros Hnd acc k; cbn [fold_left tree_get];
    [reflexivity|].
  cbn [map fst] in Hnd. apply NoDup_cons in Hnd as [Hk0 Hnd].
  rewrite (IH Hnd), merge_step_get.
  destruct (key_eqb k k0) eqn:E; [|reflexivity].
  apply key_eqb_eq in E. subst k0.
  apply tree_get_None in Hk0. rewrite Hk0. reflexivity.
Qed.

Lemma cells_valid f : ∀ h v t,
  reify f h v = Some t → ∀ l, l ∈ cells f h v → is_Some (h !! l).
Proof.
  induction f as [|f IH]; intros h v t Hr l Hl.
  - destruct v; cbn in Hr; try discriminate; inversion Hl.
  - destruct v as [| | | |l0]; cbn [cells] in Hl; try (inversion Hl; fail).
    apply reify_ref_inv in Hr as (f0 & [= <-] & Hr).
    destruct Hr as [(items & its & Hl0 & -> & HF)|(elems & ts & Hl0 & -> & HF)];
      rewrite Hl0 in Hl; apply elem_of_cons in Hl as [->|Hl]; eauto;
      apply elem_of_flat_map in Hl as (x & Hx & Hl).
    + apply list_elem_of_lookup_1 in Hx as [i Hi].
      destruct (Forall2_lookup_l _ _ _ _ _ HF Hi) as (kt & _ & _ & Hr).
      eapply IH; eauto.
    + apply list_elem_of_lookup_1 in Hx as [i Hi].
      destruct (Forall2_lookup_l _ _ _ _ _ HF Hi) as (kt & _ & Hr).
      eapply IH; eauto.
Qed.

(** The merge, with what it leaves of the source and of the rest of the
    store. *)
Lemma update_dict_merge_full f h ns t s T S :
  reify f h t = Some T → reify f h s = Some S →
  tree_ok T = true → tree_ok S = true → compat T S = true →
  NoDup (cells f h t) → (∀ l, l ∈ cells f h t → l ∉ cells f h s) →
  ∃ h', update_dict f t s (State h ns) = (Ok tt, State h' ns)
        ∧ reify f h' t = Some (merge_tree T S)
        ∧ reify f h' s = Some S
        ∧ length h' = length h
        ∧ (∀ l, l ∉ cells f h t → h' !! l = h !! l).
Proof.
  intros Ht Hs HokT HokS Hc Hnd Hdisj.
  destruct (update_dict_merge_spec f h ns t s T S Ht Hs HokT HokS Hc Hnd Hdisj)
    as (h' & Hrun & Hlen & Hfr & Hread & _).
  exists h'. split; [exact Hrun|]. split; [exact Hread|].
  split; [|split; [exact Hlen|exact Hfr]].
  rewrite <- Hs. apply reify_frame. intros l Hl. apply Hfr.
  intros Hl'. exact (Hdisj l Hl' Hl).
Qed.

Lemma reify_app f h L v T :
  reify f h v = Some T → reify f (h ++ L) v = Some T.
Proof.
  intros H. destruct (reify_grows f h L v) as [E|E]; congruence.
Qed.

Lemma cells_app f h L v T :
  reify f h v = Some T → cells f (h ++ L) v = cells f h v.
Proof.
  intros H. apply cells_frame. intros l Hl.
  destruct (cells_valid f h v T H l Hl) as [o Ho].
  rewrite Ho. apply lookup_app_l_Some. exact Ho.
Qed.

Lemma cells_bound f h v T l :
  reify f h v = Some T → l ∈ cells f h v → (l < length h)%nat.
Proof.
  intros H Hl. destruct (cells_valid f h v T H l Hl) as [o Ho].
  eapply lookup_lt_Some; eauto.
Qed.

Lemma update_with_data_run limit g self x h ns n :
  ns !! self = Some n → truthy (n_path n) = false →
  update_with limit g self (Some (DVal x)) None (State h ns)
  = update_dict limit (n_data n) x (State (h ++ [ODict []]) ns).
Proof.
  intros Hn Hp. unfold update_with, default_dict. mrun.
  cbn [length dict_iter]. mrun. cbn [length Nat.eqb negb]. mrun.
  unfold _get_value. mrun. rewrite Hn, Hp. mrun. reflexivity.
Qed.

Lemma tree_set_fresh k t its :
  tree_get k its = None → tree_set k t its = its ++ [(k, t)].
Proof.
  induction its as [|[k' t'] r IH]; cbn [tree_get tree_set]; [reflexivity|].
  destruct (key_eqb k k'); [discriminate|]. intros H. rewrite IH by exact H.
  reflexivity.
Qed.

(** Merging into entries that share no key with the source appends the
    source. *)
Lemma merge_fold_fresh Sits : ∀ acc,
  NoDup (map fst acc ++ map fst Sits) →
  fold_left merge_step Sits acc = acc ++ Sits.
Proof.
  induction Sits as [|[k Sv] r IH]; intros acc Hnd; cbn [fold_left].
  - rewrite app_nil_r. reflexivity.
  - cbn [map fst] in Hnd.
    assert (Hk : tree_get k acc = None).
    { apply tree_get_None. eapply NoDup_app_middle; eauto. }
    assert (Hstep : merge_step acc (k, Sv) = acc ++ [(k, Sv)]).
    { unfold merge_step. cbn [fst snd]. rewrite Hk.
      destruct Sv; apply tree_set_fresh; exact Hk. }
    rewrite Hstep, IH.
    + rewrite <- app_assoc. reflexivity.
    + rewrite map_app, <- app_assoc. exact Hnd.
Qed.

Lemma compat_empty Sits : compat (TDict []) (TDict Sits) = true.
Proof.
  change (forallb (fun kv : key * tree =>
                     match snd kv, tree_get (fst kv) [] with
                     | TDict _, Some tk => compat tk (snd kv)
                     | _, _ => true
                     end) Sits = true).
  induction Sits as [|[k Sv] r IH]; cbn [forallb]; [reflexivity|].
  rewrite IH, andb_true_r. cbn [fst snd tree_get]. destruct Sv; reflexivity.
Qed.

(** ** Reads walk the structure *)

Lemma reify_fuel_mono f f' h v t :
  (f ≤ f')%nat → reify f h v = Some t → reify f' h v = Some t.
Proof.
  intros Hle. rewrite <- !reify_on_true.
  apply reify_on_mono; auto.
Qed.

Lemma reify_scalar f h v :
  (∀ l, v ≠ VRef l) →
  reify f h v = Some (match v with
                      | VNone => TNone
                      | VBool b => TBool b
                      | VInt n => TInt n
                      | VStr s => TStr s
                      | VRef _ => TNone
                      end).
Proof. intros H. destruct v, f; try reflexivity; destruct (H l eq_refl). Qed.

(** One subscript, on the store and on the structure. *)
Lemma getitem_tree f h ns node k T :
  reify f h node = Some T →
  match tree_item T k with
  | Some T' => ∃ v, py_getitem node k (State h ns) = (Ok v, State h ns)
                    ∧ reify f h v = Some T'
  | None => ∃ e, py_getitem node k (State h ns) = (Raise e, State h ns)
                 ∧ (e = KeyError ∨ e = IndexError ∨ e = TypeError)
  end.
Proof.
  intros Hr. destruct node as [| | |s|l].
  1-3: rewrite reify_scalar in Hr by discriminate; injection Hr as <-;
       cbn; eauto.
  - rewrite reify_scalar in Hr by discriminate. injection Hr as <-.
    cbn [tree_item py_getitem]. destruct k as [|n]; [cbn; eauto|].
    destruct (norm_index n (String.length s)) as [i|]; cbn; [|eauto].
    destruct (get i s) as [c|]; cbn; [|eauto].
    exists (VStr (String c "")). split; [reflexivity|].
    apply reify_scalar. discriminate.
  - apply reify_ref_inv in Hr as (f0 & -> & Hr).
    unfold py_getitem. rewrite run_load. cbn [heap].
    destruct Hr as [(items & its & -> & -> & HF)|(elems & ts & -> & -> & HF)];
      cbn [tree_item].
    + pose proof (lockstep_get _ _ _ k HF) as Hk.
      destruct (dict_get k items) as [v|].
      * destruct Hk as (t & -> & Hv). exists v. split; [reflexivity|].
        eapply reify_fuel_mono; [|exact Hv]. lia.
      * rewrite Hk. eauto.
    + destruct k as [|n]; [eauto|].
      rewrite <- (Forall2_length _ _ _ HF).
      destruct (norm_index n (length elems)) as [i|];
        cbn [mbind option_bind]; [|eauto].
      destruct (elems !! i) as [v|] eqn:Ei.
      * destruct (Forall2_lookup_l _ _ _ _ _ HF Ei) as (t & -> & Hv).
        exists v. split; [reflexivity|].
        eapply reify_fuel_mono; [|exact Hv]. lia.
      * assert (ts !! i = None) as ->; [|eauto].
        apply lookup_ge_None. rewrite <- (Forall2_length _ _ _ HF).
        apply lookup_ge_None. exact Ei.
Qed.

(** The resolver without [create], on the store and on the structure. *)
Lemma traverse_walk f h ns : ∀ ks node last prev T,
  reify f h node = Some T →
  match walk T ks with
  | Some T' =>
      ∃ cont k, traverse false ks node last prev (State h ns)
                = (Ok (cont, k), State h ns)
        ∧ (ks ≠ [] →
           ∃ kl v, k = Some kl
             ∧ py_getitem cont kl (State h ns) = (Ok v, State h ns)
             ∧ reify f h v = Some T')
  | None =>
      ∃ e, traverse false ks node last prev (State h ns)
           = (Raise e, State h ns)
        ∧ (e = KeyError ∨ e = IndexError)
  end.
Proof.
  induction ks as [|k0 rest IH]; intros node last prev T Hr.
  - cbn [walk traverse]. exists last, prev. split; [reflexivity|]. done.
  - cbn [walk traverse]. rewrite bind_ret.
    pose proof (getitem_tree f h ns node (int_or_keep k0) T Hr) as Hg.
    destruct (tree_item T (int_or_keep k0)) as [T1|]; cbn [mbind option_bind].
    + destruct Hg as (v & Hg & Hv).
      rewrite bind_run. unfold try_except. rewrite Hg.
      specialize (IH v node (Some (int_or_keep k0)) T1 Hv).
      destruct rest as [|k1 rest'].
      * cbn [walk traverse]. exists node, (Some (int_or_keep k0)).
        split; [reflexivity|]. intros _. eauto.
      * destruct (walk T1 (k1 :: rest')) as [T'|].
        -- destruct IH as (cont & k & Htr & Hlast).
           exists cont, k. split; [exact Htr|]. intros _. apply Hlast. done.
        -- exact IH.
    + destruct Hg as (e & Hg & He).
      rewrite bind_run. unfold try_except. rewrite Hg.
      destruct He as [-> | [-> | ->]]; cbn [exc_is]; eauto.
      destruct (is_int (int_or_keep k0)); eauto.
Qed.

Lemma get_value_walk st c n r p D f :
  nodes st !! c = Some n → n_path n = Some p → truthy (Some p) = true →
  nodes st !! n_root n = Some r →
  reify f (heap st) (n_data r) = Some D →
  ∃ v, _get_value c st = (Ok v, st)
       ∧ reify f (heap st) v = Some (default TNone (walk D (key_path_of p))).
Proof.
  intros Hc Hp Ht Hr HD. destruct st as [h ns]. cbn [heap nodes] in *.
  pose proof (traverse_walk f h ns (key_path_of p) (n_data r) (n_data r) None D HD)
    as Hw.
  destruct (walk D (key_path_of p)) as [T'|]; cbn [default].
  - destruct Hw as (cont & k & Htr & Hlast).
    destruct (Hlast (key_path_of_nonempty p)) as (kl & v & -> & Hg & Hv).
    exists v. split; [|exact Hv].
    eapply get_value_eval; eauto.
  - destruct Hw as (e & Htr & He). exists VNone. split.
    + eapply get_value_eval_missing; eauto.
      destruct He as [-> | ->]; reflexivity.
    + apply (reify_scalar f h VNone). discriminate.
Qed.

(** [__getitem__], on the store and on the structure. *)
Lemma getitem_walk limit self k st n r D f :
  nodes st !! self = Some n → nodes st !! n_root n = Some r →
  reify f (heap st) (n_data r) = Some D →
  truthy (Some (child_path (n_path n) k)) = true →
  let c := length (nodes st) in
  let st' := snd (__getitem__ limit self k st) in
  let found := walk D (key_path_of (child_path (n_path n) k)) in
  fst (__getitem__ limit self k st) = Ok (item_of c found)
  ∧ ∃ v, _get_value c st' = (Ok v, st')
         ∧ reify f (heap st') v = Some (default TNone found).
Proof.
  intros Hn Hr HD Ht c st' found.
  set (p := child_path (n_path n) k) in *.
  set (st1 := with_node st (n_root n) (Some p)).
  assert (Hc1 : nodes st1 !! c
                = Some (CNode (n_root n) (Some p) (VRef (length (heap st)))
                          (VRef (length (heap st) + 1)))).
  { unfold st1, with_node, c. cbn [nodes]. apply list_lookup_middle. reflexivity. }
  assert (Hr1 : nodes st1 !! n_root n = Some r).
  { unfold st1, with_node. cbn [nodes]. apply lookup_app_l_Some. exact Hr. }
  assert (HD1 : reify f (heap st1) (n_data r) = Some D).
  { unfold st1, with_node. cbn [heap]. apply reify_app. exact HD. }
  destruct (get_value_walk st1 c _ r p D f Hc1 eq_refl Ht Hr1 HD1)
    as (v & Hv & Hvt).
  fold found in Hvt.
  assert (Hget : __getitem__ limit self k st
                 = (Ok (match v with
                        | VNone | VRef _ => View c
                        | VBool _ | VInt _ | VStr _ => Raw v
                        end), st1)).
  { apply (getitem_eval limit self k st n v Hn); [exact Hv|].
    intros l ->. fold p. fold st1.
    destruct f as [|f0]; [cbn in Hvt; discriminate|].
    cbn [reify] in Hvt. destruct (heap st1 !! l); [eauto|discriminate]. }
  subst st'. rewrite Hget. cbn [fst snd]. split; [|eauto].
  f_equal. destruct v as [| | | |l].
  1-4: rewrite reify_scalar in Hvt by discriminate; injection Hvt as Hvt;
       destruct found as [[]|]; cbn in Hvt |- *; congruence.
  apply reify_ref_inv in Hvt as (f0 & -> & Hvt).
  destruct Hvt as [(items & its & _ & Hf & _)|(elems & ts & _ & Hf & _)];
    destruct found as [[]|]; cbn in Hf |- *; congruence.
Qed.

(** ** [int(str(n))] and the segments of a child path *)

Lemma append_empty_r s : (s +:+ "")%string = s.
Proof.
  induction s as [|c r IH]; [reflexivity|].
  change (String c r +:+ "") with (String c (r +:+ "")). f_equal. exact IH.
Qed.

Lemma rev_app_rev_app s : ∀ a b,
  String.rev_app (String.rev_app s a) b = String.rev_app a (s +:+ b).
Proof.
  induction s as [|c r IH]; intros a b; [reflexivity|].
  change (String.rev_app (String.rev_app r (String c a)) b
          = String.rev_app (String c a) (r +:+ b)).
  apply IH.
Qed.

Lemma rev_involutive s : String.rev (String.rev s) = s.
Proof.
  unfold String.rev. rewrite rev_app_rev_app.
  change (String.rev_app "" (s +:+ "")) with (s +:+ ""). apply append_empty_r.
Qed.

Lemma all_chars_rev_app P s : ∀ a,
  all_chars P (String.rev_app s a) = (all_chars P s && all_chars P a)%bool.
Proof.
  induction s as [|c r IH]; intros a; cbn; [reflexivity|].
  rewrite IH. cbn. destruct (P c), (all_chars P r); reflexivity.
Qed.

Lemma all_chars_impl (P Q : ascii → bool) s :
  (∀ c, P c = true → Q c = true) →
  all_chars P s = true → all_chars Q s = true.
Proof.
  intros H. induction s as [|c r IH]; cbn; [reflexivity|].
  intros [Hc Hr]%andb_true_iff. rewrite (H c Hc), IH by exact Hr. reflexivity.
Qed.

Lemma lstrip_id s :
  all_chars (fun c => negb (is_py_space c)) s = true → lstrip s = s.
Proof.
  destruct s as [|c r]; cbn; [reflexivity|].
  intros [Hc _]%andb_true_iff. apply negb_true_iff in Hc. rewrite Hc.
  reflexivity.
Qed.

Lemma strip_id s :
  all_chars (fun c => negb (is_py_space c)) s = true → strip s = s.
Proof.
  intros H. unfold strip. rewrite (lstrip_id s H), lstrip_id.
  - apply rev_involutive.
  - unfold String.rev. rewrite all_chars_rev_app, H. reflexivity.
Qed.

Lemma digit_of_bounds c d :
  digit_of c = Some d →
  (48 ≤ nat_of_ascii c ≤ 57)%nat ∧ d = Z.of_nat (nat_of_ascii c - 48).
Proof.
  unfold digit_of.
  destruct (48 <=? nat_of_ascii c)%nat eqn:E1; [|discriminate].
  destruct (nat_of_ascii c <=? 57)%nat eqn:E2; [|discriminate].
  cbn. intros [= <-]. apply Nat.leb_le in E1, E2. auto.
Qed.

Lemma is_digit_not_space c : is_digit c = true → negb (is_py_space c) = true.
Proof.
  unfold is_digit. destruct (digit_of c) as [d|] eqn:E; [|discriminate].
  intros _. apply digit_of_bounds in E as [[H1 H2] _].
  unfold is_py_space. cbv zeta. apply negb_true_iff.
  assert ((nat_of_ascii c <=? 13)%nat = false) as -> by (apply Nat.leb_gt; lia).
  assert ((nat_of_ascii c =? 32)%nat = false) as -> by (apply Nat.eqb_neq; lia).
  assert ((nat_of_ascii c =? 133)%nat = false) as -> by (apply Nat.eqb_neq; lia).
  assert ((nat_of_ascii c =? 160)%nat = false) as -> by (apply Nat.eqb_neq; lia).
  rewrite andb_false_r. reflexivity.
Qed.

Lemma is_digit_not_dot c : is_digit c = true → negb (Ascii.eqb c ".") = true.
Proof.
  intros H. apply negb_true_iff, Ascii.eqb_neq. intros ->. discriminate.
Qed.

Lemma split_on_nodot s :
  all_chars (fun c => negb (Ascii.eqb c ".")) s = true → split_on "." s = [s].
Proof.
  induction s as [|c r IH]; cbn; [reflexivity|].
  intros [Hc Hr]%andb_true_iff. apply negb_true_iff in Hc. rewrite Hc.
  rewrite (IH Hr). reflexivity.
Qed.

(** [(a + sep + b).split(sep) == a.split(sep) + b.split(sep)] *)
Lemma split_on_app sep a b :
  split_on sep (a +:+ String sep b) = split_on sep a ++ split_on sep b.
Proof.
  induction a as [|c r IH].
  - change ("" +:+ String sep b) with (String sep b). cbn [split_on].
    rewrite Ascii.eqb_refl. reflexivity.
  - change (String c r +:+ String sep b) with (String c (r +:+ String sep b)).
    cbn [split_on].
    destruct (Ascii.eqb c sep); rewrite IH; [reflexivity|].
    destruct (split_on sep r) as [|h0 t0] eqn:E; [|reflexivity].
    destruct (split_on_nonempty sep r E).
Qed.

Lemma pretty_N_char_digit d :
  (d < 10)%N → digit_of (pretty_N_char d) = Some (Z.of_N d).
Proof.
  intros H.
  assert (d = 0 ∨ d = 1 ∨ d = 2 ∨ d = 3 ∨ d = 4 ∨ d = 5 ∨ d = 6 ∨ d = 7
          ∨ d = 8 ∨ d = 9)%N as Hd by lia.
  repeat (destruct Hd as [->|Hd]; [reflexivity|]). subst d. reflexivity.
Qed.

Lemma pretty_N_go_digits x : ∀ s,
  all_chars is_digit s = true → all_chars is_digit (pretty_N_go x s) = true.
Proof.
  induction (N.lt_wf_0 x) as [x _ IH]; intros s Hs.
  assert (x = 0 ∨ 0 < x)%N as [->|Hx] by lia; [exact Hs|].
  rewrite pretty_N_go_step by exact Hx. apply IH.
  - apply N.div_lt; lia.
  - cbn [all_chars]. rewrite Hs, andb_true_r. unfold is_digit.
    rewrite pretty_N_char_digit; [reflexivity|]. apply N.mod_lt. lia.
Qed.

Lemma parse_pretty_N_go x : (0 < x)%N →
  ∃ m, ∀ acc b s,
    parse_digits acc b (pretty_N_go x s)
    = parse_digits (acc * m + Z.of_N x) true s.
Proof.
  induction (N.lt_wf_0 x) as [x _ IH]; intros Hx.
  assert (Hd : digit_of (pretty_N_char (x `mod` 10))
               = Some (Z.of_N (x `mod` 10))).
  { apply pretty_N_char_digit, N.mod_lt. lia. }
  assert (Hx10 : (Z.of_N x = 10 * Z.of_N (x `div` 10) + Z.of_N (x `mod` 10))%Z).
  { rewrite (N.div_mod x 10) at 1 by lia. lia. }
  destruct (N.eq_0_gt_0_cases (x `div` 10)) as [Hq|Hq].
  - exists 10. intros acc b s.
    rewrite pretty_N_go_step by exact Hx. rewrite Hq, pretty_N_go_0.
    cbn [parse_digits]. rewrite Hd. f_equal. rewrite Hx10, Hq. lia.
  - destruct (IH (x `div` 10)%N) as [m Hm]; [apply N.div_lt; lia|exact Hq|].
    exists (m * 10). intros acc b s.
    rewrite pretty_N_go_step by exact Hx. rewrite Hm.
    cbn [parse_digits]. rewrite Hd. f_equal. rewrite Hx10. lia.
Qed.

Lemma py_int_digits t :
  all_chars is_digit t = true → py_int t = parse_digits 0 false t.
Proof.
  intros H. unfold py_int. rewrite strip_id.
  - destruct t as [|c r]; [reflexivity|].
    cbn [all_chars] in H. apply andb_true_iff in H as [Hc _].
    destruct (Ascii.eqb c "+") eqn:E1; [apply Ascii.eqb_eq in E1; subst; discriminate|].
    destruct (Ascii.eqb c "-") eqn:E2; [apply Ascii.eqb_eq in E2; subst; discriminate|].
    apply Ascii.eqb_neq in E1, E2.
    destruct c as [[] [] [] [] [] [] [] []]; try reflexivity; congruence.
  - eapply all_chars_impl; [|exact H]. apply is_digit_not_space.
Qed.

Lemma pretty_pos_digits p :
  all_chars is_digit (pretty (N.pos p)) = true
  ∧ parse_digits 0 false (pretty (N.pos p)) = Some (Z.pos p).
Proof.
  unfold pretty, pretty_N. destruct (decide (N.pos p = 0%N)) as [|_]; [lia|].
  split; [apply pretty_N_go_digits; reflexivity|].
  destruct (parse_pretty_N_go (N.pos p)) as [m Hm]; [lia|].
  rewrite Hm. cbn. reflexivity.
Qed.

(** [int(str(n)) == n] *)
Lemma py_int_pretty (z : Z) : py_int (pretty z) = Some z.
Proof.
  destruct z as [|p|p]; [reflexivity| |].
  - change (pretty (Z.pos p)) with (pretty (N.pos p)).
    destruct (pretty_pos_digits p) as [Hd Hp].
    rewrite py_int_digits by exact Hd. exact Hp.
  - change (pretty (Z.neg p)) with (String "-" (pretty (N.pos p))).
    destruct (pretty_pos_digits p) as [Hd Hp].
    unfold py_int. rewrite strip_id.
    + rewrite Hp. reflexivity.
    + cbn [all_chars]. apply andb_true_iff. split; [reflexivity|].
      eapply all_chars_impl; [|exact Hd]. apply is_digit_not_space.
Qed.

Lemma pretty_nodot (z : Z) : split_on "." (pretty z) = [pretty z].
Proof.
  apply split_on_nodot. destruct z as [|p|p]; [reflexivity| |].
  - change (pretty (Z.pos p)) with (pretty (N.pos p)).
    eapply all_chars_impl; [|apply (pretty_pos_digits p)]. apply is_digit_not_dot.
  - change (pretty (Z.neg p)) with (String "-" (pretty (N.pos p))).
    cbn [all_chars]. apply andb_true_iff. split; [reflexivity|].
    eapply all_chars_impl; [|apply (pretty_pos_digits p)]. apply is_digit_not_dot.
Qed.

Lemma int_or_keep_idem k : int_or_keep (int_or_keep k) = int_or_keep k.
Proof.
  destruct k as [s|n]; cbn [int_or_keep]; [|reflexivity].
  destruct (py_int s) eqn:E; cbn [int_or_keep]; [reflexivity|].
  rewrite E. reflexivity.
Qed.

Lemma key_str_segments q :
  map int_or_keep (map KStr (split_on "." (key_str q)))
  = map int_or_keep (key_path_of q).
Proof.
  destruct q as [s|n]; cbn [key_str key_path_of]; [reflexivity|].
  rewrite pretty_nodot. cbn [map int_or_keep]. rewrite py_int_pretty.
  reflexivity.
Qed.

Lemma key_path_compose p k :
  truthy (Some p) = true →
  map int_or_keep (key_path_of (child_path (Some p) k))
  = map int_or_keep (key_path_of p) ++ map int_or_keep (key_path_of k).
Proof.
  intros Ht. cbn [child_path]. rewrite Ht. cbn [key_path_of].
  change ("." ++ key_str k)%string with (String "." (key_str k)).
  rewrite split_on_app, !map_app, !key_str_segments. reflexivity.
Qed.

Lemma traverse_segments create : ∀ ks node last prev st,
  traverse create (map int_or_keep ks) node last prev st
  = traverse create ks node last prev st.
Proof.
  induction ks as [|k0 rest IH]; intros node last prev st; cbn [map traverse];
    [reflexivity|].
  rewrite int_or_keep_idem, !bind_run.
  destruct ((if create then vivify node (int_or_keep k0) else ret tt) st)
    as [[[]|e] st1]; [|reflexivity].
  rewrite !bind_run.
  destruct (try_except _ _ _ st1) as [[node'|e] st2]; [apply IH|reflexivity].
Qed.

Lemma walk_segments : ∀ ks t, walk t (map int_or_keep ks) = walk t ks.
Proof.
  induction ks as [|k0 rest IH]; intros t; cbn [map walk]; [reflexivity|].
  rewrite int_or_keep_idem.
  destruct (tree_item t (int_or_keep k0)); cbn [mbind option_bind]; auto.
Qed.

Lemma walk_app : ∀ ks1 ks2 t,
  walk t (ks1 ++ ks2) = (t' ← walk t ks1; walk t' ks2).
Proof.
  induction ks1 as [|k0 rest IH]; intros ks2 t; cbn [app walk]; [reflexivity|].
  destruct (tree_item t (int_or_keep k0)); cbn [mbind option_bind]; auto.
Qed.

(** ** Writes put the value at the end of the path *)

Lemma put_last t k0 v :
  put t [k0] v
  = match t with
    | TDict its => Some (TDict (tree_set (int_or_keep k0) v its))
    | TList ts =>
        match int_or_keep k0 with
        | KInt n => i ← norm_index n (length ts); Some (TList (<[i := v]> ts))
        | KStr _ => None
        end
    | _ => None
    end.
Proof. reflexivity. Qed.

Lemma put_more t k0 k1 rest v :
  put t (k0 :: k1 :: rest) v
  = match t with
    | TDict its =>
        t1' ← put (default (TDict []) (tree_get (int_or_keep k0) its))
                (k1 :: rest) v;
        Some (TDict (tree_set (int_or_keep k0) t1' its))
    | TList ts =>
        match int_or_keep k0 with
        | KInt n =>
            i ← norm_index n (length ts);
            t1 ← ts !! i;
            t1' ← put t1 (k1 :: rest) v;
            Some (TList (<[i := t1']> ts))
        | KStr _ => None
        end
    | _ => None
    end.
Proof. reflexivity. Qed.

Lemma write_at_last nd last k v st :
  write_at [] nd last (Some k) v st = py_setitem last k v st.
Proof. reflexivity. Qed.

Lemma write_at_step k0 rest nd last prev v st nd' st1 :
  traverse true (k0 :: rest) nd last prev st
  = traverse true rest nd' nd (Some (int_or_keep k0)) st1 →
  write_at (k0 :: rest) nd last prev v st
  = write_at rest nd' nd (Some (int_or_keep k0)) v st1.
Proof. intros H. unfold write_at. rewrite !bind_run, H. reflexivity. Qed.

(** One round of the resolver over a sequence, at an index it has. *)
Lemma traverse_list_index create k0 rest l elems n i x last prev st :
  heap st !! l = Some (OList elems) →
  int_or_keep k0 = KInt n →
  norm_index n (length elems) = Some i → elems !! i = Some x →
  traverse create (k0 :: rest) (VRef l) last prev st
  = traverse create rest x (VRef l) (Some (KInt n)) st.
Proof.
  intros Hl Hk Hn Hx. cbn [traverse]. rewrite Hk.
  assert (Hv : (if create then vivify (VRef l) (KInt n) else ret tt) st
               = (Ok tt, st)).
  { destruct create; [|reflexivity].
    unfold vivify, is_dict, is_list, py_len.
    rewrite !bind_assoc, run_load, Hl, bind_ret, bind_ret.
    rewrite !bind_assoc, run_load, Hl, bind_ret.
    rewrite !bind_assoc, run_load, Hl, bind_ret.
    assert ((Z.of_nat (length elems) <? n)%Z = false) as ->; [|reflexivity].
    apply Z.ltb_ge. unfold norm_index in Hn.
    destruct (n <? 0)%Z eqn:E; [apply Z.ltb_lt in E; lia|].
    destruct ((0 <=? n)%Z && (n <? Z.of_nat (length elems))%Z)%bool eqn:E2;
      [|discriminate].
    apply andb_true_iff in E2 as [_ E2]. apply Z.ltb_lt in E2. lia. }
  rewrite bind_run, Hv. unfold try_except, py_getitem.
  rewrite bind_run, run_load, Hl, Hn, Hx. reflexivity.
Qed.

Lemma reify_kept f g h h' v t :
  reify f h v = Some t → (f ≤ g)%nat →
  (∀ l, l ∈ cells f h v → h' !! l = h !! l) →
  reify g h' v = Some t.
Proof.
  intros Hr Hle Hfr. apply (reify_fuel_mono f g); [exact Hle|].
  rewrite (reify_frame f h h' v Hfr). exact Hr.
Qed.

Lemma reify_dict_intro g h l items its :
  h !! l = Some (ODict items) →
  Forall2 (item_rel (fun v t => reify g h v = Some t)) items its →
  reify (S g) h (VRef l) = Some (TDict its).
Proof.
  intros Hl HF. cbn [reify]. rewrite Hl.
  apply mapM_items_Some in HF. rewrite HF. reflexivity.
Qed.

Lemma reify_list_intro g h l elems ts :
  h !! l = Some (OList elems) →
  Forall2 (fun v t => reify g h v = Some t) elems ts →
  reify (S g) h (VRef l) = Some (TList ts).
Proof.
  intros Hl HF. cbn [reify]. rewrite Hl.
  apply mapM_Some in HF. rewrite HF. reflexivity.
Qed.

Lemma reify_list_inv f h v ts :
  reify f h v = Some (TList ts) →
  ∃ f0 l elems, f = S f0 ∧ v = VRef l ∧ h !! l = Some (OList elems)
    ∧ Forall2 (fun v t => reify f0 h v = Some t) elems ts.
Proof.
  destruct v as [| | | |l].
  1-4: destruct f; cbn [reify]; discriminate.
  intros H. apply reify_ref_inv in H as (f0 & -> & H).
  destruct H as [(items & its' & _ & [=] & _)|(elems & ts' & Hl & [= ->] & HF)].
  exists f0, l, elems. auto.
Qed.

Lemma entries_kept f0 g h h' items its :
  Forall2 (item_rel (fun v t => reify f0 h v = Some t)) items its →
  (f0 ≤ g)%nat →
  (∀ k' v' l', (k', v') ∈ items → l' ∈ cells f0 h v' → h' !! l' = h !! l') →
  Forall2 (item_rel (fun v t => reify g h' v = Some t)) items its.
Proof.
  intros HF Hle Hfr. eapply lockstep_weaken; [exact HF|].
  intros k' v' t' Hin Hr. cbn beta in *.
  apply (reify_kept f0 g h h' v' t' Hr Hle). intros l' Hl'. eapply Hfr; eauto.
Qed.

(** The cells under the entries of a mapping that is visited once. *)
Lemma dict_entry_cells f0 h l items its k' v' l' :
  h !! l = Some (ODict items) →
  Forall2 (item_rel (fun v t => reify f0 h v = Some t)) items its →
  NoDup (l :: flat_map (fun kv => cells f0 h (snd kv)) items) →
  (k', v') ∈ items → l' ∈ cells f0 h v' →
  l' ≠ l ∧ (l' < length h)%nat.
Proof.
  intros Hl HF Hnd Hin Hl'. split.
  - apply NoDup_cons in Hnd as [Hn _]. intros ->. apply Hn.
    apply elem_of_flat_map. exists (k', v'). split; [exact Hin|exact Hl'].
  - apply list_elem_of_lookup_1 in Hin as [i Hi].
    destruct (Forall2_lookup_l _ _ _ _ _ HF Hi) as (kt & _ & _ & Hr).
    eapply cells_bound; eauto.
Qed.

Section WriteAt.

Variable fv : nat.
Variable v : val.
Variable V : tree.
Variable ns : list cnode.

(** Assigning under a key of a mapping, whether the resolver had to
    create the entry or found it. *)
Lemma write_at_dict_last k0 l items h last prev :
  h !! l = Some (ODict items) →
  ∃ h', write_at [k0] (VRef l) last prev v (State h ns) = (Ok tt, State h' ns)
    ∧ h' !! l = Some (ODict (dict_set (int_or_keep k0) v items))
    ∧ (length h ≤ length h')%nat
    ∧ (∀ l', (l' < length h)%nat → l' ≠ l → h' !! l' = h !! l').
Proof.
  intros Hl.
  assert (Hlt : (l < length h)%nat) by (eapply lookup_lt_Some; eauto).
  destruct (dict_get (int_or_keep k0) items) as [v1|] eqn:Hg.
  - exists (<[l := ODict (dict_set (int_or_keep k0) v items)]> h).
    split; [|split; [|split]].
    + rewrite (write_at_step k0 [] (VRef l) last prev v _ v1 (State h ns)).
      * rewrite write_at_last. unfold py_setitem. rewrite run_load. cbn [heap].
        rewrite Hl. reflexivity.
      * apply traverse_dict_present with items; assumption.
    + apply list_lookup_insert_eq. exact Hlt.
    + rewrite length_insert. lia.
    + intros l' _ Hne. apply list_lookup_insert_ne. congruence.
  - exists (<[l := ODict (dict_set (int_or_keep k0) v items)]> (h ++ [ODict []])).
    split; [|split; [|split]].
    + rewrite (write_at_step k0 [] (VRef l) last prev v _ (VRef (length h))
                 (State (<[l := ODict (dict_set (int_or_keep k0)
                                         (VRef (length h)) items)]>
                           (h ++ [ODict []])) ns)).
      * rewrite write_at_last. unfold py_setitem. rewrite run_load. cbn [heap].
        rewrite list_lookup_insert_eq by (rewrite length_app; cbn; lia).
        unfold store. cbn [heap nodes].
        rewrite list_insert_insert_eq, dict_set_set. reflexivity.
      * apply traverse_dict_create; assumption.
    + apply list_lookup_insert_eq. rewrite length_app. cbn. lia.
    + rewrite length_insert, length_app. lia.
    + intros l' Hl' Hne. rewrite list_lookup_insert_ne by congruence.
      apply lookup_app_l. exact Hl'.
Qed.

Lemma write_at_put : ∀ ks f h nd last prev T T',
  reify f h nd = Some T → tree_ok T = true → NoDup (cells f h nd) →
  reify fv h v = Some V →
  (∀ l, l ∈ cells fv h v → l ∉ cells f h nd) →
  put T ks V = Some T' →
  ∃ h', write_at ks nd last prev v (State h ns) = (Ok tt, State h' ns)
    ∧ reify (f + fv + length ks) h' nd = Some T'
    ∧ (length h ≤ length h')%nat
    ∧ (∀ l, (l < length h)%nat → l ∉ cells f h nd → h' !! l = h !! l).
Proof.
  induction ks as [|k0 rest IH]; intros f h nd last prev T T' HT Hok Hnd HV Hdisj Hput;
    [cbn [put] in Hput; discriminate Hput|].
  assert (Hvb : ∀ l', l' ∈ cells fv h v → (l' < length h)%nat).
  { intros l' Hl'. eapply cells_bound; eauto. }
  destruct T as [| | | |its|ts];
    try (destruct rest; [rewrite put_last in Hput|rewrite put_more in Hput];
         discriminate Hput).
  - (* a mapping *)
    apply reify_dict_inv in HT as (f0 & l & items & -> & -> & Hl & HF).
    cbn [cells] in Hnd, Hdisj. rewrite Hl in Hnd, Hdisj.
    destruct (tree_ok_dict _ Hok) as [HkT HallT].
    rewrite (item_rel_keys _ _ _ HF) in HkT.
    assert (Hlt : (l < length h)%nat) by (eapply lookup_lt_Some; eauto).
    assert (Hent : ∀ k' v' l', (k', v') ∈ items → l' ∈ cells f0 h v' →
              l' ≠ l ∧ (l' < length h)%nat).
    { intros k' v' l'. eapply dict_entry_cells; eauto. }
    assert (Hvl : ∀ l', l' ∈ cells fv h v → l' ≠ l).
    { intros l' Hl' ->. apply (Hdisj l Hl'). left. }
    destruct rest as [|k1 rest'].
    + (* the last segment *)
      rewrite put_last in Hput. injection Hput as <-.
      destruct (write_at_dict_last k0 l items h last prev Hl)
        as (h' & Hrun & Hl' & Hlen & Hfr).
      exists h'. split; [exact Hrun|]. split; [|split; [exact Hlen|]].
      * replace (S f0 + fv + length [k0])%nat with (S (f0 + fv + 1))
          by (cbn [length]; lia).
        apply reify_dict_intro with (items := dict_set (int_or_keep k0) v items);
          [exact Hl'|].
        apply lockstep_set.
        -- apply (entries_kept f0 _ h h'); [exact HF|lia|].
           intros k' v' l' Hin Hc. destruct (Hent k' v' l' Hin Hc). auto.
        -- apply (reify_kept fv _ h h' v V HV); [lia|].
           intros l' Hc. apply Hfr; auto.
      * intros l' Hlt' Hn. cbn [cells] in Hn. rewrite Hl in Hn. apply Hfr; [exact Hlt'|].
        intros ->. apply Hn. left.
    + (* further segments *)
      rewrite put_more in Hput. set (k := int_or_keep k0) in *.
      pose proof (lockstep_get _ _ _ k HF) as Hk.
      destruct (dict_get k items) as [v1|] eqn:Hg.
      * (* the entry is there *)
        destruct Hk as (T1 & HT1 & Hr1). rewrite HT1 in Hput. cbn [from_option id] in Hput.
        destruct (put T1 (k1 :: rest') V) as [T1'|] eqn:Hp1; [|cbn [mbind option_bind] in Hput; discriminate Hput].
        cbn [mbind option_bind] in Hput. injection Hput as <-.
        assert (Hin1 : (k, v1) ∈ items) by (apply dict_get_elem, Hg).
        assert (Hok1 : tree_ok T1 = true).
        { rewrite Forall_forall in HallT.
          apply (HallT (k, T1)), tree_get_elem, HT1. }
        destruct (IH f0 h v1 (VRef l) (Some k) T1 T1' Hr1 Hok1)
          as (h' & Hrun & Hread & Hlen & Hfr); [| exact HV | | exact Hp1 |].
        { pose proof Hnd as Hnd'. apply NoDup_cons in Hnd' as [_ Hn].
          apply NoDup_flat_map_inv in Hn as [Hn _]. apply (Hn (k, v1) Hin1). }
        { intros l' Hc Hc1. apply (Hdisj l' Hc). right.
          apply elem_of_flat_map. exists (k, v1). split; [exact Hin1|exact Hc1]. }
        exists h'. split; [|split; [|split; [exact Hlen|]]].
        -- rewrite (write_at_step k0 (k1 :: rest') (VRef l) last prev v _ v1
                      (State h ns)); [exact Hrun|].
           apply traverse_dict_present with items; assumption.
        -- replace (S f0 + fv + length (k0 :: k1 :: rest'))%nat
             with (S (f0 + fv + length (k1 :: rest') + 1))
             by (cbn [length]; lia).
           assert (Hl1 : ∀ l', l' ∈ cells f0 h v1 → l' ≠ l).
           { intros l' Hc. apply (Hent k v1 l' Hin1 Hc). }
           apply reify_dict_intro with (items := items).
           { rewrite Hfr; [exact Hl|exact Hlt|]. intros Hc. exact (Hl1 l Hc eq_refl). }
           eapply lockstep_set_at; [exact HF|exact HkT|exact Hg| |].
           ++ cbn beta. apply (reify_fuel_mono (f0 + fv + length (k1 :: rest')));
                [lia|exact Hread].
           ++ intros k' v' t' Hin' Hne Hr. cbn beta in *.
              apply (reify_kept f0 _ h h' v' t' Hr); [lia|].
              intros l' Hc. destruct (Hent k' v' l' Hin' Hc) as [_ Hb].
              apply Hfr; [exact Hb|]. intros Hc1. revert Hc.
              apply (merge_target_disjoint f0 h l items Hnd k v1 k' v' l' Hg);
                [|congruence|exact Hc1].
              apply elem_dict_get; assumption.
        -- intros l' Hb Hn. cbn [cells] in Hn. rewrite Hl in Hn. apply Hfr; [exact Hb|]. intros Hc1. apply Hn.
           right. apply elem_of_flat_map. exists (k, v1). split; [exact Hin1|exact Hc1].
      * (* the entry is created *)
        rewrite Hk in Hput. cbn [from_option id] in Hput.
        destruct (put (TDict []) (k1 :: rest') V) as [T1'|] eqn:Hp1; [|cbn [mbind option_bind] in Hput; discriminate Hput].
        cbn [mbind option_bind] in Hput. injection Hput as <-.
        set (e := length h).
        set (h1 := <[l := ODict (dict_set k (VRef e) items)]> (h ++ [ODict []])).
        assert (Hh1 : ∀ l', (l' < length h)%nat → l' ≠ l → h1 !! l' = h !! l').
        { intros l' Hb Hne. unfold h1. rewrite list_lookup_insert_ne by congruence.
          apply lookup_app_l. exact Hb. }
        assert (Hlen1 : length h1 = S (length h)).
        { unfold h1. rewrite length_insert, length_app. cbn. lia. }
        assert (He : h1 !! e = Some (ODict [])).
        { unfold h1, e. rewrite list_lookup_insert_ne by lia.
          rewrite lookup_app_here. reflexivity. }
        assert (Hce : cells 1 h1 (VRef e) = [e]).
        { cbn [cells]. rewrite He. reflexivity. }
        assert (HV1 : reify fv h1 v = Some V).
        { apply (reify_kept fv fv h h1 v V HV); [lia|].
          intros l' Hc. apply Hh1; auto. }
        assert (Hcv1 : cells fv h1 v = cells fv h v).
        { apply cells_frame. intros l' Hc. apply Hh1; auto. }
        destruct (IH 1%nat h1 (VRef e) (VRef l) (Some k) (TDict []) T1')
          as (h' & Hrun & Hread & Hlen & Hfr); auto.
        { cbn [reify]. rewrite He. reflexivity. }
        { rewrite Hce. apply NoDup_singleton. }
        { rewrite Hce, Hcv1. intros l' Hc Hc'.
          apply list_elem_of_singleton in Hc'. specialize (Hvb l' Hc). lia. }
        rewrite Hce in Hfr.
        assert (Hfr' : ∀ l', (l' < length h)%nat → h' !! l' = h1 !! l').
        { intros l' Hb. apply Hfr; [lia|]. intros Hc.
          apply list_elem_of_singleton in Hc. unfold e in Hc. lia. }
        exists h'. split; [|split; [|split]].
        -- rewrite (write_at_step k0 (k1 :: rest') (VRef l) last prev v _ (VRef e)
                      (State h1 ns)); [exact Hrun|].
           apply traverse_dict_create; assumption.
        -- replace (S f0 + fv + length (k0 :: k1 :: rest'))%nat
             with (S (f0 + fv + length (k1 :: rest') + 1))
             by (cbn [length]; lia).
           apply reify_dict_intro with (items := dict_set k (VRef e) items).
           { rewrite Hfr' by exact Hlt. unfold h1.
             apply list_lookup_insert_eq. rewrite length_app. cbn. lia. }
           apply lockstep_set.
           ++ apply (entries_kept f0 _ h h'); [exact HF|lia|].
              intros k' v' l' Hin Hc. destruct (Hent k' v' l' Hin Hc) as [Hne Hb].
              rewrite Hfr' by exact Hb. apply Hh1; assumption.
           ++ apply (reify_fuel_mono (1 + fv + length (k1 :: rest'))); [lia|].
              exact Hread.
        -- lia.
        -- intros l' Hb Hn. cbn [cells] in Hn. rewrite Hl in Hn. rewrite Hfr' by exact Hb. apply Hh1; [exact Hb|].
           intros ->. apply Hn. left.
  - (* a sequence *)
    apply reify_list_inv in HT as (f0 & l & elems & -> & -> & Hl & HF).
    cbn [cells] in Hnd, Hdisj. rewrite Hl in Hnd, Hdisj.
    pose proof (Forall2_length _ _ _ HF) as Hlen0.
    assert (Hlt : (l < length h)%nat) by (eapply lookup_lt_Some; eauto).
    assert (Hent : ∀ j x l', elems !! j = Some x → l' ∈ cells f0 h x →
              l' ≠ l ∧ (l' < length h)%nat).
    { intros j x l' Hj Hc. split.
      - pose proof Hnd as Hnd'. apply NoDup_cons in Hnd' as [Hn _].
        intros ->. apply Hn. apply elem_of_flat_map. exists x.
        split; [eapply list_elem_of_lookup_2; eauto|exact Hc].
      - destruct (Forall2_lookup_l _ _ _ _ _ HF Hj) as (t & _ & Hr).
        eapply cells_bound; eauto. }
    assert (Hvl : ∀ l', l' ∈ cells fv h v → l' ≠ l).
    { intros l' Hl' ->. apply (Hdisj l Hl'). left. }
    destruct (int_or_keep k0) as [s|n] eqn:Hk0;
      [destruct rest; [rewrite put_last in Hput|rewrite put_more in Hput];
       rewrite Hk0 in Hput; discriminate Hput|].
    destruct (norm_index n (length ts)) as [i|] eqn:Hi; cycle 1.
    { destruct rest; [rewrite put_last in Hput|rewrite put_more in Hput];
        rewrite Hk0, Hi in Hput; cbn [mbind option_bind] in Hput;
        discriminate Hput. }
    assert (Hi' : norm_index n (length elems) = Some i) by (rewrite Hlen0; exact Hi).
    assert (Hib : (i < length elems)%nat).
    { unfold norm_index in Hi'.
      destruct ((0 <=? _)%Z && _)%bool eqn:E; [|discriminate].
      injection Hi' as <-. apply andb_true_iff in E as [E1 E2].
      apply Z.leb_le in E1. apply Z.ltb_lt in E2. lia. }
    destruct (lookup_lt_is_Some_2 elems i Hib) as [x Hx].
    destruct (Forall2_lookup_l _ _ _ _ _ HF Hx) as (T1 & HT1 & Hr1).
    destruct rest as [|k1 rest'].
    + (* the last segment *)
      rewrite put_last in Hput. rewrite Hk0, Hi in Hput.
      cbn [mbind option_bind] in Hput.
      injection Hput as <-.
      exists (<[l := OList (<[i := v]> elems)]> h). split; [|split; [|split]].
      * rewrite (write_at_step k0 [] (VRef l) last prev v _ x (State h ns)).
        -- rewrite write_at_last, Hk0. unfold py_setitem. rewrite run_load.
           cbn [heap]. rewrite Hl, Hi'. reflexivity.
        -- rewrite Hk0. eapply traverse_list_index; eauto.
      * replace (S f0 + fv + length [k0])%nat with (S (f0 + fv + 1))
          by (cbn [length]; lia).
        apply reify_list_intro with (elems := <[i := v]> elems).
        { apply list_lookup_insert_eq. exact Hlt. }
        apply Forall2_insert.
        -- apply Forall2_same_length_lookup. split; [exact Hlen0|].
           intros j y t Hj Ht.
           destruct (Forall2_lookup_l _ _ _ _ _ HF Hj) as (t0 & Ht0 & Hr).
           assert (t0 = t) by congruence. subst t0.
           apply (reify_kept f0 _ h _ y t Hr); [lia|].
           intros l' Hc. destruct (Hent j y l' Hj Hc).
           apply list_lookup_insert_ne. congruence.
        -- apply (reify_kept fv _ h _ v V HV); [lia|].
           intros l' Hc. apply list_lookup_insert_ne. specialize (Hvl l' Hc).
           congruence.
      * rewrite length_insert. lia.
      * intros l' _ Hn. cbn [cells] in Hn. rewrite Hl in Hn. apply list_lookup_insert_ne. intros ->. apply Hn. left.
    + (* further segments *)
      rewrite put_more in Hput. rewrite Hk0, Hi in Hput.
      cbn [mbind option_bind] in Hput.
      rewrite HT1 in Hput. cbn [mbind option_bind] in Hput.
      destruct (put T1 (k1 :: rest') V) as [T1'|] eqn:Hp1; [|cbn [mbind option_bind] in Hput; discriminate Hput].
      cbn [mbind option_bind] in Hput. injection Hput as <-.
      assert (Hok1 : tree_ok T1 = true).
      { pose proof (tree_ok_list _ Hok) as Hall. rewrite Forall_forall in Hall.
        apply (Hall T1). eapply list_elem_of_lookup_2; eauto. }
      assert (Hnd1 : NoDup (flat_map (cells f0 h) elems)).
      { apply NoDup_cons in Hnd as [_ Hn]. exact Hn. }
      destruct (NoDup_flat_map_inv _ _ Hnd1) as [Hnx Hpos].
      destruct (IH f0 h x (VRef l) (Some (KInt n)) T1 T1' Hr1 Hok1)
        as (h' & Hrun & Hread & Hlen & Hfr); [| exact HV | | exact Hp1 |].
      { apply Hnx. eapply list_elem_of_lookup_2; eauto. }
      { intros l' Hc Hc1. apply (Hdisj l' Hc). right.
        apply elem_of_flat_map. exists x.
        split; [eapply list_elem_of_lookup_2; eauto|exact Hc1]. }
      exists h'. split; [|split; [|split; [exact Hlen|]]].
      * rewrite (write_at_step k0 (k1 :: rest') (VRef l) last prev v _ x
                   (State h ns)); [rewrite Hk0; exact Hrun|].
        rewrite Hk0. eapply traverse_list_index; eauto.
      * replace (S f0 + fv + length (k0 :: k1 :: rest'))%nat
          with (S (f0 + fv + length (k1 :: rest') + 1))
          by (cbn [length]; lia).
        apply reify_list_intro with (elems := elems).
        { rewrite Hfr; [exact Hl|exact Hlt|].
          intros Hc. destruct (Hent i x l Hx Hc). congruence. }
        apply Forall2_same_length_lookup. split.
        { rewrite length_insert. exact Hlen0. }
        intros j y t Hj Ht.
        destruct (decide (j = i)) as [->|Hne].
        -- rewrite list_lookup_insert_eq in Ht by (rewrite <- Hlen0; exact Hib).
           injection Ht as <-. assert (y = x) by congruence. subst y.
           apply (reify_fuel_mono (f0 + fv + length (k1 :: rest'))); [lia|].
           exact Hread.
        -- rewrite list_lookup_insert_ne in Ht by congruence.
           destruct (Forall2_lookup_l _ _ _ _ _ HF Hj) as (t0 & Ht0 & Hr).
           assert (t0 = t) by congruence. subst t0.
           apply (reify_kept f0 _ h h' y t Hr); [lia|].
           intros l' Hc. destruct (Hent j y l' Hj Hc) as [_ Hb].
           apply Hfr; [exact Hb|]. intros Hc1.
           exact (Hpos i j x y l' Hx Hj (not_eq_sym Hne) Hc1 Hc).
      * intros l' Hb Hn. cbn [cells] in Hn. rewrite Hl in Hn. apply Hfr; [exact Hb|]. intros Hc1. apply Hn.
        right. apply elem_of_flat_map. exists x.
        split; [eapply list_elem_of_lookup_2; eauto|exact Hc1].
Qed.

End WriteAt.

Lemma norm_index_lt n len i : norm_index n len = Some i → (i < len)%nat.
Proof.
  unfold norm_index.
  destruct ((0 <=? _)%Z && _)%bool eqn:E; [|discriminate].
  intros [= <-]. apply andb_true_iff in E as [E1 E2].
  apply Z.leb_le in E1. apply Z.ltb_lt in E2. lia.
Qed.

(** What was put is what the walk finds. *)
Lemma walk_put : ∀ ks t v t',
  put t ks v = Some t' → walk t' ks = Some v.
Proof.
  induction ks as [|k0 rest IH]; intros t v t' Hput;
    [cbn [put] in Hput; discriminate Hput|].
  destruct rest as [|k1 rest'].
  - rewrite put_last in Hput. cbn [walk].
    destruct t as [| | | |its|ts]; try discriminate Hput.
    + injection Hput as <-. cbn [tree_item]. rewrite tree_get_set_eq.
      reflexivity.
    + destruct (int_or_keep k0) as [s|n]; [discriminate Hput|].
      destruct (norm_index n (length ts)) as [i|] eqn:Hi;
        cbn [mbind option_bind] in Hput; [|discriminate Hput].
      injection Hput as <-. cbn [tree_item].
      rewrite length_insert, Hi. cbn [mbind option_bind].
      rewrite list_lookup_insert_eq by (eapply norm_index_lt; eauto).
      reflexivity.
  - rewrite put_more in Hput.
    change (walk t' (k0 :: k1 :: rest'))
      with (t1 ← tree_item t' (int_or_keep k0); walk t1 (k1 :: rest')).
    destruct t as [| | | |its|ts]; try discriminate Hput.
    + destruct (put _ (k1 :: rest') v) as [t1'|] eqn:Hp;
        cbn [mbind option_bind] in Hput; [|discriminate Hput].
      injection Hput as <-. cbn [tree_item]. rewrite tree_get_set_eq.
      cbn [mbind option_bind]. eapply IH; eauto.
    + destruct (int_or_keep k0) as [s|n]; [discriminate Hput|].
      destruct (norm_index n (length ts)) as [i|] eqn:Hi;
        cbn [mbind option_bind] in Hput; [|discriminate Hput].
      destruct (ts !! i) as [t1|]; cbn [mbind option_bind] in Hput;
        [|discriminate Hput].
      destruct (put t1 (k1 :: rest') v) as [t1'|] eqn:Hp;
        cbn [mbind option_bind] in Hput; [|discriminate Hput].
      injection Hput as <-. cbn [tree_item].
      rewrite length_insert, Hi. cbn [mbind option_bind].
      rewrite list_lookup_insert_eq by (eapply norm_index_lt; eauto).
      cbn [mbind option_bind]. eapply IH; eauto.
Qed.

(** [__setitem__] is the construction of the child and the write along
    the child's path from the root's tree. *)
Lemma setitem_write_at limit self k v st n r x :
  nodes st !! self = Some n → nodes st !! n_root n = Some r →
  let p := child_path (n_path n) k in
  let st1 := with_node st (n_root n) (Some p) in
  _get_value (length (nodes st)) st1 = (Ok x, st1) →
  __setitem__ limit self k v st
  = write_at (key_path_of p) (n_data r) (n_data r) None v st1.
Proof.
  intros Hn Hr p st1 Hx.
  unfold __setitem__. rewrite setitem_at_eq, bind_run.
  rewrite (child_spec _ _ _ _ _ _ Hn). fold p. fold st1. rewrite Hx.
  cbn [fst]. unfold _resolve_path, write_at.
  rewrite !bind_assoc, run_get_node.
  unfold st1 at 1, with_node. cbn [nodes].
  rewrite list_lookup_middle by reflexivity. cbn [n_path n_root].
  rewrite !bind_assoc, run_get_node.
  assert (Hr1 : nodes st1 !! n_root n = Some r).
  { unfold st1, with_node. cbn [nodes]. apply lookup_app_l_Some. exact Hr. }
  fold (with_node st (n_root n) (Some p)). fold st1. rewrite Hr1.
  rewrite !bind_assoc, !bind_run.
  destruct (traverse true (key_path_of p) (n_data r) (n_data r) None st1)
    as [[[cont [kl|]]|e] st2]; reflexivity.
Qed.

(** ** A write through a sequence, at an index it lacks *)

(** The creating resolve pads a sequence shorter than the index with one
    element, and the subscript that follows is out of range. *)
Lemma write_at_list_out_of_range (k0 : key) (rest : list key) (l : nat)
    (elems : list val) (n : Z) (last v : val) (prev : option key)
    (h : list obj) (ns : list cnode) :
  h !! l = Some (OList elems) →
  int_or_keep k0 = KInt n →
  norm_index n (length elems) = None →
  write_at (k0 :: rest) (VRef l) last prev v (State h ns)
  = (Raise IndexError, State (after_list_vivify h l elems n) ns).
Proof.
  intros Hl Hk Hn.
  assert (Hlt : (l < length h)%nat) by (eapply lookup_lt_Some; eauto).
  assert (Hv : vivify (VRef l) (KInt n) (State h ns)
               = (Ok tt, State (after_list_vivify h l elems n) ns)).
  { unfold vivify, is_dict, is_list, py_len, after_list_vivify.
    rewrite !bind_assoc, run_load. cbn [heap]. rewrite Hl, bind_ret, bind_ret.
    rewrite !bind_assoc, run_load. cbn [heap]. rewrite Hl, bind_ret.
    rewrite !bind_assoc, run_load. cbn [heap]. rewrite Hl, bind_ret.
    destruct (Z.of_nat (length elems) <? n)%Z; [|reflexivity].
    rewrite run_alloc. unfold py_append. rewrite run_load. cbn [heap].
    rewrite (lookup_app_l_Some _ _ _ _ Hl). reflexivity. }
  assert (Hg : py_getitem (VRef l) (KInt n)
                 (State (after_list_vivify h l elems n) ns)
               = (Raise IndexError, State (after_list_vivify h l elems n) ns)).
  { unfold py_getitem, after_list_vivify. rewrite run_load. cbn [heap].
    destruct (Z.of_nat (length elems) <? n)%Z eqn:E.
    - apply Z.ltb_lt in E.
      rewrite list_lookup_insert_eq by (rewrite length_app; lia).
      assert (norm_index n (length (elems ++ [VRef (length h)])) = None) as ->;
        [|reflexivity].
      unfold norm_index. rewrite length_app. cbn [length].
      destruct (n <? 0)%Z eqn:E0; [apply Z.ltb_lt in E0; lia|].
      assert ((n <? Z.of_nat (length elems + 1))%Z = false) as ->
        by (apply Z.ltb_ge; lia).
      rewrite andb_false_r. reflexivity.
    - rewrite Hl, Hn. reflexivity. }
  unfold write_at. rewrite bind_run. cbn [traverse]. rewrite Hk.
  rewrite bind_run, Hv, bind_run. unfold try_except. rewrite Hg.
  reflexivity.
Qed.
(** ** Reads of a path that is false, and of a number among strings *)

Lemma tree_get_int_among_strings z its :
  forallb (fun kt : key * tree => negb (is_int (fst kt))) its = true →
  tree_get (KInt z) its = None.
Proof.
  induction its as [|[k t] r IH]; [reflexivity|].
  cbn [forallb fst]. intros [Hk Hr]%andb_true_iff.
  destruct k; [|discriminate]. cbn [tree_get key_eqb]. auto.
Qed.

Lemma reify_none_inv f h v : reify f h v = Some TNone → v = VNone.
Proof.
  destruct v as [| | | |l]; try (rewrite reify_scalar by discriminate; discriminate).
  - reflexivity.
  - intros H. apply reify_ref_inv in H as (f0 & _ & [(?&?&_&[=]&_)|(?&?&_&[=]&_)]).
Qed.





(** ** One option against the nested mapping *)

Lemma put_nest V : ∀ ks,
  ks ≠ [] → Forall (fun k => int_or_keep k = k) ks →
  put (TDict []) ks V = Some (nest ks V).
Proof.
  induction ks as [|k0 rest IH]; intros Hne HF; [congruence|].
  inversion HF as [|? ? Hk Hrest]; subst.
  destruct rest as [|k1 rest'].
  - rewrite put_last, Hk. reflexivity.
  - rewrite put_more, Hk. cbn [tree_get default from_option id].
    rewrite IH by (congruence || assumption). reflexivity.
Qed.

(** [__setitem__], where the write by hand succeeds: the store it
    leaves. *)
Lemma setitem_put limit self k v st n r D V D' f fv :
  nodes st !! self = Some n → nodes st !! n_root n = Some r →
  reify f (heap st) (n_data r) = Some D → tree_ok D = true →
  NoDup (cells f (heap st) (n_data r)) →
  reify fv (heap st) v = Some V →
  (∀ l, l ∈ cells fv (heap st) v → l ∉ cells f (heap st) (n_data r)) →
  put D (key_path_of (child_path (n_path n) k)) V = Some D' →
  let p := child_path (n_path n) k in
  let st1 := with_node st (n_root n) (Some p) in
  ∃ h', __setitem__ limit self k v st = (Ok tt, State h' (nodes st1))
    ∧ reify (f + fv + length (key_path_of p)) h' (n_data r) = Some D'
    ∧ (length (heap st1) ≤ length h')%nat
    ∧ (∀ l, (l < length (heap st1))%nat → l ∉ cells f (heap st) (n_data r) →
            h' !! l = heap st1 !! l).
Proof.
  intros Hn Hr HD Hok Hnd HV Hdisj Hput p st1.
  set (cs := [ODict []; ODict []; ODict []; ODict []]).
  assert (Hh1 : heap st1 = heap st ++ cs) by reflexivity.
  assert (HD1 : reify f (heap st1) (n_data r) = Some D).
  { rewrite Hh1. apply reify_app. exact HD. }
  assert (Hx : ∃ x, _get_value (length (nodes st)) st1 = (Ok x, st1)).
  { assert (Hc1 : nodes st1 !! length (nodes st)
                  = Some (CNode (n_root n) (Some p) (VRef (length (heap st)))
                            (VRef (length (heap st) + 1)))).
    { unfold st1, with_node. cbn [nodes]. apply list_lookup_middle. reflexivity. }
    assert (Hr1 : nodes st1 !! n_root n = Some r).
    { unfold st1, with_node. cbn [nodes]. apply lookup_app_l_Some. exact Hr. }
    destruct (truthy (Some p)) eqn:Ht.
    - destruct (get_value_walk st1 _ _ r p D f Hc1 eq_refl Ht Hr1 HD1)
        as (x & Hx & _). eauto.
    - eexists. unfold _get_value. rewrite run_get_node, Hc1.
      cbn [n_path]. rewrite Ht. reflexivity. }
  destruct Hx as [x Hx].
  destruct (write_at_put fv v V (nodes st1) (key_path_of p) f (heap st1) (n_data r)
              (n_data r) None D D' HD1 Hok)
    as (h' & Hrun & Hread & Hlen & Hfr).
  { rewrite Hh1, (cells_app _ _ _ _ _ HD). exact Hnd. }
  { rewrite Hh1. apply reify_app. exact HV. }
  { rewrite Hh1, (cells_app _ _ _ _ _ HD), (cells_app _ _ _ _ _ HV). exact Hdisj. }
  { exact Hput. }
  exists h'. split; [|split; [exact Hread|split; [exact Hlen|]]].
  - rewrite (setitem_write_at limit self k v st n r x Hn Hr Hx).
    fold p. fold st1. destruct st1 as [h1 ns1]. exact Hrun.
  - intros l Hl Hc. apply Hfr; [exact Hl|].
    rewrite Hh1, (cells_app _ _ _ _ _ HD). exact Hc.
Qed.

(** A structure read in a store that grew, with one new cell assigned. *)
Lemma reify_app_insert f h L l o v T :
  reify f h v = Some T → (length h ≤ l)%nat →
  reify f (<[l := o]> (h ++ L)) v = Some T.
Proof.
  intros H Hl. rewrite <- H. apply reify_frame. intros l' Hl'.
  pose proof (cells_bound _ _ _ _ _ H Hl') as Hb.
  rewrite list_lookup_insert_ne by lia. apply lookup_app_l. exact Hb.
Qed.

(** The option form, run: the root's tree reads as the nested mapping. *)
Lemma options_entry_run limit st p v V fv :
  Forall (fun k => int_or_keep k = k) (key_path_of p) →
  reify fv (heap st) v = Some V →
  let c := length (nodes st) in
  ∃ st', options_entry limit p v st = (Ok c, st')
    ∧ data_tree (1 + fv + length (key_path_of p)) st' c
      = Some (nest (key_path_of p) V).
Proof.
  intros HF HV c. destruct st as [h ns]. cbn [heap nodes] in *.
  unfold options_entry, __init__.
  rewrite bind_run, init_default. cbn [heap nodes].
  unfold _get_value at 1. mrun. cbn [ret fst].
  mrun.
  unfold update, update_with, default_dict. mrun.
  unfold py_getitem at 1. mrun. rewrite key_eqb_refl. mrun.
  set (root := CNode (length ns) None (VRef (length h)) (VRef (length h + 1))).
  set (s2 := State (h ++ [ODict []; ODict []; ODict []; ODict [];
                          ODict [(p, v)]; ODict []]) (ns ++ [root])).
  assert (Hroot : nodes s2 !! length ns = Some root).
  { unfold s2. cbn [nodes]. apply list_lookup_middle. reflexivity. }
  assert (Hcell : heap s2 !! (length h + 1)%nat = Some (ODict [])).
  { unfold s2. cbn [heap]. rewrite lookup_app_plus. reflexivity. }
  assert (HD : reify 1 (heap s2) (n_data root) = Some (TDict [])).
  { cbn [n_data root reify]. rewrite Hcell. reflexivity. }
  assert (Hcs : cells 1 (heap s2) (n_data root) = [(length h + 1)%nat]).
  { cbn [n_data root cells]. rewrite Hcell. reflexivity. }
  assert (HV2 : reify fv (heap s2) v = Some V).
  { unfold s2. cbn [heap]. apply reify_app. exact HV. }
  destruct (setitem_put limit (length ns) p v s2 root root (TDict []) V
              (nest (key_path_of p) V) 1 fv Hroot Hroot HD eq_refl)
    as (h' & Hrun & Hread & Hlen & Hfr).
  { rewrite Hcs. apply NoDup_singleton. }
  { exact HV2. }
  { intros l Hl. rewrite Hcs. intros Hin; apply list_elem_of_singleton in Hin; subst l.
    unfold s2 in Hl. cbn [heap] in Hl.
    rewrite (cells_app _ _ _ _ _ HV) in Hl.
    pose proof (cells_bound _ _ _ _ _ HV Hl). lia. }
  { cbn [n_path root child_path]. apply put_nest; [|exact HF].
    apply key_path_of_nonempty. }
  cbn [n_path n_root root child_path] in Hrun, Hread, Hlen, Hfr.
  rewrite bind_run, Hrun.
  assert (H4 : h' !! (length h + 4)%nat = Some (ODict [(p, v)])).
  { rewrite Hfr.
    - unfold with_node, s2. cbn [heap]. rewrite <- app_assoc, lookup_app_plus.
      reflexivity.
    - unfold with_node, s2. cbn [heap]. rewrite !length_app. cbn [length]. lia.
    - rewrite Hcs. intros Hin. apply list_elem_of_singleton in Hin. lia. }
  assert (H5 : h' !! (length h + 5)%nat = Some (ODict [])).
  { rewrite Hfr.
    - unfold with_node, s2. cbn [heap]. rewrite <- app_assoc, lookup_app_plus.
      reflexivity.
    - unfold with_node, s2. cbn [heap]. rewrite !length_app. cbn [length]. lia.
    - rewrite Hcs. intros Hin. apply list_elem_of_singleton in Hin. lia. }
  assert (Hn' : nodes (with_node s2 (length ns) (Some p)) !! length ns = Some root).
  { unfold with_node. cbn [nodes]. apply lookup_app_l_Some. exact Hroot. }
  set (ns2 := nodes (with_node s2 (length ns) (Some p))) in *.
  rewrite !bind_assoc, run_load. cbn [heap]. rewrite H4.
  cbn [length Nat.eqb negb].
  repeat (rewrite bind_assoc || rewrite bind_ret).
  unfold _get_value. rewrite !bind_assoc, run_get_node. cbn [nodes].
  rewrite Hn'. cbn [n_path root truthy n_data]. rewrite bind_ret.
  rewrite update_dict_eq. unfold for_items.
  rewrite !bind_assoc, run_load. cbn [heap]. rewrite H5.
  cbn [length dict_iter]. rewrite !bind_assoc, run_load. cbn [heap]. rewrite H5.
  cbn [length Nat.eqb negb]. rewrite !bind_ret.
  eexists. split; [reflexivity|].
  unfold data_tree. cbn [heap nodes]. unfold c. rewrite Hn'.
  cbn [mbind option_bind]. exact Hread.
Qed.

(** The data form, run: a one-entry mapping is merged into the empty
    tree by assigning its entry, whatever the recursion limit. *)
Lemma data_entry_run limit st x k1 T1 fx :
  reify fx (heap st) x = Some (TDict [(k1, T1)]) →
  let c := length (nodes st) in
  ∃ st', data_entry limit x st = (Ok c, st')
    ∧ data_tree fx st' c = Some (TDict [(k1, T1)]).
Proof.
  intros Hx c. destruct st as [h ns]. cbn [heap nodes] in *.
  pose proof Hx as Hx0.
  apply reify_dict_inv in Hx as (f0 & lx & items & -> & -> & Hlx & HF).
  inversion HF as [|[k1' v1] ? items' ? [Hk H1] Hnil]; subst.
  inversion Hnil; subst. cbn [fst snd] in Hk, H1. subst k1'.
  assert (Hlt : (lx < length h)%nat) by (eapply lookup_lt_Some; eauto).
  unfold data_entry, __init__.
  rewrite bind_run, init_default. cbn [heap nodes].
  unfold _get_value at 1. mrun. cbn [ret fst].
  set (root := CNode (length ns) None (VRef (length h)) (VRef (length h + 1))).
  unfold update.
  rewrite bind_run, (update_with_data_run _ _ _ _ _ _ root);
    [|apply list_lookup_middle; reflexivity|reflexivity].
  cbn [n_data root].
  rewrite update_dict_eq. unfold for_items.
  rewrite <- app_assoc. cbn [app].
  set (hh := h ++ [ODict []; ODict []; ODict []; ODict []; ODict []]).
  assert (Hl2 : hh !! lx = Some (ODict [(k1, v1)])).
  { unfold hh. apply lookup_app_l_Some. exact Hlx. }
  assert (Ht2 : hh !! (length h + 1)%nat = Some (ODict [])).
  { unfold hh. rewrite lookup_app_plus. reflexivity. }
  assert (Hlen : (length h + 1 < length hh)%nat).
  { unfold hh. rewrite length_app. cbn [length]. lia. }
  set (hf := <[(length h + 1)%nat := ODict [(k1, v1)]]> hh).
  rewrite run_load. cbn [heap]. rewrite Hl2.
  match goal with |- context [dict_iter ?b _ _ _] => set (body := b) end.
  assert (Hbody : body k1 v1 (State hh (ns ++ [root]))
                  = (Ok tt, State hf (ns ++ [root]))).
  { assert (Hset : py_setitem (VRef (length h + 1)) k1 v1
                     (State hh (ns ++ [root])) = (Ok tt, State hf (ns ++ [root]))).
    { unfold py_setitem. rewrite run_load. cbn [heap]. rewrite Ht2. reflexivity. }
    unfold body.
    destruct v1 as [| | | |l1]; cbn [is_dict];
      try (rewrite !bind_ret; exact Hset).
    rewrite !bind_assoc, run_load. cbn [heap].
    destruct (hh !! l1) as [[its1|els1]|] eqn:E1.
    - rewrite bind_ret. unfold py_contains at 1.
      rewrite !bind_assoc, run_load. cbn [heap]. rewrite Ht2.
      cbn [dict_get is_some]. rewrite !bind_ret. exact Hset.
    - rewrite !bind_ret. exact Hset.
    - exfalso. destruct f0; [discriminate H1|].
      cbn [reify] in H1.
      destruct (h !! l1) as [o|] eqn:E; [|discriminate H1].
      unfold hh in E1. rewrite (lookup_app_l_Some _ _ _ _ E) in E1.
      discriminate E1. }
  assert (Hl3 : hf !! lx = Some (ODict [(k1, v1)])).
  { unfold hf. rewrite list_lookup_insert_ne by lia. exact Hl2. }
  cbn [length dict_iter].
  rewrite run_load. cbn [heap]. rewrite Hl2.
  cbn [length Nat.eqb negb Nat.sub lookup list_lookup].
  rewrite bind_run, Hbody, run_load. cbn [heap]. rewrite Hl3.
  cbn [length Nat.eqb negb]. unfold ret at 1.
  eexists. split; [reflexivity|].
  unfold data_tree. cbn [heap nodes]. unfold c.
  rewrite list_lookup_middle by reflexivity.
  cbn [mbind option_bind n_data root].
  apply (reify_dict_intro f0 hf (length h + 1) [(k1, v1)] [(k1, T1)]).
  - unfold hf. apply list_lookup_insert_eq. exact Hlen.
  - constructor; [|constructor]. split; [reflexivity|]. cbn [snd].
    unfold hf, hh. apply reify_app_insert; [exact H1|lia].
Qed.

(** ** A deep copy is made of new cells only *)

Lemma heap_only_ret {A} (a : A) : heap_only (ret a).
Proof. intros h ns ns'. reflexivity. Qed.

Lemma heap_only_raise {A} e : heap_only (@raise A e).
Proof. intros h ns ns'. reflexivity. Qed.

Lemma heap_only_bind {A B} (m : M A) (f : A → M B) :
  heap_only m → (∀ a, heap_only (f a)) → heap_only (bind m f).
Proof.
  intros Hm Hf h ns ns'. rewrite !bind_run, (Hm h ns ns').
  destruct (m (State h ns)) as [[a|e] [h1 ns1]] eqn:E; cbn [fst snd heap].
  - rewrite (Hf a h1 ns1 ns').
    pose proof (Hm h ns ns) as Hs. rewrite E in Hs. cbn [fst snd heap] in Hs.
    injection Hs as <-. reflexivity.
  - reflexivity.
Qed.

Lemma heap_only_load l : heap_only (load l).
Proof. intros h ns ns'. unfold load. cbn [heap]. destruct (h !! l); reflexivity. Qed.

Lemma heap_only_alloc o : heap_only (alloc o).
Proof. intros h ns ns'. reflexivity. Qed.

Lemma heap_only_store l o : heap_only (store l o).
Proof. intros h ns ns'. reflexivity. Qed.

Lemma heap_only_py_setitem node k v : heap_only (py_setitem node k v).
Proof.
  destruct node as [| | | |l]; cbn [py_setitem]; try apply heap_only_raise.
  apply heap_only_bind; [apply heap_only_load|]. intros [items|elems].
  - apply heap_only_store.
  - destruct k as [s|n]; [apply heap_only_raise|].
    destruct (norm_index n (length elems)); [apply heap_only_store|apply heap_only_raise].
Qed.

Lemma heap_only_py_append node x : heap_only (py_append node x).
Proof.
  destruct node as [| | | |l]; cbn [py_append]; try apply heap_only_raise.
  apply heap_only_bind; [apply heap_only_load|]. intros [items|elems];
    [apply heap_only_raise|apply heap_only_store].
Qed.

Lemma heap_only_copy_elems rec y :
  (∀ v memo, heap_only (rec v memo)) →
  ∀ elems memo, heap_only (copy_elems rec y elems memo).
Proof.
  intros Hrec. induction elems as [|a r IH]; intros memo; cbn [copy_elems].
  - apply heap_only_ret.
  - apply heap_only_bind; [apply Hrec|]. intros p.
    apply heap_only_bind; [apply heap_only_py_append|]. intros _. apply IH.
Qed.

Lemma heap_only_copy_items rec y :
  (∀ v memo, heap_only (rec v memo)) →
  ∀ items memo, heap_only (copy_items rec y items memo).
Proof.
  intros Hrec. induction items as [|[k v] r IH]; intros memo; cbn [copy_items].
  - apply heap_only_ret.
  - apply heap_only_bind; [apply Hrec|]. intros p.
    apply heap_only_bind; [apply heap_only_py_setitem|]. intros _. apply IH.
Qed.

Lemma heap_only_deepcopy_memo depth :
  ∀ x memo, heap_only (deepcopy_memo depth x memo).
Proof.
  assert (Hstep : ∀ rec,
    (∀ v memo, heap_only (rec v memo)) →
    ∀ l memo,
    heap_only
      (bind (load l) (fun o =>
       match o with
       | OList elems =>
           bind (alloc (OList [])) (fun y =>
           bind (copy_elems rec y elems ((l, y) :: memo)) (fun memo' =>
           ret (VRef y, memo')))
       | ODict items =>
           bind (alloc (ODict [])) (fun y =>
           bind (copy_items rec y items ((l, y) :: memo)) (fun memo' =>
           ret (VRef y, memo')))
       end))).
  { intros rec Hrec l memo.
    apply heap_only_bind; [apply heap_only_load|]. intros [items|elems].
    - apply heap_only_bind; [apply heap_only_alloc|]. intros y.
      apply heap_only_bind; [apply heap_only_copy_items; exact Hrec|].
      intros memo'. apply heap_only_ret.
    - apply heap_only_bind; [apply heap_only_alloc|]. intros y.
      apply heap_only_bind; [apply heap_only_copy_elems; exact Hrec|].
      intros memo'. apply heap_only_ret. }
  induction depth as [|d IH]; intros x memo; rewrite deepcopy_memo_eq;
    (destruct x as [| | | |l]; try apply heap_only_ret);
    (destruct (memo_get l memo) as [y|]; [apply heap_only_ret|]);
    apply Hstep; auto.
  intros; apply heap_only_raise.
Qed.

Lemma heap_only_deepcopy depth x : heap_only (deepcopy depth x).
Proof.
  unfold deepcopy. apply heap_only_bind; [apply heap_only_deepcopy_memo|].
  intros p. apply heap_only_ret.
Qed.

(** Below a value outside a region that no outside cell refers into,
    every cell is outside. *)
Lemma cells_out (F : nat → Prop) h :
  (∀ l o, h !! l = Some o → ¬ F l → obj_out F o) →
  ∀ g v, out F v → ∀ l, l ∈ cells g h v → ¬ F l.
Proof.
  intros Hcl. induction g as [|g IH]; intros v Hv l Hl;
    destruct v as [| | | |l0]; cbn [cells] in Hl; try (inversion Hl; fail).
  - apply list_elem_of_singleton in Hl. subst l. exact Hv.
  - apply elem_of_cons in Hl as [->|Hl]; [exact Hv|].
    destruct (h !! l0) as [[items|elems]|] eqn:E; [| |inversion Hl].
    + apply elem_of_flat_map in Hl as ([k v] & Hkv & Hlv).
      pose proof (Hcl l0 _ E Hv) as Ho. cbn [obj_out] in Ho.
      rewrite Forall_forall in Ho. eapply IH; [|exact Hlv].
      apply (Ho (k, v)). exact Hkv.
    + apply elem_of_flat_map in Hl as (v & Hv' & Hlv).
      pose proof (Hcl l0 _ E Hv) as Ho. cbn [obj_out] in Ho.
      rewrite Forall_forall in Ho. eapply IH; [|exact Hlv].
      apply Ho. exact Hv'.
Qed.

(** Every cell under a deep copy, at every depth, was allocated by the
    copy. *)
Lemma deepcopy_cells_fresh depth x st x' st' :
  deepcopy depth x st = (Ok x', st') →
  ∀ g l, l ∈ cells g (heap st') x' → (length (heap st) ≤ l)%nat.
Proof.
  intros Hrun g l Hl.
  set (F := fun l : nat => (l < length (heap st))%nat).
  assert (Hc0 : confined F (heap st) (State (heap st) [])).
  { constructor; cbn [heap nodes].
    - reflexivity.
    - intros l1 o Ho Hn. exfalso. apply Hn. eapply lookup_lt_Some; eauto.
    - intros i n Hi. inversion Hi.
    - intros l1 Hl1. exact Hl1. }
  destruct (keeps_deepcopy F (heap st) depth x _ Hc0) as (Hc & _ & Hout).
  destruct st as [h ns]. cbn [heap] in *.
  rewrite (heap_only_deepcopy depth x h [] ns) in Hrun.
  injection Hrun as Hx <-. cbn [heap] in Hl.
  assert (Hn : ¬ F l).
  { eapply (cells_out F); [|apply Hout; exact Hx|exact Hl].
    intros l1 o Ho Hn1. eapply conf_closed; eauto. }
  unfold F in Hn. lia.
Qed.


(** * The claims *)

(** ** Reads *)

(** C10.  A read never mutates: after [__getitem__] (attribute reads go
    through it) every object and every node that existed is what it was --
    the store has only grown by the child view and its four fresh empty
    dicts, whose constructor's [update] merged an empty dict -- so the data
    tree and the defaults tree of every node read back as before; and
    [_get_value] and the comparison with [None] leave the store as it is. *)
Theorem reads_never_mutate (limit : nat) (self : nat) (k : key) (st : state) :
  let st' := snd (__getitem__ limit self k st) in
  (∃ cells views, heap st' = heap st ++ cells ∧ nodes st' = nodes st ++ views)
  ∧ (∀ fuel i, data_tree fuel st i = None
               ∨ data_tree fuel st' i = data_tree fuel st i)
  ∧ (∀ fuel i, defaults_tree fuel st i = None
               ∨ defaults_tree fuel st' i = defaults_tree fuel st i)
  ∧ snd (_get_value self st) = st
  ∧ snd (eq_none self st) = st.
Proof.
  cbv zeta.
  assert (Hext : ∃ cells views,
             heap (snd (__getitem__ limit self k st)) = heap st ++ cells
             ∧ nodes (snd (__getitem__ limit self k st)) = nodes st ++ views).
  { apply getitem_grows. }
  split; [exact Hext|].
  destruct Hext as (cells & views & Hh & Hn).
  split; [|split; [|split]].
  - intros fuel i. unfold data_tree. rewrite Hh, Hn.
    destruct (nodes st !! i) as [n|] eqn:Hi; [|left; reflexivity].
    rewrite (lookup_app_l_Some _ _ _ _ Hi). cbn [mbind option_bind].
    apply reify_grows.
  - intros fuel i. unfold defaults_tree. rewrite Hh, Hn.
    destruct (nodes st !! i) as [n|] eqn:Hi; [|left; reflexivity].
    rewrite (lookup_app_l_Some _ _ _ _ Hi). cbn [mbind option_bind].
    apply reify_grows.
  - apply pure_get_value.
  - apply pure_eq_none.
Qed.







(** ** Path resolution *)

(** C2, counterexample.  In [{'0': 'x'}] the path ['0'] does not address
    the entry whose key is the string ['0']: the read yields the view, and
    its value is [None]. *)
Lemma string_key_zero_unreachable :
  data_tree 5 st_numkey 0 = Some (TDict [(KStr "0", TStr "x")])
  ∧ fst (__getitem__ 5 0 (KStr "0") st_numkey) = Ok (View 1)
  ∧ _get_value 1 (snd (__getitem__ 5 0 (KStr "0") st_numkey))
    = (Ok VNone, snd (__getitem__ 5 0 (KStr "0") st_numkey)).
Proof. repeat split; reflexivity. Qed.

(** C2, as amended.  A segment that [int()] accepts is converted before
    the container is looked at, so the resolver walks it as the integer
    key whatever it meets: against a sequence it is the index (negative
    ones counting from the end), against a mapping it is the integer key,
    never the string.  A mapping whose keys are all strings, met at any
    position of the path of a read, therefore has no entry for it: the
    read returns the view, whose value is [None] and which compares equal
    to [None]. *)
Theorem numeric_segment_is_integer_key (create : bool) (s : string) (z : Z)
    (rest : list key) (node last : val) (prev : option key) (st : state) :
  py_int s = Some z →
  traverse create (KStr s :: rest) node last prev st
  = traverse create (KInt z :: rest) node last prev st
  ∧ (∀ l elems, node = VRef l → heap st !! l = Some (OList elems) →
       traverse false (KStr s :: rest) node last prev st =
       match norm_index z (length elems) ≫= (λ i, elems !! i) with
       | Some v => traverse false rest v node (Some (KInt z)) st
       | None => (Raise IndexError, st)
       end)
  ∧ (∀ l items, node = VRef l → heap st !! l = Some (ODict items) →
       traverse false (KStr s :: rest) node last prev st =
       match dict_get (KInt z) items with
       | Some v => traverse false rest v node (Some (KInt z)) st
       | None => (Raise KeyError, st)
       end)
  ∧ (∀ limit self k n r f D pre its,
       nodes st !! self = Some n → nodes st !! n_root n = Some r →
       reify f (heap st) (n_data r) = Some D →
       truthy (Some (child_path (n_path n) k)) = true →
       key_path_of (child_path (n_path n) k) = pre ++ KStr s :: rest →
       walk D pre = Some (TDict its) →
       forallb (fun kt : key * tree => negb (is_int (fst kt))) its = true →
       let c := length (nodes st) in
       let st' := snd (__getitem__ limit self k st) in
       fst (__getitem__ limit self k st) = Ok (View c)
       ∧ _get_value c st' = (Ok VNone, st')
       ∧ eq_none c st' = (Ok true, st')).
Proof.
  intros Hz.
  assert (Hk : int_or_keep (KStr s) = KInt z) by (cbn; rewrite Hz; reflexivity).
  split; [|split; [|split]].
  - cbn [traverse]. rewrite Hk. reflexivity.
  - intros l elems -> Hl. cbn [traverse]. rewrite Hk, bind_ret.
    unfold try_except, py_getitem. rewrite bind_run, run_load, Hl.
    destruct (norm_index z (length elems)) as [i|]; [|reflexivity].
    cbn [mbind option_bind]. destruct (elems !! i); reflexivity.
  - intros l items -> Hl. cbn [traverse]. rewrite Hk, bind_ret.
    unfold try_except, py_getitem. rewrite bind_run, run_load, Hl.
    destruct (dict_get (KInt z) items); reflexivity.
  - intros limit self k n r f D pre its Hn Hr HD Ht Hks Hpre Hstr c st'.
    assert (Hw : walk D (key_path_of (child_path (n_path n) k)) = None).
    { rewrite Hks, walk_app, Hpre. cbn [mbind option_bind walk].
      rewrite Hk. cbn [tree_item].
      rewrite (tree_get_int_among_strings z its Hstr). reflexivity. }
    destruct (getitem_walk limit self k st n r D f Hn Hr HD Ht) as [Hg Hv].
    fold c in Hg, Hv. fold st' in Hv. rewrite Hw in Hg, Hv.
    cbn [item_of default from_option] in Hg, Hv.
    destruct Hv as (v & Hv & Hnone). apply reify_none_inv in Hnone. subst v.
    split; [exact Hg|]. split; [exact Hv|].
    unfold eq_none. rewrite bind_run, Hv. reflexivity.
Qed.

Lemma numeric_segment_is_integer_key_witness :
  py_int "0" = Some 0%Z
  ∧ data_tree 5 st_numkey 0 = Some (TDict [(KStr "0", TStr "x")])
  ∧ traverse false [KStr "0"] (VRef 2) (VRef 2) None st_numkey
    = (Raise KeyError, st_numkey)
  ∧ fst (__getitem__ 5 0 (KStr "0") st_numkey) = Ok (View 1)
  ∧ eq_none 1 (snd (__getitem__ 5 0 (KStr "0") st_numkey))
    = (Ok true, snd (__getitem__ 5 0 (KStr "0") st_numkey)).
Proof.
  split; [reflexivity|]. split; [reflexivity|].
  pose proof (numeric_segment_is_integer_key false "0" 0 [] (VRef 2) (VRef 2)
                None st_numkey eq_refl) as (_ & _ & Hm & Hread).
  split; [exact (Hm 2%nat _ eq_refl eq_refl)|].
  destruct (Hread 5%nat 0%nat (KStr "0") _ _ 5%nat
              (TDict [(KStr "0", TStr "x")]) [] [(KStr "0", TStr "x")]
              eq_refl eq_refl eq_refl eq_refl eq_refl eq_refl eq_refl)
    as (Hg & _ & He).
  split; [exact Hg|exact He].
Defined.

(** C5, counterexample.  With ['a'] holding the number 5, reading ['a.b']
    indexes a number; no error surfaces: the read returns the view, whose
    value is [None]. *)
Lemma read_through_scalar_is_absent :
  fst (__getitem__ 5 0 (KStr "a") st_demo) = Ok (Raw (VInt 5))
  ∧ fst (__getitem__ 5 0 (KStr "a.b") st_demo) = Ok (View 1)
  ∧ _get_value 1 (snd (__getitem__ 5 0 (KStr "a.b") st_demo))
    = (Ok VNone, snd (__getitem__ 5 0 (KStr "a.b") st_demo)).
Proof. repeat split; reflexivity. Qed.

(** C5, as amended.  Indexing a value that has no subscript is handled:
    the resolver catches the [TypeError] and raises a not-found error in
    its place, [IndexError] for an integer segment and [KeyError]
    otherwise, with or without [create]; so a read resolve, and
    [_get_value], never raise [TypeError], and a read whose resolve fails
    with either not-found error yields [None]. *)
Theorem type_mismatch_becomes_not_found (create : bool) (k0 : key)
    (rest : list key) (node last : val) (prev : option key)
    (st : state) (self : nat) (n : cnode) :
  unsubscriptable node = true →
  nodes st !! self = Some n → truthy (n_path n) = true →
  traverse create (k0 :: rest) node last prev st
  = (Raise (not_found (int_or_keep k0)), st)
  ∧ no_type_error (fst (_resolve_path self false st))
  ∧ no_type_error (fst (_get_value self st))
  ∧ (fst (_resolve_path self false st) = Raise KeyError
     ∨ fst (_resolve_path self false st) = Raise IndexError →
     _get_value self st = (Ok VNone, st)).
Proof.
  intros Hu Hn Ht. split; [|split; [|split]].
  - unfold not_found.
    destruct node; try discriminate; destruct create;
      cbn [traverse]; unfold vivify; cbn [is_dict is_list];
      rewrite ?bind_ret; destruct (int_or_keep k0);
      rewrite ?bind_ret; reflexivity.
  - apply resolve_path_no_type_error.
  - apply get_value_no_type_error.
  - apply get_value_not_found with n; assumption.
Qed.

Lemma type_mismatch_becomes_not_found_witness :
  traverse false [KStr "b"] (VInt 5) (VRef 2) (Some (KStr "a"))
    (snd (__getitem__ 5 0 (KStr "a.b") st_demo))
  = (Raise KeyError, snd (__getitem__ 5 0 (KStr "a.b") st_demo))
  ∧ fst (_resolve_path 1 false (snd (__getitem__ 5 0 (KStr "a.b") st_demo)))
    = Raise KeyError
  ∧ _get_value 1 (snd (__getitem__ 5 0 (KStr "a.b") st_demo))
    = (Ok VNone, snd (__getitem__ 5 0 (KStr "a.b") st_demo)).
Proof.
  pose proof (type_mismatch_becomes_not_found false (KStr "b") [] (VInt 5)
                (VRef 2) (Some (KStr "a"))
                (snd (__getitem__ 5 0 (KStr "a.b") st_demo)) 1 _
                eq_refl eq_refl eq_refl) as (H1 & _ & _ & H4).
  split; [exact H1|]. split; [reflexivity|].
  apply H4. left. reflexivity.
Defined.

(** ** Deep merge *)

(** C1, the code at the failing input.  [update_dict] tests the source's
    value twice and the target's never: with [target = {'x': 1}] and
    [source = {'x': {'a': 2}}] it recurses into the number 1 and raises
    [TypeError], the target unchanged; with [source = {'x': {}}] it
    recurses, finds nothing to do and leaves [target['x']] at 1.  Where
    both sides are mappings it merges as the spec's example says. *)
Theorem update_dict_recurses_into_scalar (d : nat) :
  fst (merge_over_scalar (S d) [(KStr "a", VInt 2)] st0) = Raise TypeError
  ∧ reify 3 (heap (snd (merge_over_scalar (S d) [(KStr "a", VInt 2)] st0)))
      (VRef 0) = Some (TDict [(KStr "x", TInt 1)])
  ∧ fst (merge_over_scalar (S d) [] st0) = Ok (VRef 0)
  ∧ reify 3 (heap (snd (merge_over_scalar (S d) [] st0))) (VRef 0)
    = Some (TDict [(KStr "x", TInt 1)])
  ∧ reify 3 (heap (snd (merge_siblings (S d) st0))) (VRef 1)
    = Some (TDict [(KStr "x", TDict [(KStr "a", TInt 99); (KStr "b", TInt 2);
                                     (KStr "c", TInt 3)])]).
Proof. destruct d; repeat split; reflexivity. Qed.

(** ** Auto-vivification on sequences *)

(** C4, the code at the failing input.  With [{'xs': []}], the write
    [root['xs.2'] = 7] appends to [xs] one element, the list
    [[None, None]], and the lookup of index 2 that follows raises
    [IndexError]: nothing is written at index 2. *)
Theorem vivify_list_appends_one_element :
  data_tree 5 st_empty_list 0 = Some (TDict [(KStr "xs", TList [])])
  ∧ fst (__setitem__ 5 0 (KStr "xs.2") (VInt 7) st_empty_list)
    = Raise IndexError
  ∧ data_tree 5 (snd (__setitem__ 5 0 (KStr "xs.2") (VInt 7) st_empty_list)) 0
    = Some (TDict [(KStr "xs", TList [TList [TNone; TNone]])]).
Proof. repeat split; reflexivity. Qed.

(** ** Reset *)

(** C6, counterexample.  [update_dict] stores the source's own containers
    in the target, so after [update(data=D)] with [D] the defaults object
    the list under ['xs'] is shared with the defaults; the write to
    ['xs.0'] changes the defaults, and [reset()] restores [{'xs': [9]}],
    not [{'xs': [1]}]. *)
Lemma reset_restores_changed_defaults :
  fst (reset_after_aliasing st0) = Ok 0%nat
  ∧ data_tree 5 (snd (reset_after_aliasing st0)) 0
    = Some (TDict [(KStr "xs", TList [TInt 9])])
  ∧ defaults_tree 5 (snd (reset_after_aliasing st0)) 0
    = Some (TDict [(KStr "xs", TList [TInt 9])]).
Proof. repeat split; reflexivity. Qed.

(** C6, as amended.  Let the defaults object read as the structure [D],
    with distinct keys in every mapping and within the recursion limit, in
    a store where nothing but the structure under the defaults object
    refers to one of its containers.  Construct the root with these
    defaults (and any [data] that is not one of those containers), then run
    any sequence of [set], [update] and read operations, on the root or on
    any view, whose arguments are not containers of the defaults structure
    either; an operation may raise, the caller going on with the next.
    Then [reset()] returns, and the root's tree reads as [D] again, every
    key added or changed since construction gone; the defaults still read
    as [D]. *)
Theorem reset_restores_defaults (limit : nat) (st : state) (d : val)
    (D : tree) (data : option data_arg) (ops : list op) :
  reify limit (heap st) d = Some D → tree_ok D = true →
  isolated st d →
  data_out (reach (heap st) d) data →
  Forall (op_out (reach (heap st) d)) ops →
  let c := length (nodes st) in
  let st1 := snd (__init__ limit data (Some d) None None st) in
  let st2 := snd (run_ops limit ops st1) in
  fst (reset limit c st2) = Ok tt
  ∧ data_tree limit (snd (reset limit c st2)) c = Some D
  ∧ defaults_tree limit (snd (reset limit c st2)) c = Some D.
Proof.
  intros Hd Hok Hiso Hdata Hops c st1 st2.
  set (F := reach (heap st) d) in *.
  pose proof (confined_initially st d limit D Hiso Hd) as Hc0. fold F in Hc0.
  (* construction *)
  destruct (deepcopy_correct limit st d D Hd Hok) as (x1 & added1 & Hcopy1 & _).
  destruct (keeps_deepcopy F (heap st) limit d st Hc0) as (Hc_a & _ & Hout1).
  rewrite Hcopy1 in Hc_a, Hout1. cbn [fst snd] in Hc_a, Hout1.
  specialize (Hout1 x1 eq_refl).
  set (root := CNode c None d x1).
  set (st_a := State (heap st ++ added1) (nodes st ++ [root])).
  assert (Hc_b : confined F (heap st) st_a).
  { destruct (keeps_new_node F (heap st) (fun _ => root) (fun _ => Hout1)
                _ Hc_a) as (H & _). exact H. }
  assert (Hst1 : st1 = snd (bind (update_with limit (__setitem__ limit) c data None)
                              (fun _ => ret c) st_a)).
  { unfold st1, __init__, init_with. cbn [default_dict].
    rewrite bind_ret, bind_run, Hcopy1, run_new_node. reflexivity. }
  assert (Hk1 : keeps F (heap st) any
                  (bind (update_with limit (__setitem__ limit) c data None)
                     (fun _ => ret c))).
  { eapply (keeps_bind F (heap st) any).
    - apply keeps_update_with; [|exact Hdata|exact I].
      intros; apply keeps_setitem; assumption.
    - intros; apply keeps_ret; exact I. }
  destruct (Hk1 st_a Hc_b) as (Hc1 & Hn1 & _). rewrite <- Hst1 in Hc1, Hn1.
  destruct (Hn1 c root) as (n1 & Hn1c & _ & _ & Hdef1).
  { unfold st_a. cbn [nodes]. apply list_lookup_middle. reflexivity. }
  (* the operations *)
  destruct (keeps_run_ops F (heap st) limit ops Hops st1 Hc1) as (Hc2 & Hn2 & _).
  fold st2 in Hc2, Hn2.
  destruct (Hn2 c n1 Hn1c) as (n2 & Hn2c & _ & _ & Hdef2).
  assert (Hd2 : reify limit (heap st2) d = Some D).
  { apply (reify_frozen (heap st)); [|exact Hd].
    intros l Hl. apply (conf_frozen _ _ _ Hc2). exact Hl. }
  (* the reset *)
  destruct (deepcopy_correct limit st2 d D Hd2 Hok) as (x2 & added2 & Hcopy2 & Hx2).
  assert (Hreset : reset limit c st2
            = (Ok tt, State (heap st2 ++ added2)
                        (<[c := CNode (n_root n2) (n_path n2) d x2]> (nodes st2)))).
  { unfold reset. rewrite run_get_node, Hn2c.
    replace (n_defaults n2) with d by (cbn in *; congruence).
    rewrite bind_run, Hcopy2. reflexivity. }
  rewrite Hreset. cbn [fst snd]. split; [reflexivity|].
  assert (Hclt : (c < length (nodes st2))%nat) by (eapply lookup_lt_Some; eauto).
  unfold data_tree, defaults_tree. cbn [heap nodes].
  rewrite list_lookup_insert_eq by exact Hclt. cbn [mbind option_bind n_data n_defaults].
  split; [exact Hx2|].
  destruct (reify_grows limit (heap st2) added2 d) as [E|E]; congruence.
Qed.

Lemma reset_restores_defaults_witness :
  fst (reset 5 0
         (snd (run_ops 5 [OpUpdate 0 (Some (DVal (VRef 1))) None]
                 (snd (__init__ 5 None (Some (VRef 0)) None None
                         st_reset_example)))))
  = Ok tt
  ∧ data_tree 5
      (snd (reset 5 0
              (snd (run_ops 5 [OpUpdate 0 (Some (DVal (VRef 1))) None]
                      (snd (__init__ 5 None (Some (VRef 0)) None None
                              st_reset_example))))))
      0
    = Some (TDict [(KStr "a", TInt 1)])
  ∧ defaults_tree 5
      (snd (reset 5 0
              (snd (run_ops 5 [OpUpdate 0 (Some (DVal (VRef 1))) None]
                      (snd (__init__ 5 None (Some (VRef 0)) None None
                              st_reset_example))))))
      0
    = Some (TDict [(KStr "a", TInt 1)]).
Proof.
  assert (Hout : out (reach (heap st_reset_example) (VRef 0)) (VRef 1)).
  { intros H. inversion H as [|l o v l' Hl Hv Hr]; subst.
    cbn in Hl. injection Hl as <-. cbn in Hv.
    apply list_elem_of_singleton in Hv. subst v. inversion Hr. }
  refine (reset_restores_defaults 5 st_reset_example (VRef 0)
            (TDict [(KStr "a", TInt 1)]) None
            [OpUpdate 0 (Some (DVal (VRef 1))) None] _ _ _ _ _).
  - reflexivity.
  - reflexivity.
  - split.
    + intros l o Hl Hn. destruct l as [|[|l]]; cbn in Hl.
      * exfalso. apply Hn. constructor.
      * injection Hl as <-. repeat constructor.
      * discriminate.
    + intros i n Hi. destruct i; discriminate.
  - exact I.
  - constructor; [|constructor]. split; [exact Hout|exact I].
Defined.

(** ** Auto-vivification on mappings *)

(** C8.  On an empty root, in any store, the write of [v] to ['a.b.c']
    returns, and leaves the root's tree holding a mapping under ['a'],
    that one a mapping under ['b'], and that one [v] under ['c']; a read
    of ['a.b.c'] then resolves to [v] (returned as it is when a scalar, as
    the view otherwise), and the reads of ['a'] and ['a.b'] return views,
    resolving to those two mappings. *)
Theorem autovivification_on_write (limit : nat) (st : state) (v : val) :
  val_ok (length (heap st)) v = true →
  let root := length (nodes st) in
  let st1 := snd (vivify_abc limit v st) in
  let view := length (nodes st1) in
  fst (vivify_abc limit v st) = Ok root
  ∧ ∃ lr la lb,
      n_data <$> nodes st1 !! root = Some (VRef lr)
      ∧ heap st1 !! lr = Some (ODict [(KStr "a", VRef la)])
      ∧ heap st1 !! la = Some (ODict [(KStr "b", VRef lb)])
      ∧ heap st1 !! lb = Some (ODict [(KStr "c", v)])
      ∧ (let r := __getitem__ limit root (KStr "a.b.c") st1 in
         fst r = Ok (match v with
                     | VNone | VRef _ => View view
                     | VBool _ | VInt _ | VStr _ => Raw v
                     end)
         ∧ _get_value view (snd r) = (Ok v, snd r))
      ∧ (let r := __getitem__ limit root (KStr "a") st1 in
         fst r = Ok (View view)
         ∧ _get_value view (snd r) = (Ok (VRef la), snd r))
      ∧ (let r := __getitem__ limit root (KStr "a.b") st1 in
         fst r = Ok (View view)
         ∧ _get_value view (snd r) = (Ok (VRef lb), snd r)).
Proof.
  intros Hv root st1 view. subst view st1 root.
  rewrite vivify_abc_run. cbn [fst snd].
  split; [reflexivity|].
  exists (length (heap st) + 1)%nat, (length (heap st) + 8)%nat,
         (length (heap st) + 9)%nat.
  split; [unfold after_abc; lk|].
  split; [unfold after_abc; lk|].
  split; [unfold after_abc; lk|].
  split; [unfold after_abc; lk|].
  split; [|split].
  - destruct (read_abc limit st v "a.b.c" v (VRef (length (heap st) + 9)) (KStr "c"))
      as [Hg Hr]; [reflexivity| | | |].
    + unfold with_node, after_abc. lk.
      erewrite traverse_dict_present; [|lk|reflexivity].
      erewrite traverse_dict_present; [|lk|reflexivity].
      erewrite traverse_dict_present; [|lk|reflexivity].
      reflexivity.
    + unfold with_node, after_abc, py_getitem. lk. mrun. reflexivity.
    + intros l ->. cbn [val_ok] in Hv. apply Nat.ltb_lt in Hv.
      apply lookup_lt_is_Some_2. unfold with_node, after_abc. cbn [heap].
      rewrite !length_app. lia.
    + cbv zeta. rewrite Hg. cbn [fst snd]. split; [reflexivity|exact Hr].
  - destruct (read_abc limit st v "a" (VRef (length (heap st) + 8))
                (VRef (length (heap st) + 1)) (KStr "a"))
      as [Hg Hr]; [reflexivity| | | |].
    + unfold with_node, after_abc. lk.
      erewrite traverse_dict_present; [|lk|reflexivity].
      reflexivity.
    + unfold with_node, after_abc, py_getitem. lk. mrun. reflexivity.
    + intros l [= <-]. apply lookup_lt_is_Some_2.
      unfold with_node, after_abc. cbn [heap]. rewrite !length_app. simpl. lia.
    + cbv zeta. rewrite Hg. cbn [fst snd]. split; [reflexivity|exact Hr].
  - destruct (read_abc limit st v "a.b" (VRef (length (heap st) + 9))
                (VRef (length (heap st) + 8)) (KStr "b"))
      as [Hg Hr]; [reflexivity| | | |].
    + unfold with_node, after_abc. lk.
      erewrite traverse_dict_present; [|lk|reflexivity].
      erewrite traverse_dict_present; [|lk|reflexivity].
      reflexivity.
    + unfold with_node, after_abc, py_getitem. lk. mrun. reflexivity.
    + intros l [= <-]. apply lookup_lt_is_Some_2.
      unfold with_node, after_abc. cbn [heap]. rewrite !length_app. simpl. lia.
    + cbv zeta. rewrite Hg. cbn [fst snd]. split; [reflexivity|exact Hr].
Qed.

Lemma autovivification_on_write_witness :
  fst (vivify_abc 5 (VInt 7) st0) = Ok 0%nat
  ∧ data_tree 4 (snd (vivify_abc 5 (VInt 7) st0)) 0
    = Some (TDict [(KStr "a", TDict [(KStr "b", TDict [(KStr "c", TInt 7)])])])
  ∧ fst (__getitem__ 5 0 (KStr "a.b.c") (snd (vivify_abc 5 (VInt 7) st0)))
    = Ok (Raw (VInt 7))
  ∧ fst (__getitem__ 5 0 (KStr "a.b") (snd (vivify_abc 5 (VInt 7) st0)))
    = Ok (View 2).
Proof.
  pose proof (autovivification_on_write 5 st0 (VInt 7) eq_refl)
    as (H0 & lr & la & lb & _ & _ & _ & _ & (Hc & _) & _ & (Hb & _)).
  split; [exact H0|]. split; [reflexivity|]. split; [exact Hc|exact Hb].
Defined.

(** ** Options shorthand *)

(** C7, counterexample.  On an empty root, [update(options={'server.80':
    8080})] stores the value under the integer key [80], and
    [update(data={'server': {'80': 8080}})] under the string ['80']: the
    two structures differ. *)
Lemma options_numeric_segment_differs :
  reify 2 (heap st_server_80) (VRef 1)
  = Some (nest [KStr "server"; KStr "80"] (TInt 8080))
  ∧ data_tree 3 (snd (options_entry 5 (KStr "server.80") (VInt 8080)
                        st_server_80)) 0
    = Some (TDict [(KStr "server", TDict [(KInt 80, TInt 8080)])])
  ∧ data_tree 3 (snd (data_entry 5 (VRef 1) st_server_80)) 0
    = Some (TDict [(KStr "server", TDict [(KStr "80", TInt 8080)])]).
Proof. repeat split; reflexivity. Qed.

(** C7, as amended.  Let [p] be an option key none of whose segments
    [int()] accepts, let [v] read as the structure [V], and let [x] read
    as the nested singleton mapping of [p]'s segments around [V].  On an
    empty root, in any store and at any recursion limit,
    [update(options={p: v})] and [update(data=x)] both return, and the
    root's tree reads as that nested mapping after each: for
    ['server.port'] and [8080], [{'server': {'port': 8080}}]. *)
Theorem options_shorthand_equivalence (limit : nat) (st : state) (p : key)
    (v x : val) (V : tree) (fv fx : nat) :
  Forall (fun k => int_or_keep k = k) (key_path_of p) →
  reify fv (heap st) v = Some V →
  reify fx (heap st) x = Some (nest (key_path_of p) V) →
  let ra := options_entry limit p v st in
  let rb := data_entry limit x st in
  let c := length (nodes st) in
  let fuel := (fx + fv + length (key_path_of p) + 1)%nat in
  fst ra = Ok c
  ∧ fst rb = Ok c
  ∧ data_tree fuel (snd ra) c = Some (nest (key_path_of p) V)
  ∧ data_tree fuel (snd rb) c = data_tree fuel (snd ra) c.
Proof.
  intros HF HV Hx ra rb c fuel.
  destruct (options_entry_run limit st p v V fv HF HV) as (sa & Ha & Hta).
  assert (Hne : key_path_of p ≠ []) by apply key_path_of_nonempty.
  destruct (key_path_of p) as [|k1 rest] eqn:Hks; [congruence|].
  cbn [nest] in Hx |- *.
  destruct (data_entry_run limit st x k1 (nest rest V) fx Hx) as (sb & Hb & Htb).
  subst ra rb. rewrite Ha, Hb. cbn [fst snd].
  assert (Hfa : data_tree fuel sa c = Some (TDict [(k1, nest rest V)])).
  { unfold data_tree in *. fold c in Hta.
    destruct (nodes sa !! c) as [na|]; [|discriminate Hta].
    cbn [mbind option_bind] in *.
    eapply reify_fuel_mono; [|exact Hta]. unfold fuel. lia. }
  assert (Hfb : data_tree fuel sb c = Some (TDict [(k1, nest rest V)])).
  { unfold data_tree in *. fold c in Htb.
    destruct (nodes sb !! c) as [nb|]; [|discriminate Htb].
    cbn [mbind option_bind] in *.
    eapply reify_fuel_mono; [|exact Htb]. unfold fuel. lia. }
  split; [reflexivity|]. split; [reflexivity|]. split; [exact Hfa|].
  rewrite Hfa, Hfb. reflexivity.
Qed.

Lemma options_shorthand_equivalence_witness :
  fst (options_entry 5 (KStr "server.port") (VInt 8080) st_server_port) = Ok 0%nat
  ∧ fst (data_entry 5 (VRef 1) st_server_port) = Ok 0%nat
  ∧ data_tree 5 (snd (options_entry 5 (KStr "server.port") (VInt 8080)
                        st_server_port)) 0
    = Some (TDict [(KStr "server", TDict [(KStr "port", TInt 8080)])])
  ∧ data_tree 5 (snd (data_entry 5 (VRef 1) st_server_port)) 0
    = data_tree 5 (snd (options_entry 5 (KStr "server.port") (VInt 8080)
                          st_server_port)) 0.
Proof.
  apply (options_shorthand_equivalence 5 st_server_port (KStr "server.port")
           (VInt 8080) (VRef 1) (TInt 8080) 0 2).
  - repeat constructor.
  - reflexivity.
  - reflexivity.
Defined.
(** * Further properties of the code *)

(** ** Deep merge *)

(** X1.  [update_dict(target, source)], where both read as structures
    with distinct keys, the target shares no container with the source nor
    with itself, and every mapping of the source meets a mapping or no
    entry in the target: the call returns, the target reads as
    [merge_tree] of the two, the source reads as before, no cell is
    allocated, and only cells of the target are written. *)
Theorem update_dict_merges (f : nat) (h : list obj) (ns : list cnode)
    (t s : val) (T S : tree) :
  reify f h t = Some T → reify f h s = Some S →
  tree_ok T = true → tree_ok S = true → compat T S = true →
  NoDup (cells f h t) → (∀ l, l ∈ cells f h t → l ∉ cells f h s) →
  ∃ h', update_dict f t s (State h ns) = (Ok tt, State h' ns)
        ∧ reify f h' t = Some (merge_tree T S)
        ∧ reify f h' s = Some S
        ∧ length h' = length h
        ∧ (∀ l, l ∉ cells f h t → h' !! l = h !! l).
Proof.
  apply update_dict_merge_full.
Qed.

Lemma update_dict_merges_witness :
  fst (update_dict 2 (VRef 1) (VRef 3) (State h_siblings [])) = Ok tt
  ∧ reify 2 (heap (snd (update_dict 2 (VRef 1) (VRef 3) (State h_siblings []))))
      (VRef 1)
    = Some (TDict [(KStr "x", TDict [(KStr "a", TInt 99); (KStr "b", TInt 2);
                                     (KStr "c", TInt 3)])]).
Proof.
  destruct (update_dict_merges 2 h_siblings [] (VRef 1) (VRef 3) _ _
              eq_refl eq_refl eq_refl eq_refl eq_refl)
    as (h' & Hrun & Hread & _).
  - apply (bool_decide_unpack _). vm_compute. exact I.
  - apply Forall_forall. apply (bool_decide_unpack _). vm_compute. exact I.
  - rewrite Hrun. split; [reflexivity|exact Hread].
Defined.

(** X2.  The same merge, key by key: a key the source lacks reads as it
    did in the target; a key under which the source holds a mapping and the
    target holds an entry reads as the merge of the two; every other key of
    the source reads as the source's value, whatever the target held. *)
Theorem update_dict_by_key (f : nat) (h : list obj) (ns : list cnode)
    (t s : val) (Tits Sits : list (key * tree)) :
  reify f h t = Some (TDict Tits) → reify f h s = Some (TDict Sits) →
  tree_ok (TDict Tits) = true → tree_ok (TDict Sits) = true →
  compat (TDict Tits) (TDict Sits) = true →
  NoDup (cells f h t) → (∀ l, l ∈ cells f h t → l ∉ cells f h s) →
  ∃ h' Rits,
    update_dict f t s (State h ns) = (Ok tt, State h' ns)
    ∧ reify f h' t = Some (TDict Rits)
    ∧ ∀ k, tree_get k Rits
           = match tree_get k Sits with
             | None => tree_get k Tits
             | Some Sv =>
                 match Sv, tree_get k Tits with
                 | TDict _, Some Tk => Some (merge_tree Tk Sv)
                 | _, _ => Some Sv
                 end
             end.
Proof.
  intros Ht Hs HokT HokS Hc Hnd Hdisj.
  destruct (update_dict_merge_spec f h ns t s _ _ Ht Hs HokT HokS Hc Hnd Hdisj)
    as (h' & Hrun & _ & _ & Hread & _).
  exists h', (fold_left merge_step Sits Tits).
  split; [exact Hrun|]. split; [exact Hread|].
  intros k. apply merge_fold_get. apply (tree_ok_dict _ HokS).
Qed.

Lemma update_dict_by_key_witness :
  ∃ h' Rits,
    update_dict 2 (VRef 1) (VRef 3) (State h_siblings []) = (Ok tt, State h' [])
    ∧ reify 2 h' (VRef 1) = Some (TDict Rits)
    ∧ tree_get (KStr "x") Rits
      = Some (TDict [(KStr "a", TInt 99); (KStr "b", TInt 2); (KStr "c", TInt 3)])
    ∧ tree_get (KStr "y") Rits = None.
Proof.
  destruct (update_dict_by_key 2 h_siblings [] (VRef 1) (VRef 3) _ _
              eq_refl eq_refl eq_refl eq_refl eq_refl)
    as (h' & Rits & Hrun & Hread & Hk).
  - apply (bool_decide_unpack _). vm_compute. exact I.
  - apply Forall_forall. apply (bool_decide_unpack _). vm_compute. exact I.
  - exists h', Rits. split; [exact Hrun|]. split; [exact Hread|].
    split; [apply (Hk (KStr "x"))|apply (Hk (KStr "y"))].
Defined.

(** X3.  [update(data=x)] on a root merges [x] into the root's tree:
    under the conditions of the merge, the call returns, the tree reads as
    [merge_tree] of the tree and [x], [x] reads as before and no node
    changes. *)
Theorem update_merges_data (limit : nat) (self : nat) (st : state)
    (n : cnode) (x : val) (T S : tree) :
  nodes st !! self = Some n → truthy (n_path n) = false →
  reify limit (heap st) (n_data n) = Some T →
  reify limit (heap st) x = Some S →
  tree_ok T = true → tree_ok S = true → compat T S = true →
  NoDup (cells limit (heap st) (n_data n)) →
  (∀ l, l ∈ cells limit (heap st) (n_data n) → l ∉ cells limit (heap st) x) →
  let st' := snd (update limit self (Some (DVal x)) None st) in
  fst (update limit self (Some (DVal x)) None st) = Ok tt
  ∧ data_tree limit st' self = Some (merge_tree T S)
  ∧ reify limit (heap st') x = Some S
  ∧ nodes st' = nodes st.
Proof.
  intros Hn Hp HT HS HokT HokS Hc Hnd Hdisj st'.
  destruct st as [h ns]. cbn [heap nodes] in *.
  destruct (update_dict_merge_full limit (h ++ [ODict []]) ns (n_data n) x T S)
    as (h' & Hrun & Hread & Hsrc & _); auto using reify_app.
  { rewrite (cells_app _ _ _ _ _ HT). exact Hnd. }
  { rewrite (cells_app _ _ _ _ _ HT), (cells_app _ _ _ _ _ HS). exact Hdisj. }
  subst st'. unfold update.
  rewrite (update_with_data_run _ _ _ _ _ _ _ Hn Hp), Hrun. cbn [fst snd].
  split; [reflexivity|]. unfold data_tree. cbn [heap nodes].
  rewrite Hn. cbn [mbind option_bind]. auto.
Qed.

Lemma update_merges_data_witness :
  fst (update 2 0 (Some (DVal (VRef 3))) None st_siblings) = Ok tt
  ∧ data_tree 2 (snd (update 2 0 (Some (DVal (VRef 3))) None st_siblings)) 0
    = Some (TDict [(KStr "x", TDict [(KStr "a", TInt 99); (KStr "b", TInt 2);
                                     (KStr "c", TInt 3)])]).
Proof.
  destruct (update_merges_data 2 0 st_siblings _ (VRef 3) _ _
              eq_refl eq_refl eq_refl eq_refl eq_refl eq_refl eq_refl)
    as (H1 & H2 & _).
  - apply (bool_decide_unpack _). vm_compute. exact I.
  - apply Forall_forall. apply (bool_decide_unpack _). vm_compute. exact I.
  - split; [exact H1|exact H2].
Defined.

(** ** Construction and reset *)

(** X4.  [ConfigNode(data=x)], where [x] reads as a mapping with distinct
    keys: the constructor returns the new root, whose tree reads as that
    mapping and whose defaults read as the empty mapping; [x] reads as
    before. *)
Theorem init_reads_data (limit : nat) (st : state) (x : val)
    (Sits : list (key * tree)) :
  reify limit (heap st) x = Some (TDict Sits) →
  tree_ok (TDict Sits) = true →
  let c := length (nodes st) in
  let st' := snd (__init__ limit (Some (DVal x)) None None None st) in
  fst (__init__ limit (Some (DVal x)) None None None st) = Ok c
  ∧ data_tree limit st' c = Some (TDict Sits)
  ∧ defaults_tree limit st' c = Some (TDict [])
  ∧ reify limit (heap st') x = Some (TDict Sits).
Proof.
  intros HS HokS c st'.
  destruct st as [h ns]. cbn [heap nodes] in *.
  assert (Hlim : ∃ f0, limit = S f0).
  { apply reify_dict_inv in HS as (f0 & _ & _ & -> & _). eauto. }
  destruct Hlim as [f0 ->].
  set (h1 := h ++ [ODict []; ODict []]).
  set (root := CNode c None (VRef (length h)) (VRef (length h + 1))).
  assert (Hinit : __init__ (S f0) (Some (DVal x)) None None None (State h ns)
            = bind (update_dict (S f0) (VRef (length h + 1)) x)
                (fun _ => ret c) (State (h1 ++ [ODict []]) (ns ++ [root]))).
  { unfold __init__, init_with, default_dict, deepcopy. mrun.
    rewrite deepcopy_memo_eq. cbn [memo_get]. mrun. cbn [copy_items]. mrun.
    rewrite bind_run.
    rewrite (update_with_data_run _ _ _ _ _ _ root); [|lk|reflexivity].
    unfold h1, c, root. rewrite <- !app_assoc. cbn [app].
    rewrite bind_run. reflexivity. }
  assert (Hd : h1 ++ [ODict []] = h ++ [ODict []; ODict []; ODict []]).
  { unfold h1. rewrite <- app_assoc. reflexivity. }
  assert (Hcell : (h1 ++ [ODict []]) !! (length h + 1)%nat = Some (ODict [])).
  { rewrite Hd. rewrite lookup_app_plus. reflexivity. }
  assert (HS1 : reify (S f0) (h1 ++ [ODict []]) x = Some (TDict Sits)).
  { rewrite Hd. apply reify_app. exact HS. }
  assert (Hct : cells (S f0) (h1 ++ [ODict []]) (VRef (length h + 1))
                = [(length h + 1)%nat]).
  { cbn [cells]. rewrite Hcell. reflexivity. }
  destruct (update_dict_merge_full (S f0) (h1 ++ [ODict []]) (ns ++ [root])
              (VRef (length h + 1)) x (TDict []) (TDict Sits))
    as (h' & Hrun & Hread & Hsrc & Hlen & Hfr); auto.
  { cbn [reify]. rewrite Hcell. reflexivity. }
  { apply compat_empty. }
  { rewrite Hct. apply NoDup_singleton. }
  { rewrite Hct. intros l Hl Hl'.
    apply list_elem_of_singleton in Hl. subst l.
    rewrite Hd, (cells_app _ _ _ _ _ HS) in Hl'.
    pose proof (cells_bound _ _ _ _ _ HS Hl'). lia. }
  subst st'. rewrite Hinit, bind_run, Hrun. cbn [fst snd ret].
  split; [reflexivity|].
  unfold data_tree, defaults_tree. cbn [heap nodes].
  rewrite list_lookup_middle by reflexivity.
  cbn [mbind option_bind n_data n_defaults root].
  rewrite merge_tree_dict, merge_fold_fresh in Hread; cycle 1.
  { cbn [map app]. apply (tree_ok_dict _ HokS). }
  split; [exact Hread|]. split; [|exact Hsrc].
  cbn [reify]. rewrite Hfr.
  - rewrite Hd, lookup_app_here. reflexivity.
  - rewrite Hct. intros Hl. apply list_elem_of_singleton in Hl. lia.
Qed.

Lemma init_reads_data_witness :
  fst (__init__ 5 (Some (DVal (VRef 1))) None None None st_reset_example)
  = Ok 0%nat
  ∧ data_tree 5
      (snd (__init__ 5 (Some (DVal (VRef 1))) None None None st_reset_example))
      0
    = Some (TDict [(KStr "a", TInt 2); (KStr "b", TInt 3)]).
Proof.
  destruct (init_reads_data 5 st_reset_example (VRef 1) _ eq_refl eq_refl)
    as (H1 & H2 & _).
  split; [exact H1|exact H2].
Defined.

(** X5.  [ConfigNode(defaults=d)], where [d] reads as a structure [D]
    with distinct keys: the constructor returns the new root, which is its
    own root and has no path; its tree and its defaults both read as [D];
    the defaults are the caller's object itself, the tree a deep copy of
    it: every container of the tree, the nested ones included, is a cell
    that did not exist before, so the tree shares no container with the
    defaults; the store has only grown. *)
Theorem init_copies_defaults (limit : nat) (st : state) (d : val) (D : tree) :
  reify limit (heap st) d = Some D → tree_ok D = true →
  let c := length (nodes st) in
  let st' := snd (__init__ limit None (Some d) None None st) in
  fst (__init__ limit None (Some d) None None st) = Ok c
  ∧ data_tree limit st' c = Some D
  ∧ defaults_tree limit st' c = Some D
  ∧ (∃ added, heap st' = heap st ++ added)
  ∧ ∃ n', nodes st' = nodes st ++ [n']
          ∧ n_root n' = c ∧ n_path n' = None ∧ n_defaults n' = d
          ∧ (∀ l, d = VRef l → n_data n' = VRef (length (heap st)))
          ∧ (∀ l, l ∈ cells limit (heap st') (n_data n') →
                  (length (heap st) ≤ l)%nat)
          ∧ (∀ l, l ∈ cells limit (heap st') (n_data n') →
                  l ∉ cells limit (heap st') d).
Proof.
  intros Hd Hok c st'.
  destruct (deepcopy_correct limit st d D Hd Hok) as (x' & added & Hcopy & Hx').
  pose proof (deepcopy_fresh _ _ _ _ _ Hcopy) as Hfresh.
  pose proof (deepcopy_cells_fresh _ _ _ _ _ Hcopy limit) as Hdeep.
  cbn [heap] in Hdeep.
  assert (Hrun : __init__ limit None (Some d) None None st
            = (Ok c, State ((heap st ++ added) ++ [ODict []; ODict []])
                       (nodes st ++ [CNode c None d x']))).
  { unfold __init__, init_with. cbn [default_dict].
    rewrite bind_ret, bind_run, Hcopy, run_new_node, bind_run.
    rewrite (update_with_nothing _ _ _ _ _ (CNode c None d x')).
    - reflexivity.
    - apply list_lookup_middle. reflexivity.
    - reflexivity. }
  subst st'. rewrite Hrun. cbn [fst snd].
  split; [reflexivity|].
  unfold data_tree, defaults_tree. cbn [heap nodes].
  rewrite list_lookup_middle by reflexivity.
  cbn [mbind option_bind n_data n_defaults].
  split.
  { destruct (reify_grows limit (heap st ++ added) [ODict []; ODict []] x')
      as [E|E]; congruence. }
  split.
  { rewrite <- app_assoc.
    destruct (reify_grows limit (heap st) (added ++ [ODict []; ODict []]) d)
      as [E|E]; congruence. }
  split; [rewrite <- app_assoc; eauto|].
  eexists. split; [reflexivity|]. cbn [n_root n_path n_defaults n_data].
  assert (Hnew : ∀ l, l ∈ cells limit ((heap st ++ added) ++ [ODict []; ODict []]) x' →
                      (length (heap st) ≤ l)%nat).
  { intros l Hl. rewrite (cells_app _ _ _ _ _ Hx') in Hl. exact (Hdeep l Hl). }
  split; [reflexivity|]. split; [reflexivity|]. split; [reflexivity|].
  split; [intros l Hl; rewrite Hl in Hfresh; exact Hfresh|].
  split; [exact Hnew|].
  intros l Hl Hl'. pose proof (Hnew l Hl) as Hge.
  rewrite <- app_assoc, (cells_app _ _ _ _ _ Hd) in Hl'.
  pose proof (cells_bound _ _ _ _ _ Hd Hl'). lia.
Qed.

Lemma init_copies_defaults_witness :
  fst (__init__ 5 None (Some (VRef 1)) None None st_nested_defaults) = Ok 1%nat
  ∧ data_tree 5
      (snd (__init__ 5 None (Some (VRef 1)) None None st_nested_defaults)) 1
    = Some (TDict [(KStr "xs", TList [TInt 1])])
  ∧ ∀ l, l ∈ cells 5
               (heap (snd (__init__ 5 None (Some (VRef 1)) None None
                             st_nested_defaults))) (VRef 2) →
         (2 ≤ l)%nat.
Proof.
  destruct (init_copies_defaults 5 st_nested_defaults (VRef 1) _ eq_refl eq_refl)
    as (H1 & H2 & _ & _ & n' & _ & _ & _ & _ & Hd & Hnew & _).
  split; [exact H1|]. split; [exact H2|].
  rewrite (Hd 1%nat eq_refl) in Hnew. exact Hnew.
Defined.

(** X6.  [reset()] on any node whose defaults read as a structure [D]
    with distinct keys: the call returns, the node's tree and its defaults
    read as [D], the tree is a deep copy of the defaults: every container
    of the tree, the nested ones included, is a cell that did not exist
    before, so the tree shares no container with the defaults; the node
    keeps its root, path and defaults, every other node and every cell
    that existed are as they were. *)
Theorem reset_copies_current_defaults (limit : nat) (self : nat) (st : state)
    (n : cnode) (D : tree) :
  nodes st !! self = Some n →
  reify limit (heap st) (n_defaults n) = Some D → tree_ok D = true →
  let st' := snd (reset limit self st) in
  fst (reset limit self st) = Ok tt
  ∧ data_tree limit st' self = Some D
  ∧ defaults_tree limit st' self = Some D
  ∧ (∃ added, heap st' = heap st ++ added)
  ∧ (∀ i, i ≠ self → nodes st' !! i = nodes st !! i)
  ∧ ∃ n', nodes st' !! self = Some n'
          ∧ n_root n' = n_root n ∧ n_path n' = n_path n
          ∧ n_defaults n' = n_defaults n
          ∧ (∀ l, n_defaults n = VRef l → n_data n' = VRef (length (heap st)))
          ∧ (∀ l, l ∈ cells limit (heap st') (n_data n') →
                  (length (heap st) ≤ l)%nat)
          ∧ (∀ l, l ∈ cells limit (heap st') (n_data n') →
                  l ∉ cells limit (heap st') (n_defaults n)).
Proof.
  intros Hn Hd Hok st'.
  destruct (deepcopy_correct limit st _ D Hd Hok) as (x' & added & Hcopy & Hx').
  pose proof (deepcopy_fresh _ _ _ _ _ Hcopy) as Hfresh.
  pose proof (deepcopy_cells_fresh _ _ _ _ _ Hcopy limit) as Hdeep.
  cbn [heap] in Hdeep.
  assert (Hlt : (self < length (nodes st))%nat) by (eapply lookup_lt_Some; eauto).
  assert (Hreset : reset limit self st
            = (Ok tt, State (heap st ++ added)
                        (<[self := CNode (n_root n) (n_path n) (n_defaults n) x']>
                           (nodes st)))).
  { unfold reset. rewrite run_get_node, Hn, bind_run, Hcopy. reflexivity. }
  subst st'. rewrite Hreset. cbn [fst snd].
  split; [reflexivity|].
  unfold data_tree, defaults_tree. cbn [heap nodes].
  rewrite list_lookup_insert_eq by exact Hlt.
  cbn [mbind option_bind n_data n_defaults].
  split; [exact Hx'|]. split.
  { destruct (reify_grows limit (heap st) added (n_defaults n)) as [E|E]; congruence. }
  split; [eauto|]. split.
  { intros i Hi. apply list_lookup_insert_ne. congruence. }
  eexists. split; [reflexivity|]. cbn [n_root n_path n_defaults n_data].
  split; [reflexivity|]. split; [reflexivity|]. split; [reflexivity|].
  split; [intros l Hl; rewrite Hl in Hfresh; exact Hfresh|].
  split; [exact Hdeep|].
  intros l Hl Hl'. pose proof (Hdeep l Hl) as Hge.
  rewrite (cells_app _ _ _ _ _ Hd) in Hl'.
  pose proof (cells_bound _ _ _ _ _ Hd Hl'). lia.
Qed.

Lemma reset_copies_current_defaults_witness :
  fst (reset 5 0 st_nested_defaults) = Ok tt
  ∧ data_tree 5 (snd (reset 5 0 st_nested_defaults)) 0
    = Some (TDict [(KStr "xs", TList [TInt 1])])
  ∧ ∀ l, l ∈ cells 5 (heap (snd (reset 5 0 st_nested_defaults))) (VRef 2) →
         (2 ≤ l)%nat.
Proof.
  destruct (reset_copies_current_defaults 5 0 st_nested_defaults _ _
              eq_refl eq_refl eq_refl)
    as (H1 & H2 & _ & _ & _ & n' & _ & _ & _ & _ & Hd & Hnew & _).
  split; [exact H1|]. split; [exact H2|].
  rewrite (Hd 1%nat eq_refl) in Hnew. exact Hnew.
Defined.

(** ** Reads *)

(** X7.  A read is the walk by hand.  Where the root's tree reads as the
    structure [D], [node[key]] -- for a path that is not false -- returns
    what walking [D] along the segments of the child's path finds: the raw
    value of a scalar, and the new view for a container, for [None] and for
    a path that leads nowhere; the view resolves to a value that reads as
    the structure found, [None] if none. *)
Theorem getitem_walks_tree (limit : nat) (self : nat) (k : key) (st : state)
    (n r : cnode) (D : tree) (f : nat) :
  nodes st !! self = Some n → nodes st !! n_root n = Some r →
  reify f (heap st) (n_data r) = Some D →
  truthy (Some (child_path (n_path n) k)) = true →
  let c := length (nodes st) in
  let st' := snd (__getitem__ limit self k st) in
  let found := walk D (key_path_of (child_path (n_path n) k)) in
  fst (__getitem__ limit self k st) = Ok (item_of c found)
  ∧ ∃ v, _get_value c st' = (Ok v, st')
         ∧ reify f (heap st') v = Some (default TNone found).
Proof.
  apply getitem_walk.
Qed.

Lemma getitem_walks_tree_witness :
  data_tree 5 st_demo 0
  = Some (TDict [(KStr "a", TInt 5); (KStr "xs", TList [TInt 1]);
                 (KStr "sub", TDict [])])
  ∧ fst (__getitem__ 5 0 (KStr "xs.0") st_demo) = Ok (Raw (VInt 1))
  ∧ fst (__getitem__ 5 0 (KStr "xs.-1") st_demo) = Ok (Raw (VInt 1))
  ∧ fst (__getitem__ 5 0 (KStr "xs.1") st_demo) = Ok (View 1).
Proof.
  split; [reflexivity|].
  destruct (getitem_walks_tree 5 0 (KStr "xs.0") st_demo _ _ _ 5
              eq_refl eq_refl eq_refl eq_refl) as [H _].
  split; [exact H|]. split; reflexivity.
Defined.

(** X8.  Paths compose through views.  A child of a node whose path [p]
    is not false, for the key [k] -- a string or an integer, which the
    child's path renders with [str] and the resolver reads back with
    [int] -- is resolved as the segments of [p] followed by the segments of
    [k]: by the resolver, with or without [create], and by the walk by
    hand. *)
Theorem child_path_composes (create : bool) (p k : key) (node last : val)
    (prev : option key) (st : state) (D : tree) :
  truthy (Some p) = true →
  traverse create (key_path_of (child_path (Some p) k)) node last prev st
  = traverse create (key_path_of p ++ key_path_of k) node last prev st
  ∧ walk D (key_path_of (child_path (Some p) k))
    = (t ← walk D (key_path_of p); walk t (key_path_of k)).
Proof.
  intros Ht. pose proof (key_path_compose p k Ht) as Hc.
  rewrite <- map_app in Hc. split.
  - rewrite <- traverse_segments, Hc. apply traverse_segments.
  - rewrite <- walk_app, <- walk_segments, Hc. apply walk_segments.
Qed.

Lemma child_path_composes_witness :
  key_path_of (child_path (Some (KStr "xs")) (KInt (-1))) = [KStr "xs"; KStr "-1"]
  ∧ walk (TDict [(KStr "xs", TList [TInt 1; TInt 2])])
      (key_path_of (child_path (Some (KStr "xs")) (KInt (-1))))
    = Some (TInt 2).
Proof.
  split; [reflexivity|].
  destruct (child_path_composes false (KStr "xs") (KInt (-1)) VNone VNone None
              st0 (TDict [(KStr "xs", TList [TInt 1; TInt 2])]) eq_refl)
    as [_ H].
  rewrite H. reflexivity.
Defined.

(** X9.  Membership tests the raw key.  On a view whose path is not
    false, over a root whose tree reads as [D]: where the path leads to a
    mapping, [key in view] tells whether that mapping has the key itself,
    unsplit and unconverted; where the path leads nowhere it raises
    [TypeError]. *)
Theorem contains_tests_raw_key (c : nat) (k : key) (st : state) (n r : cnode)
    (p : key) (D : tree) (f : nat) :
  nodes st !! c = Some n → n_path n = Some p → truthy (Some p) = true →
  nodes st !! n_root n = Some r →
  reify f (heap st) (n_data r) = Some D →
  (∀ its, walk D (key_path_of p) = Some (TDict its) →
          __contains__ c k st = (Ok (is_some (tree_get k its)), st))
  ∧ (walk D (key_path_of p) = None →
     __contains__ c k st = (Raise TypeError, st)).
Proof.
  intros Hc Hp Ht Hr HD.
  destruct (get_value_walk st c n r p D f Hc Hp Ht Hr HD) as (v & Hv & Hvt).
  unfold __contains__. rewrite bind_run, Hv. split.
  - intros its Hw. rewrite Hw in Hvt. cbn [default] in Hvt.
    apply reify_dict_inv in Hvt as (f0 & l & items & _ & -> & Hl & HF).
    unfold py_contains. rewrite run_load, Hl.
    pose proof (lockstep_get _ _ _ k HF) as Hk.
    destruct (dict_get k items).
    + destruct Hk as (t & -> & _). reflexivity.
    + rewrite Hk. reflexivity.
  - intros Hw. rewrite Hw in Hvt. cbn [default] in Hvt.
    destruct v as [| | | |l]; try reflexivity.
    + rewrite reify_scalar in Hvt by discriminate. discriminate.
    + apply reify_ref_inv in Hvt as (f0 & _ & [(? & ? & _ & [=] & _)|(? & ? & _ & [=] & _)]).
Qed.

Lemma contains_tests_raw_key_witness :
  __contains__ 2 (KStr "b")
    (snd (__getitem__ 5 0 (KStr "a") (snd (vivify_abc 5 (VInt 7) st0))))
  = (Ok true,
     snd (__getitem__ 5 0 (KStr "a") (snd (vivify_abc 5 (VInt 7) st0))))
  ∧ __contains__ 2 (KStr "b.c")
      (snd (__getitem__ 5 0 (KStr "a") (snd (vivify_abc 5 (VInt 7) st0))))
    = (Ok false,
       snd (__getitem__ 5 0 (KStr "a") (snd (vivify_abc 5 (VInt 7) st0)))).
Proof.
  destruct (contains_tests_raw_key 2 (KStr "b")
              (snd (__getitem__ 5 0 (KStr "a") (snd (vivify_abc 5 (VInt 7) st0))))
              _ _ (KStr "a") _ 4 eq_refl eq_refl eq_refl eq_refl eq_refl)
    as [H _].
  split; [exact (H _ eq_refl)|reflexivity].
Defined.

(** ** Writes *)

(** X10.  Set then get, one segment.  On a node with no path of its own
    whose root's tree is a mapping, [node[k] = v] for a key of one segment
    returns; the mapping then holds [v] under the key as the resolver
    converts it, every other key of the mapping and every other cell that
    existed are as they were; and, the key not being false, [node[k]] then
    returns [v]: raw if a scalar, as a view resolving to [v] otherwise. *)
Theorem setitem_getitem_round_trip (limit : nat) (self : nat) (k : key)
    (v : val) (st : state) (n rn : cnode) (l : nat) (items : list (key * val)) :
  nodes st !! self = Some n → truthy (n_path n) = false →
  nodes st !! n_root n = Some rn → n_data rn = VRef l →
  heap st !! l = Some (ODict items) →
  key_path_of k = [k] → truthy (Some k) = true →
  val_ok (length (heap st)) v = true →
  let st1 := snd (__setitem__ limit self k v st) in
  let c := S (length (nodes st)) in
  fst (__setitem__ limit self k v st) = Ok tt
  ∧ heap st1 !! l = Some (ODict (dict_set (int_or_keep k) v items))
  ∧ (∀ k2, key_eqb k2 (int_or_keep k) = false →
       dict_get k2 (dict_set (int_or_keep k) v items) = dict_get k2 items)
  ∧ (∀ l', (l' < length (heap st))%nat → l' ≠ l →
       heap st1 !! l' = heap st !! l')
  ∧ fst (__getitem__ limit self k st1)
    = Ok (match v with
          | VNone | VRef _ => View c
          | VBool _ | VInt _ | VStr _ => Raw v
          end)
  ∧ fst (_get_value c (snd (__getitem__ limit self k st1))) = Ok v.
Proof.
  intros Hn Hf Hr Hd Hl Hk Ht Hv st1 c.
  destruct (setitem_single_run limit self k v st n rn l items Hn Hf Hr Hd Hl Hk)
    as (cells & Hrun & Hcells).
  assert (Hlt : (l < length (heap st))%nat) by (eapply lookup_lt_Some; eauto).
  subst st1. rewrite Hrun. cbn [fst snd].
  set (items1 := dict_set (int_or_keep k) v items).
  set (st1 := State _ _).
  assert (Hl1 : heap st1 !! l = Some (ODict items1)).
  { unfold st1. cbn [heap]. rewrite lookup_app_l by (rewrite length_insert; lia).
    apply list_lookup_insert_eq. exact Hlt. }
  split; [reflexivity|]. split; [exact Hl1|].
  split; [intros k2 Hk2; apply dict_get_set_ne; exact Hk2|].
  split.
  { intros l' Hl' Hne. unfold st1. cbn [heap].
    rewrite lookup_app_l by (rewrite length_insert; lia).
    apply list_lookup_insert_ne. congruence. }
  assert (Hn1 : nodes st1 !! self = Some n).
  { unfold st1. cbn [nodes]. apply lookup_app_l_Some. exact Hn. }
  assert (Hr1 : nodes st1 !! n_root n = Some rn).
  { unfold st1. cbn [nodes]. apply lookup_app_l_Some. exact Hr. }
  assert (Hlen : length (nodes st1) = c).
  { unfold st1, c. cbn [nodes]. rewrite length_app. cbn. lia. }
  set (st2 := with_node st1 (n_root n) (Some (child_path (n_path n) k))).
  assert (Hc2 : nodes st2 !! c
                = Some (CNode (n_root n) (Some k) (VRef (length (heap st1)))
                          (VRef (length (heap st1) + 1)))).
  { unfold st2, with_node. cbn [nodes]. rewrite <- Hlen.
    rewrite (child_path_falsy _ _ Hf).
    apply list_lookup_middle. reflexivity. }
  destruct (single_child_value st2 c (n_root n) rn k l items1 _ Hc2 eq_refl
              eq_refl) as (x & Hx & Hxv); [ | exact Hd | | exact Hk | ].
  { unfold st2, with_node. cbn [nodes]. apply lookup_app_l_Some. exact Hr1. }
  { unfold st2, with_node. cbn [heap]. apply lookup_app_l_Some. exact Hl1. }
  specialize (Hxv Ht). unfold items1 in Hxv.
  rewrite dict_get_set_eq in Hxv. cbn [default] in Hxv. subst x.
  assert (Hget : __getitem__ limit self k st1
                 = (Ok (match v with
                        | VNone | VRef _ => View c
                        | VBool _ | VInt _ | VStr _ => Raw v
                        end), st2)).
  { rewrite <- Hlen.
    apply (getitem_eval limit self k st1 n v Hn1).
    - rewrite Hlen. exact Hx.
    - intros lv ->. cbn [val_ok] in Hv. apply Nat.ltb_lt in Hv.
      apply lookup_lt_is_Some_2. fold st2. unfold st2, with_node, st1.
      cbn [heap]. rewrite !length_app, length_insert. lia. }
  rewrite Hget. cbn [fst snd]. split; [reflexivity|]. rewrite Hx. reflexivity.
Qed.

Lemma setitem_getitem_round_trip_witness :
  fst (__getitem__ 5 0 (KStr "a")
         (snd (__setitem__ 5 0 (KStr "a") (VInt 6) st_demo)))
  = Ok (Raw (VInt 6)).
Proof.
  pose proof (setitem_getitem_round_trip 5 0 (KStr "a") (VInt 6) st_demo _ _ _ _
                eq_refl eq_refl eq_refl eq_refl eq_refl eq_refl eq_refl eq_refl)
    as (_ & _ & _ & _ & H & _).
  exact H.
Defined.

(** X11.  A key that is false as a path -- [0] or [''] -- is written,
    and never read: [node[k] = v] stores [v] under the key in the root's
    mapping, but [node[k]] returns a view whose value is the view's own
    empty mapping, in a cell that did not exist before, whatever the tree
    holds. *)
Theorem falsy_key_written_not_read (limit : nat) (self : nat) (k : key)
    (v : val) (st : state) (n rn : cnode) (l : nat) (items : list (key * val)) :
  nodes st !! self = Some n → truthy (n_path n) = false →
  nodes st !! n_root n = Some rn → n_data rn = VRef l →
  heap st !! l = Some (ODict items) →
  truthy (Some k) = false →
  let st1 := snd (__setitem__ limit self k v st) in
  let st2 := snd (__getitem__ limit self k st1) in
  let c := S (length (nodes st)) in
  fst (__setitem__ limit self k v st) = Ok tt
  ∧ heap st1 !! l = Some (ODict (dict_set k v items))
  ∧ fst (__getitem__ limit self k st1) = Ok (View c)
  ∧ ∃ e, _get_value c st2 = (Ok (VRef e), st2)
         ∧ heap st2 !! e = Some (ODict [])
         ∧ (length (heap st1) ≤ e)%nat.
Proof.
  intros Hn Hf Hr Hd Hl Ht st1 st2 c.
  assert (Hk : key_path_of k = [k] ∧ int_or_keep k = k).
  { destruct k as [s|z]; cbn in Ht.
    - apply negb_false_iff, String.eqb_eq in Ht. subst s. split; reflexivity.
    - split; reflexivity. }
  destruct Hk as [Hk Hik].
  destruct (setitem_single_run limit self k v st n rn l items Hn Hf Hr Hd Hl Hk)
    as (cells & Hrun & Hcells).
  assert (Hlt : (l < length (heap st))%nat) by (eapply lookup_lt_Some; eauto).
  subst st2 st1. rewrite Hrun. cbn [fst snd]. rewrite Hik.
  set (st1 := State _ _).
  split; [reflexivity|]. split.
  { unfold st1. cbn [heap]. rewrite lookup_app_l by (rewrite length_insert; lia).
    apply list_lookup_insert_eq. exact Hlt. }
  assert (Hn1 : nodes st1 !! self = Some n).
  { unfold st1. cbn [nodes]. apply lookup_app_l_Some. exact Hn. }
  assert (Hlen : length (nodes st1) = c).
  { unfold st1, c. cbn [nodes]. rewrite length_app. cbn. lia. }
  set (st2 := with_node st1 (n_root n) (Some (child_path (n_path n) k))).
  assert (Hx : _get_value c st2 = (Ok (VRef (length (heap st1) + 1)), st2)).
  { unfold _get_value. rewrite run_get_node.
    unfold st2 at 1, with_node. cbn [nodes]. rewrite <- Hlen.
    rewrite list_lookup_middle by reflexivity.
    cbn [n_path n_data]. rewrite (child_path_falsy _ _ Hf), Ht. reflexivity. }
  assert (He : heap st2 !! (length (heap st1) + 1)%nat = Some (ODict [])).
  { unfold st2, with_node. cbn [heap]. rewrite lookup_app_plus. reflexivity. }
  assert (Hget : __getitem__ limit self k st1 = (Ok (View c), st2)).
  { rewrite <- Hlen.
    apply (getitem_eval limit self k st1 n (VRef (length (heap st1) + 1)) Hn1).
    - rewrite Hlen. exact Hx.
    - intros lv [= <-]. exists (ODict []). exact He. }
  rewrite Hget. cbn [fst snd]. split; [reflexivity|].
  exists (length (heap st1) + 1)%nat. split; [exact Hx|]. split; [exact He|lia].
Qed.

Lemma falsy_key_written_not_read_witness :
  heap (snd (__setitem__ 5 0 (KInt 0) (VInt 6) st_demo)) !! 4%nat
  = Some (ODict [(KStr "a", VInt 5); (KStr "xs", VRef 0); (KStr "sub", VRef 1);
                 (KInt 0, VInt 6)])
  ∧ fst (__getitem__ 5 0 (KInt 0)
           (snd (__setitem__ 5 0 (KInt 0) (VInt 6) st_demo)))
    = Ok (View 2).
Proof.
  pose proof (falsy_key_written_not_read 5 0 (KInt 0) (VInt 6) st_demo _ _ 4 _
                eq_refl eq_refl eq_refl eq_refl eq_refl eq_refl)
    as (_ & H1 & H2 & _).
  split; [exact H1 | exact H2].
Defined.

(** X13.  Write along any path.  Let the root's tree read as the
    structure [D], with distinct keys and through containers it visits
    once each, and let [v] read as [V] through containers that are none of
    those.  Where the write by hand succeeds -- [put] walks the segments of
    the child's path, creating the mappings that are missing, entering a
    sequence only at an index it has -- [node[k] = v] returns and the
    root's tree reads as the structure [put] gives; the walk by hand along
    the same path finds [V] there; every container outside the tree is as
    it was; and, the path not being false, [node[k]] then returns [V]: raw
    if a scalar, as a view otherwise. *)
Theorem setitem_puts (limit : nat) (self : nat) (k : key) (v : val)
    (st : state) (n r : cnode) (D V D' : tree) (f fv : nat) :
  nodes st !! self = Some n → nodes st !! n_root n = Some r →
  reify f (heap st) (n_data r) = Some D → tree_ok D = true →
  NoDup (cells f (heap st) (n_data r)) →
  reify fv (heap st) v = Some V →
  (∀ l, l ∈ cells fv (heap st) v → l ∉ cells f (heap st) (n_data r)) →
  put D (key_path_of (child_path (n_path n) k)) V = Some D' →
  let ks := key_path_of (child_path (n_path n) k) in
  let st' := snd (__setitem__ limit self k v st) in
  fst (__setitem__ limit self k v st) = Ok tt
  ∧ data_tree (f + fv + length ks) st' (n_root n) = Some D'
  ∧ walk D' ks = Some V
  ∧ (∀ l, (l < length (heap st))%nat → l ∉ cells f (heap st) (n_data r) →
          heap st' !! l = heap st !! l)
  ∧ (truthy (Some (child_path (n_path n) k)) = true →
     fst (__getitem__ limit self k st')
     = Ok (item_of (S (length (nodes st))) (Some V))).
Proof.
  intros Hn Hr HD Hok Hnd HV Hdisj Hput ks st'.
  set (p := child_path (n_path n) k) in *.
  set (st1 := with_node st (n_root n) (Some p)).
  set (cs := [ODict []; ODict []; ODict []; ODict []]).
  assert (Hh1 : heap st1 = heap st ++ cs) by reflexivity.
  assert (HD1 : reify f (heap st1) (n_data r) = Some D).
  { rewrite Hh1. apply reify_app. exact HD. }
  assert (Hx : ∃ x, _get_value (length (nodes st)) st1 = (Ok x, st1)).
  { assert (Hc1 : nodes st1 !! length (nodes st)
                  = Some (CNode (n_root n) (Some p) (VRef (length (heap st)))
                            (VRef (length (heap st) + 1)))).
    { unfold st1, with_node. cbn [nodes]. apply list_lookup_middle. reflexivity. }
    assert (Hr1 : nodes st1 !! n_root n = Some r).
    { unfold st1, with_node. cbn [nodes]. apply lookup_app_l_Some. exact Hr. }
    destruct (truthy (Some p)) eqn:Ht.
    - destruct (get_value_walk st1 _ _ r p D f Hc1 eq_refl Ht Hr1 HD1)
        as (x & Hx & _). eauto.
    - eexists. unfold _get_value. rewrite run_get_node, Hc1.
      cbn [n_path]. rewrite Ht. reflexivity. }
  destruct Hx as [x Hx].
  destruct (write_at_put fv v V (nodes st1) ks f (heap st1) (n_data r)
              (n_data r) None D D' HD1 Hok)
    as (h' & Hrun & Hread & Hlen & Hfr).
  { rewrite Hh1, (cells_app _ _ _ _ _ HD). exact Hnd. }
  { rewrite Hh1. apply reify_app. exact HV. }
  { rewrite Hh1, (cells_app _ _ _ _ _ HD), (cells_app _ _ _ _ _ HV). exact Hdisj. }
  { exact Hput. }
  assert (Hset : __setitem__ limit self k v st = (Ok tt, State h' (nodes st1))).
  { rewrite (setitem_write_at limit self k v st n r x Hn Hr Hx).
    fold p. fold st1. fold ks. destruct st1 as [h1 ns1]. exact Hrun. }
  assert (Hr1 : nodes st1 !! n_root n = Some r).
  { unfold st1, with_node. cbn [nodes]. apply lookup_app_l_Some. exact Hr. }
  assert (Hw : walk D' ks = Some V) by (eapply walk_put; eauto).
  subst st'. rewrite Hset. cbn [fst snd]. split; [reflexivity|].
  split; [|split; [exact Hw|split]].
  - unfold data_tree. cbn [heap nodes].
    rewrite Hr1. cbn [mbind option_bind]. exact Hread.
  - intros l Hb Hc. cbn [heap]. rewrite Hfr.
    + rewrite Hh1. apply lookup_app_l. exact Hb.
    + rewrite Hh1, length_app. lia.
    + rewrite Hh1, (cells_app _ _ _ _ _ HD). exact Hc.
  - intros Ht.
    destruct (getitem_walk limit self k (State h' (nodes st1)) n r D'
                (f + fv + length ks)) as [Hg _]; auto.
    { cbn [nodes]. unfold st1, with_node. cbn [nodes].
      apply lookup_app_l_Some. exact Hn. }
    fold p in Hg. fold ks in Hg. rewrite Hw in Hg.
    rewrite Hg. cbn [nodes]. unfold st1, with_node. cbn [nodes].
    rewrite length_app. cbn [length]. repeat f_equal. lia.
Qed.

Lemma setitem_puts_witness :
  fst (__setitem__ 5 0 (KStr "sub.x.y") (VInt 7) st_demo) = Ok tt
  ∧ data_tree 8 (snd (__setitem__ 5 0 (KStr "sub.x.y") (VInt 7) st_demo)) 0
    = Some (TDict [(KStr "a", TInt 5); (KStr "xs", TList [TInt 1]);
                   (KStr "sub", TDict [(KStr "x", TDict [(KStr "y", TInt 7)])])])
  ∧ fst (__getitem__ 5 0 (KStr "sub.x.y")
           (snd (__setitem__ 5 0 (KStr "sub.x.y") (VInt 7) st_demo)))
    = Ok (Raw (VInt 7)).
Proof.
  destruct (setitem_puts 5 0 (KStr "sub.x.y") (VInt 7) st_demo _ _
              (TDict [(KStr "a", TInt 5); (KStr "xs", TList [TInt 1]);
                      (KStr "sub", TDict [])])
              (TInt 7)
              (TDict [(KStr "a", TInt 5); (KStr "xs", TList [TInt 1]);
                      (KStr "sub", TDict [(KStr "x", TDict [(KStr "y", TInt 7)])])])
              5 0 eq_refl eq_refl eq_refl eq_refl)
    as (H1 & H2 & _ & _ & H3).
  - apply (bool_decide_unpack _). vm_compute. exact I.
  - reflexivity.
  - intros l Hl. inversion Hl.
  - reflexivity.
  - split; [exact H1|]. split; [exact H2|]. exact (H3 eq_refl).
Defined.


(** X14.  A write through a sequence at an index it lacks.  Where the
    root's data is a sequence of [len] elements and the first segment of
    the child's path converts to an integer [i] that is no index of it
    ([i >= len] or [i < -len]), [node[k] = v] raises [IndexError] and
    writes [v] nowhere, whatever segments follow.  For [i > len] the
    sequence has grown all the same, by one element: a new list of
    [i - len] times [None]; for [i <= len] the store is as the
    construction of the child left it. *)
Theorem setitem_list_out_of_range (limit : nat) (self : nat) (k : key)
    (v : val) (st : state) (n r : cnode) (l : nat) (elems : list val)
    (k0 : key) (rest : list key) (i : Z) :
  nodes st !! self = Some n → nodes st !! n_root n = Some r →
  n_data r = VRef l → heap st !! l = Some (OList elems) →
  key_path_of (child_path (n_path n) k) = k0 :: rest →
  int_or_keep k0 = KInt i →
  norm_index i (length elems) = None →
  let st1 := with_node st (n_root n) (Some (child_path (n_path n) k)) in
  __setitem__ limit self k v st
  = (Raise IndexError,
     State (after_list_vivify (heap st1) l elems i) (nodes st1)).
Proof.
  intros Hn Hr Hd Hl Hks Hk Hi st1.
  set (p := child_path (n_path n) k) in *.
  assert (Hl1 : heap st1 !! l = Some (OList elems)).
  { unfold st1, with_node. cbn [heap]. apply lookup_app_l_Some. exact Hl. }
  assert (Hc1 : nodes st1 !! length (nodes st)
                = Some (CNode (n_root n) (Some p) (VRef (length (heap st)))
                          (VRef (length (heap st) + 1)))).
  { unfold st1, with_node. cbn [nodes]. apply list_lookup_middle. reflexivity. }
  assert (Hr1 : nodes st1 !! n_root n = Some r).
  { unfold st1, with_node. cbn [nodes]. apply lookup_app_l_Some. exact Hr. }
  assert (Hx : ∃ x, _get_value (length (nodes st)) st1 = (Ok x, st1)).
  { unfold _get_value. rewrite run_get_node, Hc1. cbn [n_path].
    destruct (truthy (Some p)); [|eexists; reflexivity].
    exists VNone. unfold try_except, _resolve_path.
    rewrite !bind_assoc, run_get_node, Hc1. cbn [n_path n_root].
    rewrite !bind_assoc, run_get_node, Hr1, Hd, Hks. cbn [traverse].
    rewrite Hk, !bind_assoc, bind_ret, !bind_run.
    unfold try_except, py_getitem. rewrite run_load, Hl1, Hi. reflexivity. }
  destruct Hx as [x Hx].
  rewrite (setitem_write_at limit self k v st n r x Hn Hr Hx).
  fold p. fold st1. rewrite Hks, Hd. destruct st1 as [h1 ns1].
  apply write_at_list_out_of_range; assumption.
Qed.

Lemma setitem_list_out_of_range_witness :
  __setitem__ 5 0 (KStr "2.x") (VInt 7)
    (State [OList [VInt 1]] [CNode 0 None (VRef 0) (VRef 0)])
  = (Raise IndexError,
     State [OList [VInt 1; VRef 5]; ODict []; ODict []; ODict []; ODict [];
            OList [VNone]]
           [CNode 0 None (VRef 0) (VRef 0);
            CNode 0 (Some (KStr "2.x")) (VRef 1) (VRef 2)]).
Proof.
  exact (setitem_list_out_of_range 5 0 (KStr "2.x") (VInt 7)
           (State [OList [VInt 1]] [CNode 0 None (VRef 0) (VRef 0)])
           (CNode 0 None (VRef 0) (VRef 0)) (CNode 0 None (VRef 0) (VRef 0))
           0 [VInt 1] (KStr "2") [KStr "x"] 2
           eq_refl eq_refl eq_refl eq_refl eq_refl eq_refl eq_refl).
Defined.



(** ** What no operation does *)

(** X12.  Nothing is ever deleted.  Through any sequence of [set],
    [update] and read operations (raising or not), through [reset] and
    through a construction, every container that existed stays a container
    of its kind; a mapping keeps every key it had and a sequence is never
    shorter than it was. *)
Theorem no_operation_deletes (limit : nat) (ops : list op) (self : nat)
    (data : option data_arg) (defaults : option val) (root : option nat)
    (path : option key) (st : state) :
  heap_le (heap st) (heap (snd (run_ops limit ops st)))
  ∧ heap_le (heap st) (heap (snd (reset limit self st)))
  ∧ heap_le (heap st)
      (heap (snd (__init__ limit data defaults root path st))).
Proof.
  split; [apply grows_run_ops|]. split; [apply grows_reset|apply grows_init].
Qed.
